(** * go-jsonxtractr: path extraction over a forward-only JSON token cursor

    A shallow embedding of package [jsonxtractr] (value_extractor.go,
    extract_state.go, the sentinel errors and the selector type) together
    with the parts of the Go standard library the package calls: [strings],
    [strconv], [encoding/json/jsontext] and [encoding/json/v2].

    Go strings and byte slices are Rocq [string]s (sequences of bytes),
    Go [int] is [Z], Go maps are [gmap]s, Go slices are lists.  A Go
    method that mutates its receiver and returns an error becomes a
    function from the receiver to the updated receiver and an optional
    error. *)

From Stdlib Require Import String Ascii ZArith List Bool Lia.
From Stdlib Require Import Floats.SpecFloat.
From stdpp Require Import gmap strings list fin_maps.

Local Open Scope Z_scope.

(** ** Bytes *)

(** The double quote byte, 0x22. *)
Definition dquote : ascii := "034"%char.

Definition bytes_of (s : string) : list ascii := list_ascii_of_string s.
Definition string_of (l : list ascii) : string := string_of_list_ascii l.

Definition byte_val (c : ascii) : Z := Z.of_nat (nat_of_ascii c).

Definition is_digit (c : ascii) : bool :=
  (48 <=? byte_val c) && (byte_val c <=? 57).

Definition digit_val (c : ascii) : Z := byte_val c - 48.

(** Value of a run of decimal digits, most significant first; [None] when
    a byte is not a digit. *)
Fixpoint digits_val (acc : Z) (ds : list ascii) : option Z :=
  match ds with
  | [] => Some acc
  | c :: r => if is_digit c then digits_val (acc * 10 + digit_val c) r else None
  end.

(** Turns every apostrophe into a double quote, so that JSON text can be
    written inside a string literal. *)
Definition json_text (s : string) : string :=
  string_of (map (fun c => if Ascii.eqb c "'"%char then dquote else c) (bytes_of s)).

(** ** Package strings *)

Module gostrings.

(** [strings.Split(s, sep)] for a one-byte separator: the pieces between
    the separators; an input without separator yields itself, also when
    it is empty. *)
Fixpoint Split (s : string) (sep : ascii) : list string :=
  match s with
  | EmptyString => [EmptyString]
  | String c r =>
      if Ascii.eqb c sep then EmptyString :: Split r sep
      else match Split r sep with
           | h :: t => String c h :: t
           | [] => [String c EmptyString]
           end
  end.

(** [strings.HasPrefix] on byte lists. *)
Fixpoint has_prefix (p l : list ascii) : bool :=
  match p, l with
  | [], _ => true
  | a :: p', b :: l' => Ascii.eqb a b && has_prefix p' l'
  | _ :: _, [] => false
  end.

(** [strings.Contains(s, sub)]. *)
Fixpoint contains (sub l : list ascii) : bool :=
  has_prefix sub l ||
  match l with
  | [] => false
  | _ :: r => contains sub r
  end.

Definition Contains (s sub : string) : bool := contains (bytes_of sub) (bytes_of s).

(** [strings.ReplaceAll(s, old, new)] for a non-empty [old]: the
    non-overlapping occurrences, left to right.  [skip] counts the bytes
    of a matched occurrence still to be dropped. *)
Fixpoint replace_all (old new : list ascii) (skip : nat) (l : list ascii) : list ascii :=
  match l with
  | [] => []
  | c :: r =>
      match skip with
      | S k => replace_all old new k r
      | O =>
          if has_prefix old l
          then (new ++ replace_all old new (Nat.pred (length old)) r)%list
          else c :: replace_all old new O r
      end
  end.

Definition ReplaceAll (s old new : string) : string :=
  string_of (replace_all (bytes_of old) (bytes_of new) O (bytes_of s)).

(** [strings.LastIndex(s, sub)] for a one-byte [sub]: the index of the last
    occurrence, or -1. *)
Fixpoint last_index (c : ascii) (i : Z) (found : Z) (l : list ascii) : Z :=
  match l with
  | [] => found
  | b :: r => last_index c (i + 1) (if Ascii.eqb b c then i else found) r
  end.

Definition LastIndex (s : string) (c : ascii) : Z := last_index c 0 (-1) (bytes_of s).

(** The slice expression [s[:n]]. *)
Definition slice_to (s : string) (n : Z) : string :=
  string_of (take (Z.to_nat n) (bytes_of s)).

End gostrings.

(** ** Package strconv *)

Module strconv.

Definition minInt : Z := - 2 ^ 63.
Definition maxInt : Z := 2 ^ 63 - 1.

(** [strconv.Atoi] on a 64-bit platform: an optional sign, then one or
    more decimal digits and nothing else; a value outside the range of
    [int] is an error like a syntax error is. *)
Definition Atoi (s : string) : option Z :=
  let parse (neg : bool) (ds : list ascii) : option Z :=
    match ds with
    | [] => None
    | _ :: _ =>
        match digits_val 0 ds with
        | Some n =>
            let v := if neg then - n else n in
            if (minInt <=? v) && (v <=? maxInt) then Some v else None
        | None => None
        end
    end in
  match bytes_of s with
  | [] => None
  | c :: r =>
      if Ascii.eqb c "-"%char then parse true r
      else if Ascii.eqb c "+"%char then parse false r
      else parse false (c :: r)
  end.

(** A float64: sign, 53-bit mantissa and binary exponent, or zero. *)
Definition float64 : Type := spec_float.

Definition prec64 : Z := 53.
Definition emax64 : Z := 1024.

(** The float64 nearest to [m * 10 ^ e10] (ties to even);
    [neg] is the sign of a zero mantissa. *)
Definition round_decimal (neg : bool) (m : Z) (e10 : Z) : float64 :=
  if m =? 0 then S754_zero neg
  else if 0 <=? e10 then binary_normalize prec64 emax64 (m * 10 ^ e10) 0 neg
  else
    match m with
    | Z.pos p => SFdiv prec64 emax64 (S754_finite false p 0)
                   (S754_finite false (Z.to_pos (10 ^ (- e10))) 0)
    | Z.neg p => SFdiv prec64 emax64 (S754_finite true p 0)
                   (S754_finite false (Z.to_pos (10 ^ (- e10))) 0)
    | Z0 => S754_zero neg
    end.

(** Splits a list at the first byte satisfying [p]. *)
Fixpoint break (p : ascii -> bool) (l : list ascii) : list ascii * list ascii :=
  match l with
  | [] => ([], [])
  | c :: r => if p c then ([], l)
              else let (a, b) := break p r in (c :: a, b)
  end.

Definition is_exp_mark (c : ascii) : bool :=
  Ascii.eqb c "e"%char || Ascii.eqb c "E"%char.

Definition is_dot_or_exp (c : ascii) : bool :=
  Ascii.eqb c "."%char || is_exp_mark c.

(** [strconv.ParseFloat(s, 64)] on a literal of the JSON number grammar:
    the nearest float64; a literal that rounds to an infinity is a range
    error. *)
Definition ParseFloat (s : string) : option float64 :=
  let l := bytes_of s in
  let (neg, l1) :=
    match l with
    | c :: r => if Ascii.eqb c "-"%char then (true, r) else (false, l)
    | [] => (false, l)
    end in
  let (ip, l2) := break is_dot_or_exp l1 in
  let (fp, l3) :=
    match l2 with
    | c :: r => if Ascii.eqb c "."%char then break is_exp_mark r else ([], l2)
    | [] => ([], l2)
    end in
  let ex : option Z :=
    match l3 with
    | [] => Some 0
    | _ :: r =>
        match r with
        | c :: r' =>
            if Ascii.eqb c "-"%char then option_map Z.opp (digits_val 0 r')
            else if Ascii.eqb c "+"%char then digits_val 0 r'
            else digits_val 0 r
        | [] => None
        end
    end in
  match digits_val 0 (ip ++ fp), ex with
  | Some m, Some e =>
      match round_decimal neg (if neg then - m else m) (e - Z.of_nat (length fp)) with
      | S754_infinity _ => None
      | S754_nan => None
      | f => Some f
      end
  | _, _ => None
  end.

End strconv.

(** ** Errors *)

(** The sentinel errors of the package.  Each [errors.New] value has an
    identity of its own, which [errors.Is] compares. *)
Inductive sentinel : Type :=
| ErrJSONBodyCannotBeEmpty
| ErrJSONIndexOutOfRange
| ErrJSONPathContainsEmptySegment
| ErrJSONPathExpectedArrayAtSegment
| ErrJSONPathExpectedObjectAtSegment
| ErrJSONPathSegmentNotFound
| ErrJSONPathTraversalFailed
| ErrJSONReadFailed
| ErrJSONStreamingParseFailed
| ErrJSONTokenReadFailed
| ErrJSONUnmarshalFailed
| ErrJSONValueSelectorCannotBeEmpty
| ErrJSONSelectorNotFound
| ErrExtractingFromJSONByReader
| ErrExtractingFromJSONBytes
| ErrExtractingJSONBodyValues
| ErrFailedToExtractValueFromJSON.

#[global] Instance sentinel_eq_dec : EqDecision sentinel.
Proof. solve_decision. Defined.

(** The values the package attaches to an error under a key. *)
Inductive kvalue : Type :=
| VInt (z : Z)
| VStr (s : string)
| VStrs (l : list string).

(** A Go [error].  [Foreign] is an error value of another package (io,
    jsontext, json); [Entry] and [Joined] are what the package's error
    helpers build. *)
#[warnings="-register-all"]
Inductive error : Type :=
| Sentinel (s : sentinel)
| Foreign (pkg msg : string)
| Entry (sentinels : list error) (kvs : list (string * kvalue)) (cause : option error)
| Joined (errs : list error).

(** One argument of a variadic [...any] error helper. *)
Inductive part : Type :=
| PErr (e : error)
| PVal (v : kvalue).

Module errors.

(** [errors.Is(e, target)] for a sentinel target: the error tree of [e]
    contains that very sentinel. *)
Fixpoint Is (e : error) (target : sentinel) : bool :=
  match e with
  | Sentinel s => bool_decide (s = target)
  | Foreign _ _ => false
  | Entry ss _ c =>
      existsb (fun x => Is x target) ss ||
      match c with
      | Some x => Is x target
      | None => false
      end
  | Joined es => existsb (fun x => Is x target) es
  end.

End errors.

(** The leading run of errors in an argument list. *)
Fixpoint leading_errors (ps : list part) : list error * list part :=
  match ps with
  | PErr e :: r => let (es, rest) := leading_errors r in (e :: es, rest)
  | _ => ([], ps)
  end.

(** Key/value pairs, then an optional trailing cause. *)
Fixpoint pairs_and_cause (ps : list part) : list (string * kvalue) * option error :=
  match ps with
  | PVal (VStr k) :: PVal v :: r =>
      let (kvs, c) := pairs_and_cause r in ((k, v) :: kvs, c)
  | PErr e :: [] => ([], Some e)
  | _ => ([], None)
  end.

(** Modelled from the spec: [NewErr], the package's error constructor
    (doterr.go), is not among the sources.  Section 4.5 and the design notes
    describe it: one or more error kinds, then key/value diagnostic pairs,
    then an optional wrapped cause, combined into one structured error on
    which every kind stays identifiable. *)
Definition NewErr (parts : list part) : error :=
  let (ss, rest) := leading_errors parts in
  let (kvs, c) := pairs_and_cause rest in
  Entry ss kvs c.

(** Modelled from the spec: [WithErr] (doterr.go) is not among the sources;
    with sentinels first, pairs next and the wrapped error last it builds
    the same structured error as [NewErr] around its cause. *)
Definition WithErr (parts : list part) : error := NewErr parts.

(** Modelled from the spec: [CombineErrs] (doterr.go) is not among the
    sources; section 4.4: it joins all individual errors so that each
    remains inspectable.  No error at all is [nil]. *)
Definition CombineErrs (errs : list error) : option error :=
  match errs with
  | [] => None
  | _ :: _ => Some (Joined errs)
  end.

(** The errors an aggregated error joins. *)
Definition joined_errors (e : error) : list error :=
  match e with
  | Joined es => es
  | _ => [e]
  end.

(** The value an error entry carries under [key]. *)
Definition kv_get (e : error) (key : string) : option kvalue :=
  match e with
  | Entry _ kvs _ => snd <$> List.find (fun kv => String.eqb (fst kv) key) kvs
  | _ => None
  end.

(** A value or an error. *)
Inductive result (A : Type) : Type :=
| Ok (a : A)
| Fail (e : error).
Arguments Ok {A} a.
Arguments Fail {A} e.

(** ** Package io *)

(** An [io.Reader]: the bytes it delivers and, when reading ends in an
    error rather than at the end of the data, that error.  [None] as a
    reader value is Go's [nil]. *)
Record Reader : Type := mkReader { data : string; fault : option error }.

Module gobytes.
(** [bytes.NewReader(b)] never fails. *)
Definition NewReader (b : string) : Reader := mkReader b None.
End gobytes.

(** ** Package encoding/json/jsontext *)

Module jsontext.

(** [Kind] is a byte: the first byte of a token, digits and the minus sign
    normalized to [0]. *)
Definition Kind : Type := ascii.
Definition invalidKind : Kind := "000"%char.

Definition normalize (k : Kind) : Kind :=
  if Ascii.eqb k "-"%char || is_digit k then "0"%char else k.

Inductive Token : Type :=
| TNull
| TFalse
| TTrue
| TString (s : string)
| TNumber (raw : string)
| BeginObject
| EndObject
| BeginArray
| EndArray.

Definition Token_Kind (t : Token) : Kind :=
  match t with
  | TNull => "n"%char
  | TFalse => "f"%char
  | TTrue => "t"%char
  | TString _ => dquote
  | TNumber _ => "0"%char
  | BeginObject => "{"%char
  | EndObject => "}"%char
  | BeginArray => "["%char
  | EndArray => "]"%char
  end.

(** [Token.String]: the unescaped value of a string token, the JSON text
    of any other token. *)
Definition Token_String (t : Token) : string :=
  match t with
  | TNull => "null"
  | TFalse => "false"
  | TTrue => "true"
  | TString s => s
  | TNumber raw => raw
  | BeginObject => "{"
  | EndObject => "}"
  | BeginArray => "["
  | EndArray => "]"
  end.

(** [Kind.String]; the rendering of an invalid kind leaves out the quoted
    byte. *)
Definition Kind_String (k : Kind) : string :=
  if Ascii.eqb k "n"%char then "null"
  else if Ascii.eqb k "f"%char then "false"
  else if Ascii.eqb k "t"%char then "true"
  else if Ascii.eqb k dquote then "string"
  else if Ascii.eqb k "0"%char then "number"
  else if Ascii.eqb k "{"%char then "{"
  else if Ascii.eqb k "}"%char then "}"
  else if Ascii.eqb k "["%char then "["
  else if Ascii.eqb k "]"%char then "]"
  else "<invalid jsontext.Kind>".

(** *** Lexical grammar *)

Definition is_space (c : ascii) : bool :=
  let n := byte_val c in (n =? 32) || (n =? 9) || (n =? 10) || (n =? 13).

Fixpoint skip_space (l : list ascii) : list ascii :=
  match l with
  | c :: r => if is_space c then skip_space r else l
  | [] => []
  end.

Definition hex_val (c : ascii) : option Z :=
  let n := byte_val c in
  if (48 <=? n) && (n <=? 57) then Some (n - 48)
  else if (65 <=? n) && (n <=? 70) then Some (n - 55)
  else if (97 <=? n) && (n <=? 102) then Some (n - 87)
  else None.

(** The four hexadecimal digits of a [\u] escape. *)
Definition hex4 (l : list ascii) : option (Z * list ascii) :=
  match l with
  | a :: b :: c :: d :: r =>
      match hex_val a, hex_val b, hex_val c, hex_val d with
      | Some x, Some y, Some z, Some w => Some (((x * 16 + y) * 16 + z) * 16 + w, r)
      | _, _, _, _ => None
      end
  | _ => None
  end.

Definition byte_of (n : Z) : ascii := ascii_of_nat (Z.to_nat n).

(** UTF-8 encoding of a code point. *)
Definition utf8 (cp : Z) : list ascii :=
  if cp <? 128 then [byte_of cp]
  else if cp <? 2048 then [byte_of (192 + cp / 64); byte_of (128 + cp mod 64)]
  else if cp <? 65536 then
    [byte_of (224 + cp / 4096); byte_of (128 + (cp / 64) mod 64); byte_of (128 + cp mod 64)]
  else
    [byte_of (240 + cp / 262144); byte_of (128 + (cp / 4096) mod 64);
     byte_of (128 + (cp / 64) mod 64); byte_of (128 + cp mod 64)].

Definition is_cont (c : ascii) : bool :=
  (128 <=? byte_val c) && (byte_val c <=? 191).

(** Length of the well-formed UTF-8 sequence at the head of [l], a
    non-ASCII byte; [None] for invalid UTF-8, which the decoder rejects. *)
Definition utf8_len (l : list ascii) : option nat :=
  match l with
  | a :: r =>
      let n := byte_val a in
      if (194 <=? n) && (n <=? 223) then
        match r with
        | b :: _ => if is_cont b then Some 2%nat else None
        | _ => None
        end
      else if (224 <=? n) && (n <=? 239) then
        match r with
        | b :: c :: _ =>
            if is_cont b && is_cont c
               && negb ((n =? 224) && (byte_val b <? 160))
               && negb ((n =? 237) && (159 <? byte_val b))
            then Some 3%nat else None
        | _ => None
        end
      else if (240 <=? n) && (n <=? 244) then
        match r with
        | b :: c :: d :: _ =>
            if is_cont b && is_cont c && is_cont d
               && negb ((n =? 240) && (byte_val b <? 144))
               && negb ((n =? 244) && (143 <? byte_val b))
            then Some 4%nat else None
        | _ => None
        end
      else None
  | [] => None
  end.

(** What follows a backslash: the bytes the escape stands for and the
    number of input bytes it takes.  A surrogate that is not part of a
    pair is rejected. *)
Definition lex_escape (l : list ascii) : option (list ascii * nat) :=
  match l with
  | [] => None
  | e :: r =>
      if Ascii.eqb e dquote then Some ([dquote], 1%nat)
      else if Ascii.eqb e "\"%char then Some (["\"%char], 1%nat)
      else if Ascii.eqb e "/"%char then Some (["/"%char], 1%nat)
      else if Ascii.eqb e "b"%char then Some ([byte_of 8], 1%nat)
      else if Ascii.eqb e "f"%char then Some ([byte_of 12], 1%nat)
      else if Ascii.eqb e "n"%char then Some ([byte_of 10], 1%nat)
      else if Ascii.eqb e "r"%char then Some ([byte_of 13], 1%nat)
      else if Ascii.eqb e "t"%char then Some ([byte_of 9], 1%nat)
      else if Ascii.eqb e "u"%char then
        match hex4 r with
        | Some (cp, r1) =>
            if (55296 <=? cp) && (cp <=? 56319) then
              match r1 with
              | b :: u :: r2 =>
                  match hex4 r2 with
                  | Some (lo, _) =>
                      if Ascii.eqb b "\"%char && Ascii.eqb u "u"%char
                         && (56320 <=? lo) && (lo <=? 57343)
                      then Some (utf8 (65536 + (cp - 55296) * 1024 + (lo - 56320)), 11%nat)
                      else None
                  | None => None
                  end
              | _ => None
              end
            else if (56320 <=? cp) && (cp <=? 57343) then None
            else Some (utf8 cp, 5%nat)
        | None => None
        end
      else None
  end.

(** The body of a string literal after its opening quote: the unescaped
    value and the input after the closing quote.  [skip] counts the bytes
    of an escape already decoded, [copy] the continuation bytes of a
    checked UTF-8 sequence. *)
Fixpoint lex_string (skip copy : nat) (l : list ascii) : option (list ascii * list ascii) :=
  let cons_to (bs : list ascii) (o : option (list ascii * list ascii)) :=
    match o with
    | Some (v, rest) => Some ((bs ++ v)%list, rest)
    | None => None
    end in
  match l with
  | [] => None
  | c :: r =>
      match skip, copy with
      | S k, _ => lex_string k copy r
      | O, S k => cons_to [c] (lex_string O k r)
      | O, O =>
          if Ascii.eqb c dquote then Some ([], r)
          else if Ascii.eqb c "\"%char then
            match lex_escape r with
            | Some (bs, n) => cons_to bs (lex_string n O r)
            | None => None
            end
          else if byte_val c <? 32 then None
          else if byte_val c <? 128 then cons_to [c] (lex_string O O r)
          else
            match utf8_len l with
            | Some n => cons_to [c] (lex_string O (Nat.pred n) r)
            | None => None
            end
      end
  end.

Fixpoint span_digits (l : list ascii) : list ascii * list ascii :=
  match l with
  | c :: r => if is_digit c then let (a, b) := span_digits r in (c :: a, b) else ([], l)
  | [] => ([], [])
  end.

(** The parts of a number literal: an optional minus sign; a zero, or a
    non-zero digit and further digits; optionally a dot and digits;
    optionally an exponent mark, a sign and digits. *)
Definition lex_sign (l : list ascii) : list ascii * list ascii :=
  match l with
  | c :: r => if Ascii.eqb c "-"%char then ([c], r) else ([], l)
  | [] => ([], l)
  end.

Definition lex_int (l : list ascii) : option (list ascii * list ascii) :=
  match l with
  | c :: r =>
      if Ascii.eqb c "0"%char then Some ([c], r)
      else if is_digit c then Some (span_digits l)
      else None
  | [] => None
  end.

Definition lex_frac (l : list ascii) : option (list ascii * list ascii) :=
  match l with
  | c :: r =>
      if Ascii.eqb c "."%char then
        match span_digits r with
        | ([], _) => None
        | (ds, r') => Some (c :: ds, r')
        end
      else Some ([], l)
  | [] => Some ([], l)
  end.

Definition lex_exp (l : list ascii) : option (list ascii * list ascii) :=
  match l with
  | c :: r =>
      if Ascii.eqb c "e"%char || Ascii.eqb c "E"%char then
        let (sg, r1) :=
          match r with
          | d :: r' =>
              if Ascii.eqb d "-"%char || Ascii.eqb d "+"%char
              then ([d], r') else ([], r)
          | [] => ([], r)
          end in
        match span_digits r1 with
        | ([], _) => None
        | (ds, r2) => Some ((c :: sg ++ ds)%list, r2)
        end
      else Some ([], l)
  | [] => Some ([], l)
  end.

(** A number literal and the input after it. *)
Definition lex_number (l : list ascii) : option (list ascii * list ascii) :=
  let (sign, l1) := lex_sign l in
  match lex_int l1 with
  | None => None
  | Some (ip, l2) =>
      match lex_frac l2 with
      | None => None
      | Some (fp, l3) =>
          match lex_exp l3 with
          | None => None
          | Some (ep, l4) => Some ((sign ++ ip ++ fp ++ ep)%list, l4)
          end
      end
  end.

(** The token that starts at the head of [l]. *)
Definition lex_token (l : list ascii) : option (Token * list ascii) :=
  match l with
  | [] => None
  | c :: r =>
      if Ascii.eqb c "{"%char then Some (BeginObject, r)
      else if Ascii.eqb c "}"%char then Some (EndObject, r)
      else if Ascii.eqb c "["%char then Some (BeginArray, r)
      else if Ascii.eqb c "]"%char then Some (EndArray, r)
      else if Ascii.eqb c dquote then
        match lex_string O O r with
        | Some (v, rest) => Some (TString (string_of v), rest)
        | None => None
        end
      else if Ascii.eqb c "n"%char then
        if gostrings.has_prefix (bytes_of "null") l then Some (TNull, drop 4 l) else None
      else if Ascii.eqb c "t"%char then
        if gostrings.has_prefix (bytes_of "true") l then Some (TTrue, drop 4 l) else None
      else if Ascii.eqb c "f"%char then
        if gostrings.has_prefix (bytes_of "false") l then Some (TFalse, drop 5 l) else None
      else if Ascii.eqb (normalize c) "0"%char then
        match lex_number l with
        | Some (raw, rest) => Some (TNumber (string_of raw), rest)
        | None => None
        end
      else None
  end.

(** *** Structure of the token sequence *)

(** An open container: the number of tokens read inside it and, for an
    object, the member names seen. *)
Inductive frame : Type :=
| ArrayFrame (count : nat)
| ObjectFrame (count : nat) (names : list string).

Definition is_closer (k : Kind) : bool :=
  Ascii.eqb k "}"%char || Ascii.eqb k "]"%char.

(** The delimiter that has to precede a token of kind [next]: a colon
    before a member value, a comma before a further element or member,
    none at the top level or before a closing token. *)
Definition needDelim (stack : list frame) (next : Kind) : option ascii :=
  match stack with
  | [] => None
  | ObjectFrame n _ :: _ =>
      if Nat.odd n then Some ":"%char
      else if negb (Nat.eqb n 0) && negb (is_closer next) then Some ","%char
      else None
  | ArrayFrame n :: _ =>
      if negb (Nat.eqb n 0) && negb (is_closer next) then Some ","%char
      else None
  end.

(** A name or value enters the innermost container.  A member name has to
    be a string the object does not have yet. *)
Definition enter (t : Token) (stack : list frame) : option (list frame) :=
  match stack with
  | [] => Some []
  | ArrayFrame n :: st => Some (ArrayFrame (S n) :: st)
  | ObjectFrame n names :: st =>
      if Nat.even n then
        match t with
        | TString s =>
            if bool_decide (s ∈ names) then None
            else Some (ObjectFrame (S n) (s :: names) :: st)
        | _ => None
        end
      else Some (ObjectFrame (S n) names :: st)
  end.

(** The container stack after token [t]; [None] when the grammar does not
    allow [t] here. *)
Definition advance (t : Token) (stack : list frame) : option (list frame) :=
  match t with
  | BeginObject => (fun st => ObjectFrame O [] :: st) <$> enter t stack
  | BeginArray => (fun st => ArrayFrame O :: st) <$> enter t stack
  | EndObject =>
      match stack with
      | ObjectFrame n _ :: st => if Nat.even n then Some st else None
      | _ => None
      end
  | EndArray =>
      match stack with
      | ArrayFrame _ :: st => Some st
      | _ => None
      end
  | _ => enter t stack
  end.

(** How a token sequence ends: at the end of the input after complete
    top-level values, inside an unfinished value, at a byte where the
    next token would break the grammar ([peek] is what [PeekKind] reports
    there), or at a read error of the underlying reader. *)
Inductive Tail : Type :=
| AtEOF
| Truncated
| Malformed (peek : Kind)
| ReadFault (e : error).

(** The tokens the decoder delivers for an input, up to the first
    violation of the grammar. *)
Fixpoint scan (fuel : nat) (l : list ascii) (stack : list frame) : list Token * Tail :=
  match fuel with
  | O => ([], Truncated)
  | S f =>
      match skip_space l with
      | [] => ([], match stack with [] => AtEOF | _ :: _ => Truncated end)
      | c :: r =>
          let (delim, l1) :=
            if Ascii.eqb c ":"%char || Ascii.eqb c ","%char
            then (Some c, skip_space r) else (None, c :: r) in
          match l1 with
          | [] => ([], Truncated)
          | c1 :: _ =>
              let next := normalize c1 in
              if bool_decide (needDelim stack next = delim) then
                match lex_token l1 with
                | Some (t, l2) =>
                    match advance t stack with
                    | Some st => let (ts, tl) := scan f l2 st in (t :: ts, tl)
                    | None => ([], Malformed next)
                    end
                | None => ([], Malformed next)
                end
              else ([], Malformed invalidKind)
          end
      end
  end.

(** *** The decoder *)

(** A decoder is a forward-only cursor: the tokens still to be delivered
    and how they end. *)
Record Decoder : Type := mkDecoder { pending : list Token; tail : Tail }.

(** [jsontext.NewDecoder(r)]. *)
Definition NewDecoder (r : Reader) : Decoder :=
  let l := bytes_of (data r) in
  let (ts, tl) := scan (S (length l)) l [] in
  mkDecoder ts
    match fault r, tl with
    | Some e, AtEOF => ReadFault e
    | Some e, Truncated => ReadFault e
    | _, _ => tl
    end.

Definition tail_error (tl : Tail) : error :=
  match tl with
  | AtEOF => Foreign "io" "EOF"
  | Truncated => Foreign "io" "unexpected EOF"
  | Malformed _ => Foreign "jsontext" "syntactic error"
  | ReadFault e => e
  end.

(** [Decoder.PeekKind]: the kind of the next token, without consuming
    it; an invalid kind when there is none. *)
Definition PeekKind (d : Decoder) : Kind :=
  match pending d with
  | t :: _ => Token_Kind t
  | [] => match tail d with
          | Malformed k => k
          | _ => invalidKind
          end
  end.

(** [Decoder.ReadToken]. *)
Definition ReadToken (d : Decoder) : Decoder * result Token :=
  match pending d with
  | t :: r => (mkDecoder r (tail d), Ok t)
  | [] => (d, Fail (tail_error (tail d)))
  end.

Definition opens (t : Token) : bool :=
  match t with
  | BeginObject | BeginArray => true
  | _ => false
  end.

Definition closes (t : Token) : bool :=
  match t with
  | EndObject | EndArray => true
  | _ => false
  end.

(** The tokens after the value that starts at the head of the list;
    [depth] is the number of containers of that value still open. *)
Fixpoint skip_tokens (depth : nat) (ts : list Token) : option (list Token) :=
  match ts with
  | [] => None
  | t :: r =>
      if opens t then skip_tokens (S depth) r
      else if closes t then
        match depth with
        | O => None
        | S O => Some r
        | S k => skip_tokens k r
        end
      else
        match depth with
        | O => Some r
        | S _ => skip_tokens depth r
        end
  end.

(** [Decoder.SkipValue]: passes over the next value, whatever its size.
    At an end token or where no complete value follows it reports an
    error and leaves the cursor where it is. *)
Definition SkipValue (d : Decoder) : Decoder * option error :=
  match skip_tokens O (pending d) with
  | Some r => (mkDecoder r (tail d), None)
  | None =>
      (d, Some match pending d with
               | t :: _ =>
                   if closes t then Foreign "jsontext" "syntactic error"
                   else tail_error (tail d)
               | [] => tail_error (tail d)
               end)
  end.

End jsontext.

(** ** Decoded values *)

(** What [any] holds after decoding JSON into it: [nil], [bool],
    [float64], [string], [[]any] or [map[string]any]. *)
#[warnings="-register-all"]
Inductive any : Type :=
| ANil
| ABool (b : bool)
| AFloat64 (f : strconv.float64)
| AString (s : string)
| ASlice (l : list any)
| AMap (m : gmap string any).

(** ** Package encoding/json/v2 *)

Module jsonv2.
Import jsontext.

(** Decoding of the value at the head of a token list into [any]: every
    number becomes a float64, an object a map filled in document order.
    [fuel] bounds the depth of the calls. *)
Fixpoint decode_value (fuel : nat) (ts : list Token) : option (any * list Token) :=
  match fuel with
  | O => None
  | S f =>
      match ts with
      | TNull :: r => Some (ANil, r)
      | TFalse :: r => Some (ABool false, r)
      | TTrue :: r => Some (ABool true, r)
      | TString s :: r => Some (AString s, r)
      | TNumber raw :: r =>
          match strconv.ParseFloat raw with
          | Some x => Some (AFloat64 x, r)
          | None => None
          end
      | BeginArray :: r =>
          match decode_elements f r with
          | Some (l, r') => Some (ASlice l, r')
          | None => None
          end
      | BeginObject :: r =>
          match decode_members f ∅ r with
          | Some (m, r') => Some (AMap m, r')
          | None => None
          end
      | _ => None
      end
  end
with decode_elements (fuel : nat) (ts : list Token) : option (list any * list Token) :=
  match fuel with
  | O => None
  | S f =>
      match ts with
      | EndArray :: r => Some ([], r)
      | _ =>
          match decode_value f ts with
          | Some (v, r) =>
              match decode_elements f r with
              | Some (l, r') => Some (v :: l, r')
              | None => None
              end
          | None => None
          end
      end
  end
with decode_members (fuel : nat) (m : gmap string any) (ts : list Token)
    : option (gmap string any * list Token) :=
  match fuel with
  | O => None
  | S f =>
      match ts with
      | EndObject :: r => Some (m, r)
      | TString k :: r =>
          match decode_value f r with
          | Some (v, r') => decode_members f (<[k := v]> m) r'
          | None => None
          end
      | _ => None
      end
  end.

(** [json.UnmarshalDecode(dec, &value)] for a [value] of type [any]: reads
    the next value off the decoder.  On failure [value] stays [nil]. *)
Definition UnmarshalDecode (d : Decoder) : Decoder * any * option error :=
  match decode_value (S (length (pending d))) (pending d) with
  | Some (v, r) => (mkDecoder r (tail d), v, None)
  | None =>
      (d, ANil,
       Some match skip_tokens O (pending d) with
            | Some _ => Foreign "json" "cannot unmarshal"
            | None => tail_error (tail d)
            end)
  end.

End jsonv2.

(** ** Package jsonxtractr *)

(** The selector types and their conversions. *)
Definition Selector : Type := string.
Definition Selectors : Type := list Selector.

Definition Selectors_Strings (ss : Selectors) : list string := map (fun s : Selector => s) ss.

Definition ToSelectors (ss : list string) : list Selector := map (fun s : string => s) ss.

(** extract_state.go; [position] indexes [segments]. *)
Record extractState : Type := mkState {
  decoder : jsontext.Decoder;
  selector : string;
  segments : list string;
  pathProgress : list string;
  position : nat;
  rawBytes : string
}.

Definition with_decoder (s : extractState) (d : jsontext.Decoder) : extractState :=
  mkState d (selector s) (segments s) (pathProgress s) (position s) (rawBytes s).

Definition with_position (s : extractState) (i : nat) : extractState :=
  mkState (decoder s) (selector s) (segments s) (pathProgress s) i (rawBytes s).

Definition with_pathProgress (s : extractState) (p : list string) : extractState :=
  mkState (decoder s) (selector s) (segments s) p (position s) (rawBytes s).

Definition newExtractState (decoder : jsontext.Decoder) (selector : string) (rawBytes : string)
    : extractState :=
  mkState decoder selector (gostrings.Split selector "."%char) [] O rawBytes.

Definition byte_string (n : nat) : string := String (ascii_of_nat n) EmptyString.

Definition len (s : string) : Z := Z.of_nat (String.length s).

(** truncateAtJSONBoundary truncates at logical JSON structure points. *)
Definition truncateAtJSONBoundary (jsonStr : string) (maxLen : Z) : string :=
  if len jsonStr <=? maxLen then jsonStr
  else
    let truncated := gostrings.slice_to jsonStr (maxLen - 10) in
    let lastComma := gostrings.LastIndex truncated ","%char in
    let lastBrace := gostrings.LastIndex truncated "}"%char in
    let lastBracket := gostrings.LastIndex truncated "]"%char in
    let cutPoint := lastComma in
    let cutPoint := if cutPoint <? lastBrace then lastBrace + 1 else cutPoint in
    let cutPoint := if cutPoint <? lastBracket then lastBracket + 1 else cutPoint in
    if 50 <? cutPoint
    then (gostrings.slice_to jsonStr cutPoint ++ "...[more]")%string
    else (gostrings.slice_to jsonStr (maxLen - 10) ++ "...[more]")%string.

(** The loop of condensedJSON that collapses runs of spaces; every round
    shortens the string, so its length bounds the number of rounds. *)
Fixpoint collapse_spaces (rounds : nat) (formatted : string) : string :=
  match rounds with
  | O => formatted
  | S k =>
      if gostrings.Contains formatted "  "
      then collapse_spaces k (gostrings.ReplaceAll formatted "  " " ")
      else formatted
  end.

(** condensedJSON renders the document for error context. *)
Definition condensedJSON (s : extractState) : string :=
  if len (rawBytes s) =? 0 then "JSON not available"
  else
    let jsonStr := rawBytes s in
    if len jsonStr <=? 100 then jsonStr
    else
      let formatted := gostrings.ReplaceAll jsonStr (byte_string 10) " " in
      let formatted := gostrings.ReplaceAll formatted (byte_string 9) " " in
      let formatted := collapse_spaces (String.length formatted) formatted in
      if 200 <? len formatted then truncateAtJSONBoundary formatted 200
      else formatted.

Definition sent (x : sentinel) : part := PErr (Sentinel x).
Definition str (x : string) : part := PVal (VStr x).
Definition int (x : Z) : part := PVal (VInt x).
Definition strs (x : list string) : part := PVal (VStrs x).

Definition is_error (p : part) : bool :=
  match p with
  | PErr _ => true
  | PVal _ => false
  end.

(** The loop of enrichError that counts the sentinels at the front. *)
Fixpoint count_sentinels (parts : list part) : nat :=
  match parts with
  | p :: r => if is_error p then S (count_sentinels r) else O
  | [] => O
  end.

(** enrichError puts the state's context between the sentinels and the
    remaining parts. *)
Definition enrichError (s : extractState) (parts : list part) : error :=
  let sentinelCount := count_sentinels parts in
  let allParts := take sentinelCount parts in
  let allParts := (allParts ++ [str "json_path"; str (selector s)])%list in
  let allParts :=
    match segments s !! position s with
    | Some seg =>
        (allParts ++ [str "segment"; str seg;
                      str "segment_position"; int (Z.of_nat (position s))])%list
    | None => allParts
    end in
  let allParts :=
    match pathProgress s with
    | _ :: _ => (allParts ++ [str "path_progress"; strs (pathProgress s)])%list
    | [] => allParts
    end in
  let allParts := (allParts ++ [str "condensed_json"; str (condensedJSON s)])%list in
  let allParts := (allParts ++ drop sentinelCount parts)%list in
  NewErr allParts.

Definition kind_is (k : jsontext.Kind) (c : ascii) : bool := Ascii.eqb k c.

(** The loop of navigateArrayIndex: [todo] rounds are left until
    [currentIdx] reaches [targetIdx]. *)
Fixpoint skipElements (todo : nat) (s : extractState) (targetIdx currentIdx : Z)
    : extractState * option error * Z :=
  match todo with
  | O => (s, None, currentIdx)
  | S k =>
      if kind_is (jsontext.PeekKind (decoder s)) "]"%char then
        (s, Some (enrichError s
                    [sent ErrJSONPathTraversalFailed; sent ErrJSONIndexOutOfRange;
                     str "target_index"; int targetIdx;
                     str "array_length"; int currentIdx]), currentIdx)
      else
        let (d, err) := jsontext.SkipValue (decoder s) in
        let s := with_decoder s d in
        match err with
        | Some e =>
            (s, Some (enrichError s
                        [sent ErrJSONPathTraversalFailed; sent ErrJSONTokenReadFailed;
                         str "skip_index"; int currentIdx; PErr e]), currentIdx)
        | None => skipElements k s targetIdx (currentIdx + 1)
        end
  end.

(** navigateArrayIndex handles array index navigation. *)
Definition navigateArrayIndex (s : extractState) (targetIdx : Z) : extractState * option error :=
  let kind := jsontext.PeekKind (decoder s) in
  if targetIdx <? 0 then
    (s, Some (enrichError s
                [sent ErrJSONPathTraversalFailed; sent ErrJSONIndexOutOfRange;
                 str "target_index"; int targetIdx]))
  else if negb (kind_is kind "["%char) then
    (s, Some (enrichError s
                [sent ErrJSONPathTraversalFailed; sent ErrJSONPathExpectedArrayAtSegment;
                 str "expected_type"; str "array";
                 str "actual_type"; str (jsontext.Kind_String kind)]))
  else
    let (d, tok) := jsontext.ReadToken (decoder s) in
    let s := with_decoder s d in
    match tok with
    | Fail e =>
        (s, Some (enrichError s
                    [sent ErrJSONPathTraversalFailed; sent ErrJSONTokenReadFailed;
                     str "expected_token"; str "array_start"; PErr e]))
    | Ok _ =>
        let '(s, err, currentIdx) := skipElements (Z.to_nat targetIdx) s targetIdx 0 in
        match err with
        | Some e => (s, Some e)
        | None =>
            if kind_is (jsontext.PeekKind (decoder s)) "]"%char then
              (s, Some (enrichError s
                          [sent ErrJSONPathTraversalFailed; sent ErrJSONIndexOutOfRange;
                           str "target_index"; int targetIdx;
                           str "array_length"; int currentIdx]))
            else (s, None)
        end
    end.

(** The quote removal of navigateObjectKey: a key of at least two bytes
    whose first and last byte are double quotes loses both. *)
Definition unquote_key (key : string) : string :=
  match bytes_of key with
  | a :: b :: r =>
      if Ascii.eqb a dquote && Ascii.eqb (List.last (b :: r) a) dquote
      then string_of (removelast (b :: r))
      else key
  | _ => key
  end.

(** The search loop of navigateObjectKey.  Every round reads a token, so
    [fuel] above the number of pending tokens is never used up; [None]
    stands for that case. *)
Fixpoint searchKey (fuel : nat) (s : extractState) (targetKey : string)
    (availableKeys : list string) : option (extractState * option error) :=
  match fuel with
  | O => None
  | S k =>
      if negb (kind_is (jsontext.PeekKind (decoder s)) "}"%char) then
        let (d, tok) := jsontext.ReadToken (decoder s) in
        let s := with_decoder s d in
        match tok with
        | Fail e =>
            Some (s, Some (enrichError s
                             [sent ErrJSONPathTraversalFailed; sent ErrJSONTokenReadFailed;
                              str "reading"; str "object_key"; PErr e]))
        | Ok keyToken =>
            let key := unquote_key (jsontext.Token_String keyToken) in
            let availableKeys := (availableKeys ++ [key])%list in
            if String.eqb key targetKey then Some (s, None)
            else
              let (d, err) := jsontext.SkipValue (decoder s) in
              let s := with_decoder s d in
              match err with
              | Some e =>
                  Some (s, Some (enrichError s
                                   [sent ErrJSONPathTraversalFailed; sent ErrJSONTokenReadFailed;
                                    str "skipping_key"; str key; PErr e]))
              | None => searchKey k s targetKey availableKeys
              end
        end
      else
        Some (s, Some (enrichError s
                         [sent ErrJSONPathTraversalFailed; sent ErrJSONPathSegmentNotFound;
                          str "missing_key"; str targetKey;
                          str "available_keys"; strs availableKeys]))
  end.

(** navigateObjectKey handles object key navigation. *)
Definition navigateObjectKey (s : extractState) (targetKey : string) : extractState * option error :=
  let kind := jsontext.PeekKind (decoder s) in
  if negb (kind_is kind "{"%char) then
    (s, Some (enrichError s
                [sent ErrJSONPathTraversalFailed; sent ErrJSONPathExpectedObjectAtSegment;
                 str "expected_type"; str "object";
                 str "actual_type"; str (jsontext.Kind_String kind)]))
  else
    let (d, tok) := jsontext.ReadToken (decoder s) in
    let s := with_decoder s d in
    match tok with
    | Fail e =>
        (s, Some (enrichError s
                    [sent ErrJSONPathTraversalFailed; sent ErrJSONTokenReadFailed;
                     str "expected_token"; str "object_start"; PErr e]))
    | Ok _ =>
        match searchKey (S (length (jsontext.pending (decoder s)))) s targetKey [] with
        | Some r => r
        | None => (s, Some (Foreign "jsontext" "no progress"))
        end
    end.

(** navigateToSegment handles navigation to a specific segment in the JSON
    path. *)
Definition navigateToSegment (s : extractState) (segment : string) : extractState * option error :=
  match strconv.Atoi segment with
  | Some idx => navigateArrayIndex s idx
  | None => navigateObjectKey s segment
  end.

(** value_extractor.go *)

(** The loop of extractSingleValue over [state.segments]; [i] is the index
    of the first segment of [segs]. *)
Fixpoint navigateSegments (s : extractState) (i : nat) (segs : list string)
    : extractState * option error :=
  match segs with
  | [] => (s, None)
  | segment :: rest =>
      let s := with_position s i in
      if String.eqb segment EmptyString then
        (s, Some (enrichError s
                    [sent ErrJSONPathTraversalFailed; sent ErrJSONPathContainsEmptySegment]))
      else
        let (s, err) := navigateToSegment s segment in
        match err with
        | Some e => (s, Some e)
        | None => navigateSegments (with_pathProgress s (pathProgress s ++ [segment])) (S i) rest
        end
  end.

(** extractSingleValue handles extraction of a single selector from JSON. *)
Definition extractSingleValue (reader : Reader) (selector : Selector) (rawBytes : string)
    : any * option error :=
  if len selector =? 0 then
    (ANil, Some (NewErr [sent ErrJSONPathTraversalFailed; sent ErrJSONValueSelectorCannotBeEmpty]))
  else
    let dec := jsontext.NewDecoder reader in
    let state := newExtractState dec selector rawBytes in
    let (state, err) := navigateSegments state O (segments state) in
    match err with
    | Some e => (ANil, Some e)
    | None =>
        let '(d, value, err) := jsonv2.UnmarshalDecode (decoder state) in
        let state := with_decoder state d in
        match err with
        | Some e =>
            (value, Some (enrichError state
                            [sent ErrJSONStreamingParseFailed; sent ErrJSONUnmarshalFailed;
                             PErr e]))
        | None => (value, None)
        end
    end.

(** readAllBytes reads all bytes from a reader. *)
Definition readAllBytes (reader : Reader) : string * option error :=
  (data reader, fault reader).

(** The loop of ExtractValuesFromReader that processes each selector with
    a fresh reader over the buffered bytes. *)
Fixpoint extractEach (rawBytes : string) (selectors : list Selector)
    (valuesMap : gmap Selector any) (errs : list error) : gmap Selector any * list error :=
  match selectors with
  | [] => (valuesMap, errs)
  | selector :: rest =>
      let selectorReader := gobytes.NewReader rawBytes in
      let (value, selectorErr) := extractSingleValue selectorReader selector rawBytes in
      match selectorErr with
      | Some e => extractEach rawBytes rest valuesMap (errs ++ [e])
      | None => extractEach rawBytes rest (<[selector := value]> valuesMap) errs
      end
  end.

(** The loop of ExtractValuesFromReader that lists the selectors without
    an entry in the map. *)
Fixpoint collectNotFound (valuesMap : gmap Selector any) (selectors : list Selector)
    (notFound : list Selector) : list Selector :=
  match selectors with
  | [] => notFound
  | s :: rest =>
      match valuesMap !! s with
      | Some _ => collectNotFound valuesMap rest notFound
      | None => collectNotFound valuesMap rest (notFound ++ [s])
      end
  end.

(** ExtractValuesFromReader processes multiple selectors; a [nil] map or
    slice is the empty one. *)
Definition ExtractValuesFromReader (reader : option Reader) (selectors : list Selector)
    : gmap Selector any * list Selector * option error :=
  match reader with
  | None =>
      (∅, [], Some (NewErr [sent ErrJSONPathTraversalFailed; sent ErrJSONBodyCannotBeEmpty;
                            str "selectors"; strs selectors]))
  | Some reader =>
      if Nat.eqb (length selectors) 0 then
        (∅, [], Some (NewErr [sent ErrJSONPathTraversalFailed;
                              sent ErrJSONValueSelectorCannotBeEmpty]))
      else
        let (rawBytes, err) := readAllBytes reader in
        match err with
        | Some e =>
            (∅, [], Some (NewErr [sent ErrJSONStreamingParseFailed; sent ErrJSONReadFailed;
                                  PErr e]))
        | None =>
            let (valuesMap, errs) := extractEach rawBytes selectors ∅ [] in
            let err :=
              if Nat.ltb 0 (length errs) then CombineErrs errs else None in
            let notFound := collectNotFound valuesMap selectors [] in
            (valuesMap, notFound, err)
        end
  end.

(** ExtractValuesFromBytes is a convenience wrapper for
    ExtractValuesFromReader. *)
Definition ExtractValuesFromBytes (jsonBytes : string) (selectors : list Selector)
    : gmap Selector any * list Selector * option error :=
  if len jsonBytes =? 0 then
    (∅, [], Some (NewErr [sent ErrJSONPathTraversalFailed; sent ErrJSONBodyCannotBeEmpty;
                          str "selectors"; strs selectors]))
  else ExtractValuesFromReader (Some (gobytes.NewReader jsonBytes)) selectors.

(** The part of the single-value wrappers after the batch call; [via] is
    ErrExtractingFromJSONByReader or ErrExtractingFromJSONBytes. *)
Definition singleResult (via : sentinel) (selector : Selector)
    (batch : gmap Selector any * list Selector * option error) : any * option error :=
  let '(valuesMap, notFound, err) := batch in
  match err with
  | Some e =>
      (ANil, Some (WithErr [sent ErrFailedToExtractValueFromJSON; sent via;
                            str "selector"; str selector; PErr e]))
  | None =>
      if Nat.ltb 0 (length notFound) then
        (ANil, Some (NewErr [sent ErrJSONSelectorNotFound; sent via;
                             str "selector"; str selector]))
      else
        match valuesMap !! selector with
        | Some value => (value, None)
        | None =>
            (ANil, Some (NewErr [sent ErrJSONSelectorNotFound; sent via;
                                 str "selector"; str selector]))
        end
  end.

(** ExtractValueFromReader extracts a single value from JSON. *)
Definition ExtractValueFromReader (reader : option Reader) (selector : Selector)
    : any * option error :=
  singleResult ErrExtractingFromJSONByReader selector
    (ExtractValuesFromReader reader [selector]).

(** ExtractValueFromBytes extracts a single value from JSON bytes. *)
Definition ExtractValueFromBytes (jsonBytes : string) (selector : Selector)
    : any * option error :=
  singleResult ErrExtractingFromJSONBytes selector
    (ExtractValuesFromBytes jsonBytes [selector]).

(** ** JSON documents *)

(** The value a JSON text denotes: numbers keep their literal, objects their
    members in document order. *)
#[warnings="-register-all"]
Inductive json : Type :=
| JNull
| JBool (b : bool)
| JNumber (raw : string)
| JString (s : string)
| JArray (elems : list json)
| JObject (members : list (string * json)).

Section json_induction.
Variable P : json -> Prop.
Hypothesis Hnull : P JNull.
Hypothesis Hbool : forall b, P (JBool b).
Hypothesis Hnumber : forall raw, P (JNumber raw).
Hypothesis Hstring : forall s, P (JString s).
Hypothesis Harray : forall elems, Forall P elems -> P (JArray elems).
Hypothesis Hobject : forall members, Forall (fun kv => P (snd kv)) members -> P (JObject members).

Fixpoint json_nested_ind (v : json) : P v :=
  match v with
  | JNull => Hnull
  | JBool b => Hbool b
  | JNumber raw => Hnumber raw
  | JString s => Hstring s
  | JArray elems =>
      Harray elems
        (list_ind (Forall P) (List.Forall_nil P)
           (fun x l IH => @List.Forall_cons _ P x l (json_nested_ind x) IH) elems)
  | JObject members =>
      Hobject members
        (list_ind (Forall (fun kv => P (snd kv))) (List.Forall_nil _)
           (fun kv l IH => @List.Forall_cons _ (fun kv => P (snd kv)) kv l (json_nested_ind (snd kv)) IH) members)
  end.
End json_induction.

(** The tokens a decoder delivers for the text of a value. *)
Fixpoint tokens_of (v : json) : list jsontext.Token :=
  match v with
  | JNull => [jsontext.TNull]
  | JBool true => [jsontext.TTrue]
  | JBool false => [jsontext.TFalse]
  | JNumber raw => [jsontext.TNumber raw]
  | JString s => [jsontext.TString s]
  | JArray elems =>
      jsontext.BeginArray :: flat_map tokens_of elems ++ [jsontext.EndArray]
  | JObject members =>
      jsontext.BeginObject
        :: flat_map (fun kv => jsontext.TString (fst kv) :: tokens_of (snd kv)) members
        ++ [jsontext.EndObject]
  end.

Definition member_tokens (kv : string * json) : list jsontext.Token :=
  jsontext.TString (fst kv) :: tokens_of (snd kv).

(** Element-wise conversion that fails when one element does. *)
Definition all_elems {A B : Type} (f : A -> option B) : list A -> option (list B) :=
  fix go (l : list A) : option (list B) :=
    match l with
    | [] => Some []
    | x :: r =>
        match f x, go r with
        | Some y, Some ys => Some (y :: ys)
        | _, _ => None
        end
    end.

(** Members entered into a map one after the other. *)
Definition all_members {A B : Type} (f : A -> option B)
    : list (string * A) -> gmap string B -> option (gmap string B) :=
  fix go (l : list (string * A)) (m : gmap string B) : option (gmap string B) :=
    match l with
    | [] => Some m
    | kv :: r =>
        match f (snd kv) with
        | Some y => go r (<[fst kv := y]> m)
        | None => None
        end
    end.

(** The Dynamic Value of a JSON value: null, boolean, number (always a
    float64, whether the literal is an integer or not), string, sequence,
    or mapping.  A number beyond the float64 range has none. *)
Fixpoint to_any (v : json) : option any :=
  match v with
  | JNull => Some ANil
  | JBool b => Some (ABool b)
  | JNumber raw => AFloat64 <$> strconv.ParseFloat raw
  | JString s => Some (AString s)
  | JArray elems => ASlice <$> all_elems to_any elems
  | JObject members => AMap <$> all_members to_any members ∅
  end.

(** The first member with exactly the name [k]. *)
Fixpoint lookup_member (k : string) (members : list (string * json)) : option json :=
  match members with
  | [] => None
  | kv :: r => if String.eqb (fst kv) k then Some (snd kv) else lookup_member k r
  end.

(** What a segment sequence selects in a value (sections 3 and 6 of the
    specification): an index segment is one that parses as a base-10
    integer and selects the array element at that zero-based index; any
    other non-empty segment is a key segment and selects the member whose
    name equals it. *)
Fixpoint resolve (v : json) (segs : list string) : option json :=
  match segs with
  | [] => Some v
  | seg :: rest =>
      if String.eqb seg EmptyString then None
      else
        match strconv.Atoi seg with
        | Some i =>
            match v with
            | JArray elems =>
                if i <? 0 then None
                else match elems !! Z.to_nat i with
                     | Some e => resolve e rest
                     | None => None
                     end
            | _ => None
            end
        | None =>
            match v with
            | JObject members =>
                match lookup_member seg members with
                | Some e => resolve e rest
                | None => None
                end
            | _ => None
            end
        end
  end.

(** A name that the quote removal changes: at least two bytes, the first
    and the last a double quote. *)
Definition quote_wrapped (k : string) : bool := negb (String.eqb (unquote_key k) k).

(** No member name up to and including the first occurrence of [k] is
    wrapped in double quotes. *)
Fixpoint plain_until (k : string) (members : list (string * json)) : bool :=
  match members with
  | [] => true
  | kv :: r =>
      negb (quote_wrapped (fst kv)) && (String.eqb (fst kv) k || plain_until k r)
  end.

(** [plain_until] at every object the segments pass through. *)
Fixpoint plain_path (v : json) (segs : list string) : bool :=
  match segs with
  | [] => true
  | seg :: rest =>
      match strconv.Atoi seg with
      | Some i =>
          match v with
          | JArray elems =>
              match elems !! Z.to_nat i with
              | Some e => plain_path e rest
              | None => true
              end
          | _ => true
          end
      | None =>
          match v with
          | JObject members =>
              plain_until seg members &&
              match lookup_member seg members with
              | Some e => plain_path e rest
              | None => true
              end
          | _ => true
          end
      end
  end.

(** ** Definitions used in the statements *)

(** The context that enrichError adds to every error. *)
Definition context_kvs (s : extractState) : list (string * kvalue) :=
  [("json_path"%string, VStr (selector s))] ++
  match segments s !! position s with
  | Some seg => [("segment"%string, VStr seg);
                 ("segment_position"%string, VInt (Z.of_nat (position s)))]
  | None => []
  end ++
  match pathProgress s with
  | _ :: _ => [("path_progress"%string, VStrs (pathProgress s))]
  | [] => []
  end ++
  [("condensed_json"%string, VStr (condensedJSON s))].

Definition context_keys : list string :=
  ["json_path"; "segment"; "segment_position"; "path_progress"; "condensed_json"]%string.

(** [key] is none of the keys of the context. *)
Definition fresh_key (key : string) : bool :=
  forallb (fun k => negb (String.eqb k key)) context_keys.

(** Key/value pairs as arguments of an error helper. *)
Definition as_parts (kvs : list (string * kvalue)) : list part :=
  flat_map (fun kv => [str (fst kv); PVal (snd kv)]) kvs.

(** The kind of the first token of a value. *)
Definition value_kind (v : json) : jsontext.Kind :=
  match v with
  | JNull => "n"%char
  | JBool true => "t"%char
  | JBool false => "f"%char
  | JNumber _ => "0"%char
  | JString _ => dquote
  | JArray _ => "["%char
  | JObject _ => "{"%char
  end.

(** The error of skipElements and navigateArrayIndex at the end of an
    array. *)
Definition out_of_range (s : extractState) (targetIdx currentIdx : Z) : error :=
  enrichError s
    [sent ErrJSONPathTraversalFailed; sent ErrJSONIndexOutOfRange;
     str "target_index"; int targetIdx; str "array_length"; int currentIdx].

(** The error of navigateArrayIndex for a negative index. *)
Definition negative_index (s : extractState) (targetIdx : Z) : error :=
  enrichError s
    [sent ErrJSONPathTraversalFailed; sent ErrJSONIndexOutOfRange;
     str "target_index"; int targetIdx].

(** The error of searchKey at the end of an object. *)
Definition key_not_found (s : extractState) (targetKey : string) (availableKeys : list string)
    : error :=
  enrichError s
    [sent ErrJSONPathTraversalFailed; sent ErrJSONPathSegmentNotFound;
     str "missing_key"; str targetKey; str "available_keys"; strs availableKeys].

(** A member name as the search loop compares and reports it. *)
Definition shown_key (kv : string * json) : string := unquote_key (fst kv).

(** A string between two double quotes. *)
Definition in_quotes (inner : string) : string :=
  String dquote (inner ++ String dquote EmptyString).

(** What the batch loop obtains for one selector: the result of
    extractSingleValue on a fresh reader over the buffered bytes. *)
Definition outcome (raw : string) (sel : Selector) : any * option error :=
  extractSingleValue (gobytes.NewReader raw) sel raw.

Definition fails (raw : string) (sel : Selector) : bool :=
  match snd (outcome raw sel) with
  | Some _ => true
  | None => false
  end.

(** The errors of the failing selectors, one for every occurrence, in the
    order of the selector list. *)
Definition failures (raw : string) (selectors : list Selector) : list error :=
  flat_map (fun sel => match snd (outcome raw sel) with
                       | Some e => [e]
                       | None => []
                       end) selectors.

(** The map of a batch call on a readable source. *)
Definition batch_map (raw : string) (selectors : list Selector) : gmap Selector any :=
  fst (extractEach raw selectors ∅ []).

(** [s] has no entry in the map. *)
Definition absent (valuesMap : gmap Selector any) (s : Selector) : bool :=
  match valuesMap !! s with
  | Some _ => false
  | None => true
  end.

(** The partition law of a batch result: the not-found list is the
    selector list without the keys of the map, order and repetitions kept;
    every selector is a key of the map or in the not-found list, never
    both; and neither holds anything but selectors. *)
Definition partitions (selectors : list Selector)
    (result : gmap Selector any * list Selector * option error) : Prop :=
  let '(valuesMap, notFound, _) := result in
  notFound = List.filter (absent valuesMap) selectors /\
  (forall s, s ∈ selectors ->
     (is_Some (valuesMap !! s) /\ s ∉ notFound) \/
     (valuesMap !! s = None /\ s ∈ notFound)) /\
  (forall s, is_Some (valuesMap !! s) -> s ∈ selectors) /\
  (forall s, s ∈ notFound -> s ∈ selectors).

(** The error a single-value wrapper returns around a batch error. *)
Definition wrapped (via : sentinel) (sel : Selector) (e : error) : error :=
  WithErr [sent ErrFailedToExtractValueFromJSON; sent via;
           str "selector"; str sel; PErr e].

(** How the result of a single-value wrapper derives from the batch
    result for the one-element selector list. *)
Definition single_from_batch (via : sentinel) (sel : Selector)
    (batch : gmap Selector any * list Selector * option error)
    (result : any * option error) : Prop :=
  let '(valuesMap, notFound, err) := batch in
  (notFound <> [] -> err <> None) /\
  match err with
  | Some e =>
      result = (ANil, Some (wrapped via sel e)) /\
      errors.Is (wrapped via sel e) ErrFailedToExtractValueFromJSON = true /\
      errors.Is (wrapped via sel e) ErrJSONSelectorNotFound
        = errors.Is e ErrJSONSelectorNotFound /\
      (forall t, errors.Is e t = true -> errors.Is (wrapped via sel e) t = true)
  | None =>
      notFound = [] /\
      exists v, valuesMap !! sel = Some v /\ result = (v, None)
  end.

(** The state extractSingleValue starts from. *)
Definition initial_state (raw : string) (sel : Selector) : extractState :=
  newExtractState (jsontext.NewDecoder (gobytes.NewReader raw)) sel raw.

(** The error of the segment loop at an empty segment. *)
Definition empty_segment_error (s : extractState) : error :=
  enrichError s [sent ErrJSONPathTraversalFailed; sent ErrJSONPathContainsEmptySegment].

(** The error kinds the tests look for with errors.Is. *)
Definition reports (r : any * option error) (t : sentinel) : bool :=
  match snd r with
  | Some e => errors.Is e t
  | None => false
  end.

(** An error on which SelectorNotFound cannot be identified. *)
Definition clean (e : error) : Prop := errors.Is e ErrJSONSelectorNotFound = false.

(** A decoder whose reader has not failed with such an error. *)
Definition clean_decoder (d : jsontext.Decoder) : Prop :=
  match jsontext.tail d with
  | jsontext.ReadFault e => clean e
  | _ => True
  end.

(** ** Compact JSON text *)

(** A string literal body: double quote and backslash escaped. *)
Definition escape_byte (c : ascii) : list ascii :=
  if Ascii.eqb c dquote then ["\"%char; dquote]
  else if Ascii.eqb c "\"%char then ["\"%char; "\"%char]
  else [c].

Definition render_string (s : string) : list ascii :=
  dquote :: flat_map escape_byte (bytes_of s) ++ [dquote].

(** Elements after the first are preceded by a comma. *)
Definition render_elems (f : json -> list ascii) : bool -> list json -> list ascii :=
  fix go (first : bool) (l : list json) : list ascii :=
    match l with
    | [] => []
    | x :: r => (if first then [] else [","%char]) ++ f x ++ go false r
    end.

Definition render_members (f : json -> list ascii)
    : bool -> list (string * json) -> list ascii :=
  fix go (first : bool) (l : list (string * json)) : list ascii :=
    match l with
    | [] => []
    | kv :: r =>
        (if first then [] else [","%char]) ++ render_string (fst kv) ++ ":"%char
          :: f (snd kv) ++ go false r
    end.

(** The JSON text of a value without any white space. *)
Fixpoint render (v : json) : list ascii :=
  match v with
  | JNull => bytes_of "null"
  | JBool true => bytes_of "true"
  | JBool false => bytes_of "false"
  | JNumber raw => bytes_of raw
  | JString s => render_string s
  | JArray elems => "["%char :: render_elems render true elems ++ ["]"%char]
  | JObject members => "{"%char :: render_members render true members ++ ["}"%char]
  end.

(** Printable ASCII. *)
Definition printable (s : string) : bool :=
  forallb (fun c => (32 <=? byte_val c) && (byte_val c <? 128)) (bytes_of s).

(** [raw] is a literal of the number grammar, all of it. *)
Definition number_literal (raw : string) : bool :=
  match jsontext.lex_number (bytes_of raw) with
  | Some (lit, []) => bool_decide (lit = bytes_of raw)
  | _ => false
  end.

(** Documents whose compact text the decoder accepts: number literals of
    the grammar, printable strings, member names unique within an object. *)
Fixpoint well_formed (v : json) : bool :=
  match v with
  | JNull => true
  | JBool _ => true
  | JNumber raw => number_literal raw
  | JString s => printable s
  | JArray elems => forallb well_formed elems
  | JObject members =>
      forallb (fun kv => printable (fst kv) && well_formed (snd kv)) members
      && bool_decide (NoDup (map fst members))
  end.

(** ** Reading compact text back *)

(** The byte after a number literal: none, or one that cannot continue it. *)
Definition ends_number (b : list ascii) : bool :=
  match b with
  | [] => true
  | c :: _ =>
      negb (is_digit c || Ascii.eqb c "."%char || Ascii.eqb c "e"%char
            || Ascii.eqb c "E"%char || Ascii.eqb c "-"%char || Ascii.eqb c "+"%char)
  end.

(** A lexer result with [b] appended to the input left over. *)
Definition extend (b : list ascii) (o : option (list ascii * list ascii))
    : option (list ascii * list ascii) :=
  match o with
  | Some (lit, r) => Some (lit, (r ++ b)%list)
  | None => None
  end.

Definition delim_bytes (d : option ascii) : list ascii :=
  match d with Some c => [c] | None => [] end.

(** The container stack after a complete value. *)
Definition after_value (st : list jsontext.frame) : list jsontext.frame :=
  match st with
  | [] => []
  | jsontext.ArrayFrame n :: r => jsontext.ArrayFrame (S n) :: r
  | jsontext.ObjectFrame n names :: r => jsontext.ObjectFrame (S n) names :: r
  end.

(** A value may come next: at the top level, in an array, or after a
    member name. *)
Definition value_position (st : list jsontext.frame) : bool :=
  match st with
  | jsontext.ObjectFrame n _ :: _ => Nat.odd n
  | _ => true
  end.

(** What may follow a value: the end of the input, a comma or a closing
    bracket. *)
Definition follows (rest : list ascii) : bool :=
  match rest with
  | [] => true
  | c :: _ => Ascii.eqb c ","%char || Ascii.eqb c "]"%char || Ascii.eqb c "}"%char
  end.

(** The decoder reads the text of [v], after the delimiter its position
    calls for, as the tokens of [v]. *)
Definition reads_back (v : json) : Prop :=
  well_formed v = true ->
  forall (st : list jsontext.frame) (rest : list ascii) (fuel : nat),
    value_position st = true -> follows rest = true ->
    (length (delim_bytes (jsontext.needDelim st (value_kind v)) ++ render v ++ rest)
     < fuel)%nat ->
    jsontext.scan fuel
      (delim_bytes (jsontext.needDelim st (value_kind v)) ++ render v ++ rest) st =
    let (ts, tl) := jsontext.scan fuel rest (after_value st) in (tokens_of v ++ ts, tl).

(** ** Definitions used in the further properties *)

(** The byte of [s] at index [i]. *)
Definition byte_at (s : string) (i : Z) : option ascii :=
  if i <? 0 then None else bytes_of s !! Z.to_nat i.

(** A cut at [cut] ends a JSON structure: it follows a closing brace or
    bracket, or stands right before a comma. *)
Definition at_boundary (s : string) (cut : Z) : Prop :=
  byte_at s cut = Some ","%char \/ byte_at s (cut - 1) = Some "}"%char \/
  byte_at s (cut - 1) = Some "]"%char.

(** The kinds of failure of a traversal, each reported together with
    ErrJSONPathTraversalFailed. *)
Definition traversal_kinds : list sentinel :=
  [ErrJSONIndexOutOfRange; ErrJSONPathExpectedArrayAtSegment;
   ErrJSONPathExpectedObjectAtSegment; ErrJSONPathSegmentNotFound;
   ErrJSONTokenReadFailed; ErrJSONPathContainsEmptySegment].

(** The kinds of failure the batch operations report with
    ErrJSONPathTraversalFailed. *)
Definition path_failures : list sentinel :=
  ErrJSONBodyCannotBeEmpty :: ErrJSONValueSelectorCannotBeEmpty :: traversal_kinds.

(** The kinds of failure they report with ErrJSONStreamingParseFailed. *)
Definition parse_failures : list sentinel := [ErrJSONUnmarshalFailed; ErrJSONReadFailed].

(** [e] can be identified as a category and as one of its kinds. *)
Definition classified (e : error) : bool :=
  errors.Is e ErrJSONPathTraversalFailed && existsb (errors.Is e) path_failures
  || errors.Is e ErrJSONStreamingParseFailed && existsb (errors.Is e) parse_failures.

(** The state of a traversal of [sel] in [raw] that is at segment [k] and
    has passed the first [passed] segments. *)
Definition at_segment (raw : string) (sel : Selector) (k passed : nat) : extractState :=
  mkState (jsontext.NewDecoder (gobytes.NewReader raw)) sel (gostrings.Split sel "."%char)
    (take passed (gostrings.Split sel "."%char)) k raw.

(** An error on which no sentinel can be identified. *)
Definition silent (e : error) : Prop := forall t, errors.Is e t = false.

(** A decoder whose reader has not failed with an error of the package. *)
Definition silent_decoder (d : jsontext.Decoder) : Prop :=
  silent (jsontext.tail_error (jsontext.tail d)).

(** [e] is a traversal error that enrichError built with the context of
    [s]; the caller's pairs use none of the keys of the context, and no
    sentinel can be identified on the cause. *)
Definition traversal_error (s : extractState) (e : error) : Prop :=
  exists (b : sentinel) (kvs : list (string * kvalue)) (c : option error),
    e = Entry [Sentinel ErrJSONPathTraversalFailed; Sentinel b] (context_kvs s ++ kvs) c /\
    b ∈ traversal_kinds /\
    forallb (fun kv => fresh_key (fst kv)) kvs = true /\
    (forall x, c = Some x -> silent x).

(** The error of extractSingleValue for a value that cannot be decoded:
    enrichError counts the cause among the leading errors. *)
Definition unmarshal_error (s : extractState) (cause : error) : error :=
  Entry [Sentinel ErrJSONStreamingParseFailed; Sentinel ErrJSONUnmarshalFailed; cause]
    (context_kvs s) None.

(** Two states that differ in the decoder at most. *)
Definition same_context (s s' : extractState) : Prop :=
  selector s' = selector s /\ segments s' = segments s /\
  pathProgress s' = pathProgress s /\ position s' = position s /\
  rawBytes s' = rawBytes s.

(** The errors an optional aggregated error joins. *)
Definition errors_of (err : option error) : list error :=
  match err with
  | Some e => joined_errors e
  | None => []
  end.

(** [strings.Join(elems, sep)]. *)
Fixpoint Join (elems : list string) (sep : string) : string :=
  match elems with
  | [] => EmptyString
  | [x] => x
  | x :: r => (x ++ sep ++ Join r sep)%string
  end.

(** The number of bytes of [s] equal to [c]. *)
Definition count_byte (c : ascii) (s : string) : nat :=
  length (List.filter (Ascii.eqb c) (bytes_of s)).

(** The members before the first one named [k]. *)
Fixpoint members_before (k : string) (members : list (string * json))
    : list (string * json) :=
  match members with
  | [] => []
  | kv :: r => if String.eqb (fst kv) k then [] else kv :: members_before k r
  end.

(** The tokens of [v] that precede the value [segs] selects in it: what a
    decoder delivers before the cursor stands at that value. *)
Fixpoint path_prefix (v : json) (segs : list string) : list jsontext.Token :=
  match segs with
  | [] => []
  | seg :: rest =>
      match strconv.Atoi seg with
      | Some i =>
          match v with
          | JArray elems =>
              match elems !! Z.to_nat i with
              | Some e =>
                  jsontext.BeginArray
                    :: flat_map tokens_of (take (Z.to_nat i) elems) ++ path_prefix e rest
              | None => []
              end
          | _ => []
          end
      | None =>
          match v with
          | JObject members =>
              match lookup_member seg members with
              | Some e =>
                  jsontext.BeginObject
                    :: flat_map member_tokens (members_before seg members)
                    ++ jsontext.TString seg :: path_prefix e rest
              | None => []
              end
          | _ => []
          end
      end
  end.

(** The member the key search for [k] stops at: the first one whose
    name, a wrapping pair of double quotes removed, equals [k]. *)
Fixpoint search_member (k : string) (members : list (string * json))
    : option (string * json) :=
  match members with
  | [] => None
  | kv :: r => if String.eqb (shown_key kv) k then Some kv else search_member k r
  end.

(** The members the key search for [k] passes over. *)
Fixpoint members_passed (k : string) (members : list (string * json))
    : list (string * json) :=
  match members with
  | [] => []
  | kv :: r => if String.eqb (shown_key kv) k then [] else kv :: members_passed k r
  end.

(** The value the navigation arrives at: [resolve] with the key search of
    navigateObjectKey in the place of the comparison of names. *)
Fixpoint reached (v : json) (segs : list string) : option json :=
  match segs with
  | [] => Some v
  | seg :: rest =>
      if String.eqb seg EmptyString then None
      else
        match strconv.Atoi seg with
        | Some i =>
            match v with
            | JArray elems =>
                if i <? 0 then None
                else match elems !! Z.to_nat i with
                     | Some e => reached e rest
                     | None => None
                     end
            | _ => None
            end
        | None =>
            match v with
            | JObject members =>
                match search_member seg members with
                | Some kv => reached (snd kv) rest
                | None => None
                end
            | _ => None
            end
        end
  end.

(** The tokens of [v] that precede the value the navigation arrives at:
    what the decoder has delivered when the cursor stands at that value. *)
Fixpoint reached_prefix (v : json) (segs : list string) : list jsontext.Token :=
  match segs with
  | [] => []
  | seg :: rest =>
      match strconv.Atoi seg with
      | Some i =>
          match v with
          | JArray elems =>
              match elems !! Z.to_nat i with
              | Some e =>
                  jsontext.BeginArray
                    :: flat_map tokens_of (take (Z.to_nat i) elems) ++ reached_prefix e rest
              | None => []
              end
          | _ => []
          end
      | None =>
          match v with
          | JObject members =>
              match search_member seg members with
              | Some kv =>
                  jsontext.BeginObject
                    :: flat_map member_tokens (members_passed seg members)
                    ++ jsontext.TString (fst kv) :: reached_prefix (snd kv) rest
              | None => []
              end
          | _ => []
          end
      end
  end.

(** The key search for [k] stops at the member that [k] names: the
    members before it are not taken for it, and it is taken for itself. *)
Fixpoint search_agrees (k : string) (members : list (string * json)) : bool :=
  match members with
  | [] => true
  | kv :: r =>
      if String.eqb (fst kv) k then String.eqb (shown_key kv) k
      else negb (String.eqb (shown_key kv) k) && search_agrees k r
  end.

(** [search_agrees] at every object the segments pass through. *)
Fixpoint search_agrees_path (v : json) (segs : list string) : bool :=
  match segs with
  | [] => true
  | seg :: rest =>
      match strconv.Atoi seg with
      | Some i =>
          match v with
          | JArray elems =>
              match elems !! Z.to_nat i with
              | Some e => search_agrees_path e rest
              | None => true
              end
          | _ => true
          end
      | None =>
          match v with
          | JObject members =>
              search_agrees seg members &&
              match lookup_member seg members with
              | Some e => search_agrees_path e rest
              | None => true
              end
          | _ => true
          end
      end
  end.

(** ** Sample inputs *)

Definition xs_document : string := json_text "{'xs':[10,20,30]}".

Definition xs_value : json :=
  JObject [("xs"%string, JArray [JNumber "10"; JNumber "20"; JNumber "30"])].

(** A state whose cursor is at the array [10,20,30]. *)
Definition array_state : extractState :=
  newExtractState (jsontext.NewDecoder (gobytes.NewReader (json_text "[10,20,30]")))
    "1" (json_text "[10,20,30]").

(** The document with the single member name "x", quotes included. *)
Definition quoted_document : string := json_text "{'\'x\'':1}".

Definition quoted_value : json := JObject [(in_quotes "x", JNumber "1")].

(** A state whose cursor is at [quoted_document]. *)
Definition quoted_state : extractState :=
  newExtractState (jsontext.NewDecoder (gobytes.NewReader quoted_document))
    "x" quoted_document.

(** A document of more than 100 and fewer than 200 bytes, without white
    space. *)
Definition items_value : json :=
  JObject
    [("items"%string,
      JArray
        [JObject [("id"%string, JNumber "1"); ("name"%string, JString "alpha")];
         JObject [("id"%string, JNumber "2"); ("name"%string, JString "beta")];
         JObject [("id"%string, JNumber "3"); ("name"%string, JString "gamma")];
         JObject [("id"%string, JNumber "4"); ("name"%string, JString "delta")];
         JObject [("id"%string, JNumber "5"); ("name"%string, JString "epsilon")]])].

Definition items_document : string := string_of (render items_value).

(** The same document with a line break and indentation after every
    comma. *)
Definition spread_document : string :=
  gostrings.ReplaceAll items_document ","
    (String "," (String (ascii_of_nat 10) "        ")).

(** A document that ends inside its second object. *)
Definition cut_document : string := json_text "{'a':[1,2,{'b':true,'c':".

(** The error of extractSingleValue for an index beyond the array of
    [xs_document]. *)
Definition beyond_error : error :=
  match snd (outcome xs_document "xs.7") with
  | Some e => e
  | None => Sentinel ErrJSONPathTraversalFailed
  end.

(** The document of examples/basic_usage/main.go, with its line breaks and
    tabs. *)
Definition usage_document : string := json_text "{
		'user': {
			'name': 'John Doe',
			'email': 'john@example.com',
			'age': 30
		},
		'address': {
			'city': 'San Francisco',
			'country': 'USA'
		}
	}".




(** * Properties *)

(** ** The standard library functions on sample inputs *)

Example Split_abc : gostrings.Split "a.b.c" "."%char = ["a"; "b"; "c"]%string.
Proof. reflexivity. Qed.

Example Split_empty : gostrings.Split EmptyString "."%char = [EmptyString].
Proof. reflexivity. Qed.

Example Split_gap : gostrings.Split "a..b" "."%char = ["a"; EmptyString; "b"]%string.
Proof. reflexivity. Qed.

Example Atoi_samples :
  strconv.Atoi "12" = Some 12 /\ strconv.Atoi "-1" = Some (-1) /\
  strconv.Atoi "+5" = Some 5 /\ strconv.Atoi "x1" = None /\
  strconv.Atoi "-" = None /\ strconv.Atoi "9223372036854775808" = None.
Proof. repeat split; reflexivity. Qed.

Example ParseFloat_samples :
  strconv.ParseFloat "1" = strconv.ParseFloat "1.0" /\
  strconv.ParseFloat "123" = Some (S754_finite false 8655355533852672 (-46)) /\
  strconv.ParseFloat "1e-1" = Some (S754_finite false 7205759403792794 (-56)) /\
  strconv.ParseFloat "1e999" = None.
Proof. repeat split; vm_compute; reflexivity. Qed.

Example NewDecoder_sample :
  jsontext.NewDecoder (gobytes.NewReader (json_text "{'xs':[10,true],'s':'a\nb'}")) =
  jsontext.mkDecoder
    [jsontext.BeginObject; jsontext.TString "xs"; jsontext.BeginArray;
     jsontext.TNumber "10"; jsontext.TTrue; jsontext.EndArray;
     jsontext.TString "s"; jsontext.TString (String "a" (String "010" "b"));
     jsontext.EndObject]
    jsontext.AtEOF.
Proof. vm_compute. reflexivity. Qed.

(** A repeated member name stops the token sequence. *)
Example NewDecoder_duplicate_name :
  jsontext.NewDecoder (gobytes.NewReader (json_text "{'a':1,'a':2}")) =
  jsontext.mkDecoder
    [jsontext.BeginObject; jsontext.TString "a"; jsontext.TNumber "1"]
    (jsontext.Malformed dquote).
Proof. vm_compute. reflexivity. Qed.

(** ** Token sequences of values *)

Import jsontext.

Lemma tokens_of_head (v : json) :
  exists t r, tokens_of v = t :: r /\ closes t = false.
Proof. destruct v as [|[]| | | |]; simpl; eauto. Qed.

Lemma tokens_of_length (v : json) : (1 <= length (tokens_of v))%nat.
Proof. destruct v as [|[]| | | |]; cbn; lia. Qed.

Lemma member_tokens_cons (name : string) (val : json) (ms : list (string * json))
    (rest : list Token) :
  flat_map member_tokens ((name, val) :: ms) ++ rest =
  TString name :: tokens_of val ++ flat_map member_tokens ms ++ rest.
Proof.
  cbn [flat_map]. unfold member_tokens at 1. cbn [fst snd].
  rewrite <- app_assoc. reflexivity.
Qed.

Lemma flat_members_length (ms : list (string * json)) :
  (length ms <= length (flat_map member_tokens ms))%nat.
Proof.
  induction ms as [|kv ms IH]; cbn [flat_map length]; [lia|].
  rewrite length_app. cbn [member_tokens length]. lia.
Qed.

(** Skipping passes over exactly the tokens of a value. *)
Lemma skip_tokens_value (v : json) :
  forall depth rest,
    skip_tokens depth (tokens_of v ++ rest) =
    match depth with
    | O => Some rest
    | S _ => skip_tokens depth rest
    end.
Proof.
  induction v as [|b|raw|str|elems IH|members IH] using json_nested_ind;
    intros depth rest.
  - destruct depth; reflexivity.
  - destruct b, depth; reflexivity.
  - destruct depth; reflexivity.
  - destruct depth; reflexivity.
  - cbn [tokens_of]. rewrite <- app_comm_cons. cbn [skip_tokens opens].
    rewrite <- app_assoc.
    assert (Hin : forall rest', skip_tokens (S depth) (flat_map tokens_of elems ++ rest')
                   = skip_tokens (S depth) rest').
    { induction IH as [|x l Hx Hl IHl]; intros rest'; [reflexivity|].
      cbn [flat_map]. rewrite <- app_assoc, Hx. apply IHl. }
    rewrite Hin. cbn. destruct depth; reflexivity.
  - cbn [tokens_of]. rewrite <- app_comm_cons. cbn [skip_tokens opens].
    rewrite <- app_assoc.
    change (flat_map (fun kv => TString (fst kv) :: tokens_of (snd kv)) members)
      with (flat_map member_tokens members).
    assert (Hin : forall rest',
               skip_tokens (S depth) (flat_map member_tokens members ++ rest')
               = skip_tokens (S depth) rest').
    { induction IH as [|[k x] l Hx Hl IHl]; intros rest'; [reflexivity|].
      rewrite member_tokens_cons. cbn [skip_tokens opens closes].
      cbn [snd] in Hx. rewrite Hx. apply IHl. }
    rewrite Hin. cbn. destruct depth; reflexivity.
Qed.

Lemma PeekKind_value (d : Decoder) (v : json) (rest : list Token) :
  pending d = tokens_of v ++ rest -> PeekKind d = value_kind v.
Proof.
  intros H. unfold PeekKind. rewrite H. destruct v as [|[]| | | |]; reflexivity.
Qed.

Lemma value_kind_not_closer (v : json) :
  kind_is (value_kind v) "]"%char = false /\ kind_is (value_kind v) "}"%char = false.
Proof. destruct v as [|[]| | | |]; split; reflexivity. Qed.

Lemma SkipValue_value (d : Decoder) (v : json) (rest : list Token) :
  pending d = tokens_of v ++ rest ->
  SkipValue d = (mkDecoder rest (tail d), None).
Proof.
  intros H. unfold SkipValue. rewrite H, skip_tokens_value. reflexivity.
Qed.

(** ** Decoding *)

Lemma decode_elements_step (f : nat) (e : json) (ts : list Token) :
  jsonv2.decode_elements (S f) (tokens_of e ++ ts) =
  match jsonv2.decode_value f (tokens_of e ++ ts) with
  | Some (v, r) =>
      match jsonv2.decode_elements f r with
      | Some (l, r') => Some (v :: l, r')
      | None => None
      end
  | None => None
  end.
Proof. destruct e as [|[]| | | |]; reflexivity. Qed.

Lemma decode_value_tokens (v : json) :
  forall (a : any) (fuel : nat) (rest : list Token),
    to_any v = Some a ->
    (length (tokens_of v) <= fuel)%nat ->
    jsonv2.decode_value fuel (tokens_of v ++ rest) = Some (a, rest).
Proof.
  induction v as [|b|raw|str|elems IH|members IH] using json_nested_ind;
    intros a fuel rest Ha Hfuel.
  - destruct fuel; [cbn in Hfuel; lia|]. cbn in *. congruence.
  - destruct fuel; [destruct b; cbn in Hfuel; lia|]. destruct b; cbn in *; congruence.
  - destruct fuel; [cbn in Hfuel; lia|]. cbn in *.
    destruct (strconv.ParseFloat raw); cbn in Ha; congruence.
  - destruct fuel; [cbn in Hfuel; lia|]. cbn in *. congruence.
  - destruct fuel as [|f]; [cbn in Hfuel; lia|].
    cbn [tokens_of to_any] in *.
    destruct (all_elems to_any elems) as [l|] eqn:Hl; [|discriminate].
    cbn in Ha. injection Ha as <-.
    rewrite <- app_comm_cons, <- app_assoc. cbn [jsonv2.decode_value app].
    cbn [length] in Hfuel. rewrite length_app in Hfuel. cbn [length] in Hfuel.
    assert (Hin : forall g l' rest',
               all_elems to_any elems = Some l' ->
               (length (flat_map tokens_of elems) < g)%nat ->
               jsonv2.decode_elements g (flat_map tokens_of elems ++ EndArray :: rest')
               = Some (l', rest')).
    { clear Hl Hfuel l f. induction IH as [|e es He Hes IHes]; intros g l' rest' Hl' Hg.
      - destruct g; [lia|]. cbn in *. congruence.
      - destruct g as [|g]; [lia|].
        cbn [flat_map] in *. rewrite length_app in Hg.
        cbn [all_elems] in Hl'.
        destruct (to_any e) as [y|] eqn:Hy; [|discriminate].
        destruct (all_elems to_any es) as [ys|] eqn:Hys; [|discriminate].
        injection Hl' as <-.
        rewrite <- app_assoc, decode_elements_step.
        pose proof (tokens_of_length e).
        rewrite (He y g _ eq_refl) by lia.
        rewrite (IHes g ys rest' eq_refl) by lia. reflexivity. }
    rewrite (Hin f l rest Hl) by lia. reflexivity.
  - destruct fuel as [|f]; [cbn in Hfuel; lia|].
    cbn [tokens_of to_any] in *.
    destruct (all_members to_any members ∅) as [m'|] eqn:Hm; [|discriminate].
    cbn in Ha. injection Ha as <-.
    rewrite <- app_comm_cons, <- app_assoc. cbn [jsonv2.decode_value app].
    cbn [length] in Hfuel. rewrite length_app in Hfuel. cbn [length] in Hfuel.
    assert (Hin : forall g m m'' rest',
               all_members to_any members m = Some m'' ->
               (length (flat_map member_tokens members) < g)%nat ->
               jsonv2.decode_members g m (flat_map member_tokens members ++ EndObject :: rest')
               = Some (m'', rest')).
    { clear Hm Hfuel m' f. induction IH as [|[k e] es He Hes IHes];
        intros g m m'' rest' Hm'' Hg.
      - destruct g; [lia|]. cbn in *. congruence.
      - destruct g as [|g]; [lia|].
        rewrite member_tokens_cons.
        cbn [flat_map] in Hg. rewrite length_app in Hg.
        unfold member_tokens at 1 in Hg. cbn [fst snd length] in Hg.
        cbn [all_members fst snd] in Hm''. cbn [snd] in He.
        destruct (to_any e) as [y|] eqn:Hy; [|discriminate].
        cbn [jsonv2.decode_members].
        rewrite (He y g _ eq_refl) by lia.
        apply IHes; [assumption|lia]. }
    change (flat_map (fun kv => TString (fst kv) :: tokens_of (snd kv)) members)
      with (flat_map member_tokens members) in *.
    rewrite (Hin f ∅ m' rest Hm) by lia. reflexivity.
Qed.

Lemma UnmarshalDecode_value (d : Decoder) (v : json) (a : any) (rest : list Token) :
  pending d = tokens_of v ++ rest ->
  to_any v = Some a ->
  jsonv2.UnmarshalDecode d = (mkDecoder rest (tail d), a, None).
Proof.
  intros Hp Ha. unfold jsonv2.UnmarshalDecode. rewrite Hp.
  rewrite (decode_value_tokens v a _ rest Ha); [reflexivity|].
  rewrite length_app. lia.
Qed.

(** ** The error context *)

Lemma with_decoder_id (s : extractState) : with_decoder s (decoder s) = s.
Proof. destruct s; reflexivity. Qed.

Lemma pairs_and_cause_app (kvs : list (string * kvalue)) (rest : list part) :
  pairs_and_cause (as_parts kvs ++ rest) =
  let (more, c) := pairs_and_cause rest in ((kvs ++ more)%list, c).
Proof.
  induction kvs as [|[k v] kvs IH]; cbn [as_parts flat_map app].
  - destruct (pairs_and_cause rest); reflexivity.
  - cbn [pairs_and_cause str fst snd]. fold (as_parts kvs). rewrite IH.
    destruct (pairs_and_cause rest); reflexivity.
Qed.

Lemma count_sentinels_app (es : list error) (rest : list part) :
  count_sentinels rest = O ->
  count_sentinels (map PErr es ++ rest) = length es.
Proof. intros H. induction es; cbn; [exact H | now rewrite IHes]. Qed.

Lemma leading_errors_app (es : list error) (rest : list part) :
  count_sentinels rest = O ->
  leading_errors (map PErr es ++ rest) = (es, rest).
Proof.
  intros H. induction es as [|e es IH]; cbn.
  - destruct rest as [|[] r]; try reflexivity. discriminate H.
  - now rewrite IH.
Qed.

(** What enrichError builds: the leading errors, then the context followed
    by the caller's pairs, then the caller's cause. *)
Lemma enrichError_shape (s : extractState) (es : list error) (rest : list part) :
  count_sentinels rest = O ->
  enrichError s (map PErr es ++ rest) =
  let (kvs, c) := pairs_and_cause rest in
  Entry es (context_kvs s ++ kvs) c.
Proof.
  intros Hrest. unfold enrichError.
  rewrite (count_sentinels_app _ _ Hrest).
  assert (Htake : take (length es) (map PErr es ++ rest) = map PErr es).
  { rewrite <- (length_map PErr es). apply take_app_length. }
  assert (Hdrop : drop (length es) (map PErr es ++ rest) = rest).
  { rewrite <- (length_map PErr es). apply drop_app_length. }
  rewrite Htake, Hdrop.
  unfold NewErr, context_kvs. cbv zeta.
  destruct (segments s !! position s) as [seg|], (pathProgress s) as [|p ps];
    rewrite <- !app_assoc;
    (rewrite leading_errors_app by reflexivity);
    cbn [app pairs_and_cause str int strs];
    destruct (pairs_and_cause rest); reflexivity.
Qed.

Lemma find_context_kvs (s : extractState) (key : string) (kvs : list (string * kvalue)) :
  fresh_key key = true ->
  List.find (fun kv => String.eqb (fst kv) key) (context_kvs s ++ kvs) =
  List.find (fun kv => String.eqb (fst kv) key) kvs.
Proof.
  unfold fresh_key, context_keys. cbn [forallb]. rewrite !andb_true_iff, !negb_true_iff.
  intros (H1 & H2 & H3 & H4 & H5 & _).
  unfold context_kvs.
  destruct (segments s !! position s), (pathProgress s); cbn [app List.find fst];
    rewrite ?H1, ?H2, ?H3, ?H4, ?H5; reflexivity.
Qed.

Lemma kv_get_enriched (s : extractState) (a b : sentinel) (rest : list part) (key : string) :
  count_sentinels rest = O ->
  fresh_key key = true ->
  kv_get (enrichError s (sent a :: sent b :: rest)) key =
  snd <$> List.find (fun kv => String.eqb (fst kv) key) (fst (pairs_and_cause rest)).
Proof.
  intros Hrest Hkey.
  change (sent a :: sent b :: rest) with (map PErr [Sentinel a; Sentinel b] ++ rest).
  rewrite (enrichError_shape _ _ _ Hrest).
  destruct (pairs_and_cause rest) as [kvs c]. cbn [kv_get fst].
  now rewrite find_context_kvs.
Qed.

Lemma Is_entry_sentinel (es : list error) (kvs : list (string * kvalue))
    (c : option error) (t : sentinel) :
  In (Sentinel t) es -> errors.Is (Entry es kvs c) t = true.
Proof.
  intros Hin. cbn [errors.Is]. apply orb_true_iff. left.
  apply existsb_exists. exists (Sentinel t). split; [assumption|].
  cbn. now apply bool_decide_eq_true_2.
Qed.

Lemma Is_enriched (s : extractState) (a b : sentinel) (rest : list part) :
  count_sentinels rest = O ->
  errors.Is (enrichError s (sent a :: sent b :: rest)) a = true /\
  errors.Is (enrichError s (sent a :: sent b :: rest)) b = true.
Proof.
  intros Hrest.
  change (sent a :: sent b :: rest) with (map PErr [Sentinel a; Sentinel b] ++ rest).
  rewrite (enrichError_shape _ _ _ Hrest).
  destruct (pairs_and_cause rest) as [kvs c].
  split; apply Is_entry_sentinel; cbn; auto.
Qed.

Lemma out_of_range_facts (s : extractState) (targetIdx currentIdx : Z) :
  errors.Is (out_of_range s targetIdx currentIdx) ErrJSONPathTraversalFailed = true /\
  errors.Is (out_of_range s targetIdx currentIdx) ErrJSONIndexOutOfRange = true /\
  kv_get (out_of_range s targetIdx currentIdx) "target_index" = Some (VInt targetIdx) /\
  kv_get (out_of_range s targetIdx currentIdx) "array_length" = Some (VInt currentIdx).
Proof.
  unfold out_of_range. repeat split.
  - now apply Is_enriched.
  - now apply Is_enriched.
  - rewrite kv_get_enriched; reflexivity.
  - rewrite kv_get_enriched; reflexivity.
Qed.

Lemma negative_index_facts (s : extractState) (targetIdx : Z) :
  errors.Is (negative_index s targetIdx) ErrJSONPathTraversalFailed = true /\
  errors.Is (negative_index s targetIdx) ErrJSONIndexOutOfRange = true /\
  kv_get (negative_index s targetIdx) "target_index" = Some (VInt targetIdx) /\
  kv_get (negative_index s targetIdx) "array_length" = None.
Proof.
  unfold negative_index. repeat split.
  - now apply Is_enriched.
  - now apply Is_enriched.
  - rewrite kv_get_enriched; reflexivity.
  - rewrite kv_get_enriched; reflexivity.
Qed.

Lemma key_not_found_facts (s : extractState) (k : string) (avail : list string) :
  errors.Is (key_not_found s k avail) ErrJSONPathTraversalFailed = true /\
  errors.Is (key_not_found s k avail) ErrJSONPathSegmentNotFound = true /\
  kv_get (key_not_found s k avail) "missing_key" = Some (VStr k) /\
  kv_get (key_not_found s k avail) "available_keys" = Some (VStrs avail).
Proof.
  unfold key_not_found. repeat split.
  - now apply Is_enriched.
  - now apply Is_enriched.
  - rewrite kv_get_enriched; reflexivity.
  - rewrite kv_get_enriched; reflexivity.
Qed.

(** ** Array index navigation *)

Lemma skipElements_within (todo : nat) :
  forall (s : extractState) (targetIdx currentIdx : Z) (elems : list json) (rest : list Token),
    pending (decoder s) = flat_map tokens_of elems ++ EndArray :: rest ->
    (todo <= length elems)%nat ->
    skipElements todo s targetIdx currentIdx =
    (with_decoder s (mkDecoder (flat_map tokens_of (drop todo elems) ++ EndArray :: rest)
                       (tail (decoder s))),
     None, currentIdx + Z.of_nat todo).
Proof.
  induction todo as [|k IH]; intros s targetIdx currentIdx elems rest Hp Hlen.
  - cbn [skipElements]. rewrite drop_0, <- Hp, Z.add_0_r.
    destruct s as [[] ]; reflexivity.
  - destruct elems as [|e elems]; [cbn in Hlen; lia|].
    cbn [flat_map] in Hp. rewrite <- app_assoc in Hp.
    cbn [skipElements].
    rewrite (PeekKind_value _ _ _ Hp).
    destruct (value_kind_not_closer e) as [-> _].
    rewrite (SkipValue_value _ _ _ Hp).
    rewrite (IH _ targetIdx (currentIdx + 1) elems rest); cbn in Hlen; [|reflexivity|lia].
    cbn [drop]. f_equal. lia.
Qed.

Lemma skipElements_beyond (todo : nat) :
  forall (s : extractState) (targetIdx currentIdx : Z) (elems : list json) (rest : list Token),
    pending (decoder s) = flat_map tokens_of elems ++ EndArray :: rest ->
    (length elems < todo)%nat ->
    skipElements todo s targetIdx currentIdx =
    (with_decoder s (mkDecoder (EndArray :: rest) (tail (decoder s))),
     Some (out_of_range s targetIdx (currentIdx + Z.of_nat (length elems))),
     currentIdx + Z.of_nat (length elems)).
Proof.
  induction todo as [|k IH]; intros s targetIdx currentIdx elems rest Hp Hlen; [lia|].
  destruct elems as [|e elems].
  - cbn [flat_map app] in Hp. cbn [skipElements]. unfold PeekKind. rewrite Hp.
    cbn [Token_Kind kind_is]. cbn [length]. rewrite Z.add_0_r.
    change (Ascii.eqb "]" "]") with true. cbv iota.
    rewrite <- Hp. destruct s as [[] ]; reflexivity.
  - cbn [flat_map] in Hp. rewrite <- app_assoc in Hp.
    cbn [skipElements].
    rewrite (PeekKind_value _ _ _ Hp).
    destruct (value_kind_not_closer e) as [-> _].
    rewrite (SkipValue_value _ _ _ Hp).
    rewrite (IH _ targetIdx (currentIdx + 1) elems rest); cbn in Hlen |- *; [|reflexivity|lia].
    replace (currentIdx + 1 + Z.of_nat (length elems))
      with (currentIdx + Z.pos (Pos.of_succ_nat (length elems))) by lia.
    reflexivity.
Qed.

Lemma navigateArrayIndex_enter (s : extractState) (elems : list json) (rest : list Token)
    (i : Z) :
  pending (decoder s) = tokens_of (JArray elems) ++ rest ->
  0 <= i ->
  navigateArrayIndex s i =
  let '(s', err, currentIdx) :=
    skipElements (Z.to_nat i)
      (with_decoder s (mkDecoder (flat_map tokens_of elems ++ EndArray :: rest)
                         (tail (decoder s)))) i 0 in
  match err with
  | Some e => (s', Some e)
  | None =>
      if kind_is (PeekKind (decoder s')) "]"%char
      then (s', Some (out_of_range s' i currentIdx))
      else (s', None)
  end.
Proof.
  intros Hp Hlo. unfold navigateArrayIndex, PeekKind at 1, ReadToken. rewrite Hp.
  destruct (Z.ltb_spec i 0) as [|_]; [lia|].
  cbn [tokens_of app Token_Kind kind_is]. change (Ascii.eqb "[" "[") with true. cbn [negb].
  rewrite <- app_assoc. reflexivity.
Qed.

Lemma navigateArrayIndex_within
    (s : extractState) (elems : list json) (rest : list Token) (i : Z) (e : json) :
  pending (decoder s) = tokens_of (JArray elems) ++ rest ->
  0 <= i ->
  elems !! Z.to_nat i = Some e ->
  navigateArrayIndex s i =
  (with_decoder s
     (mkDecoder (tokens_of e ++ flat_map tokens_of (drop (S (Z.to_nat i)) elems)
                   ++ EndArray :: rest) (tail (decoder s))),
   None).
Proof.
  intros Hp Hlo He.
  assert (Hlt : (Z.to_nat i < length elems)%nat) by (eapply lookup_lt_Some; eassumption).
  rewrite (navigateArrayIndex_enter _ _ _ _ Hp Hlo).
  rewrite (skipElements_within (Z.to_nat i) _ i 0 elems rest); [|reflexivity|cbn; lia].
  cbn [decoder with_decoder pending tail].
  rewrite (drop_S _ _ _ He). cbn [flat_map]. rewrite <- app_assoc.
  unfold PeekKind. cbn [pending].
  destruct e as [|[]| | | |]; reflexivity.
Qed.

Lemma navigateArrayIndex_beyond
    (s : extractState) (elems : list json) (rest : list Token) (i : Z) :
  pending (decoder s) = tokens_of (JArray elems) ++ rest ->
  Z.of_nat (length elems) <= i ->
  navigateArrayIndex s i =
  (with_decoder s (mkDecoder (EndArray :: rest) (tail (decoder s))),
   Some (out_of_range s i (Z.of_nat (length elems)))).
Proof.
  intros Hp Hge.
  rewrite (navigateArrayIndex_enter _ _ _ _ Hp) by lia.
  destruct (Z.eq_dec i (Z.of_nat (length elems))) as [Heq|Hne].
  - rewrite (skipElements_within (Z.to_nat i) _ i 0 elems rest); [|reflexivity|cbn; lia].
    cbn [decoder with_decoder pending tail].
    rewrite drop_ge by lia. cbn [flat_map app].
    unfold PeekKind. cbn [pending Token_Kind kind_is].
    change (Ascii.eqb "]" "]") with true. cbv iota.
    replace (0 + Z.of_nat (Z.to_nat i)) with (Z.of_nat (length elems)) by lia.
    reflexivity.
  - rewrite (skipElements_beyond (Z.to_nat i) _ i 0 elems rest); [|reflexivity|cbn; lia].
    reflexivity.
Qed.

Lemma navigateArrayIndex_negative (s : extractState) (i : Z) :
  i < 0 -> navigateArrayIndex s i = (s, Some (negative_index s i)).
Proof.
  intros Hneg. unfold navigateArrayIndex.
  destruct (Z.ltb_spec i 0) as [_|]; [reflexivity|lia].
Qed.

(** C7. With the cursor at an array of n elements, navigateArrayIndex i
    succeeds for 0 <= i < n and leaves the cursor at element i, exactly the
    i elements before it skipped; for i >= n (i = n included) it fails with
    IndexOutOfRange reporting target_index = i and array_length = n; for
    i < 0 it fails with IndexOutOfRange whatever decoder the state holds,
    with one and the same error, and leaves the decoder as it was. *)
Theorem navigateArrayIndex_at_array
    (s : extractState) (elems : list json) (rest : list Token) (i : Z) :
  pending (decoder s) = tokens_of (JArray elems) ++ rest ->
  (0 <= i < Z.of_nat (length elems) ->
   exists (d' : Decoder) (e : json),
     navigateArrayIndex s i = (with_decoder s d', None) /\
     elems !! Z.to_nat i = Some e /\
     pending d' = tokens_of e ++
                  flat_map tokens_of (drop (S (Z.to_nat i)) elems) ++ EndArray :: rest /\
     pending (decoder s) =
       BeginArray :: flat_map tokens_of (take (Z.to_nat i) elems) ++ pending d') /\
  (Z.of_nat (length elems) <= i ->
   exists (d' : Decoder) (err : error),
     navigateArrayIndex s i = (with_decoder s d', Some err) /\
     errors.Is err ErrJSONIndexOutOfRange = true /\
     kv_get err "target_index" = Some (VInt i) /\
     kv_get err "array_length" = Some (VInt (Z.of_nat (length elems)))) /\
  (i < 0 ->
   exists err : error,
     errors.Is err ErrJSONIndexOutOfRange = true /\
     kv_get err "target_index" = Some (VInt i) /\
     forall d : Decoder,
       navigateArrayIndex (with_decoder s d) i = (with_decoder s d, Some err)).
Proof.
  intros Hp. split; [|split].
  - intros [Hlo Hhi].
    assert (Hlt : (Z.to_nat i < length elems)%nat) by lia.
    destruct (lookup_lt_is_Some_2 elems _ Hlt) as [e He].
    eexists _, e. rewrite (navigateArrayIndex_within s elems rest i e Hp Hlo He).
    repeat split; try reflexivity; try assumption.
    cbn [pending]. rewrite Hp. cbn [tokens_of app]. f_equal.
    rewrite <- (take_drop (Z.to_nat i) elems) at 1.
    rewrite flat_map_app, <- !app_assoc. f_equal.
    rewrite (drop_S _ _ _ He). cbn [flat_map]. now rewrite <- !app_assoc.
  - intros Hge. eexists _, _.
    rewrite (navigateArrayIndex_beyond s elems rest i Hp Hge).
    split; [reflexivity|].
    destruct (out_of_range_facts s i (Z.of_nat (length elems))) as (_ & H1 & H2 & H3).
    repeat split; assumption.
  - intros Hneg. exists (negative_index s i).
    destruct (negative_index_facts s i) as (_ & H1 & H2 & _).
    repeat split; try assumption.
    intros d. apply (navigateArrayIndex_negative (with_decoder s d) i Hneg).
Qed.

(** ** Object key navigation *)

Lemma searchKey_absent (ms : list (string * json)) :
  forall (fuel : nat) (s : extractState) (k : string) (avail : list string) (rest : list Token),
    pending (decoder s) = flat_map member_tokens ms ++ EndObject :: rest ->
    (length ms < fuel)%nat ->
    Forall (fun kv => shown_key kv <> k) ms ->
    searchKey fuel s k avail =
    Some (with_decoder s (mkDecoder (EndObject :: rest) (tail (decoder s))),
          Some (key_not_found s k (avail ++ map shown_key ms))).
Proof.
  induction ms as [|[name val] ms IH]; intros fuel s k avail rest Hp Hfuel Hall;
    (destruct fuel as [|fuel]; [cbn in Hfuel; lia|]).
  - cbn [flat_map app] in Hp. cbn [searchKey]. unfold PeekKind. rewrite Hp.
    cbn [Token_Kind kind_is]. change (Ascii.eqb "}" "}") with true. cbn [negb].
    cbn [map]. rewrite app_nil_r. rewrite <- Hp.
    destruct s as [[] ]; reflexivity.
  - rewrite member_tokens_cons in Hp.
    cbn [searchKey]. unfold PeekKind, ReadToken. rewrite Hp.
    cbn [Token_Kind kind_is]. change (Ascii.eqb dquote "}") with false. cbn [negb].
    cbn [Token_String].
    apply Forall_cons in Hall. destruct Hall as [Hname Hall].
    unfold shown_key in Hname. cbn [fst] in Hname.
    apply String.eqb_neq in Hname. rewrite Hname.
    erewrite SkipValue_value by reflexivity.
    rewrite (IH fuel _ k _ rest); [|reflexivity|cbn in Hfuel; lia|assumption].
    cbn [map]. unfold shown_key at 2. cbn [fst]. rewrite <- app_assoc. reflexivity.
Qed.

Lemma searchKey_present (before : list (string * json)) :
  forall (fuel : nat) (s : extractState) (k : string) (avail : list string)
         (name : string) (val : json) (after : list (string * json)) (rest : list Token),
    pending (decoder s) =
      flat_map member_tokens (before ++ (name, val) :: after) ++ EndObject :: rest ->
    (length before < fuel)%nat ->
    Forall (fun kv => shown_key kv <> k) before ->
    unquote_key name = k ->
    searchKey fuel s k avail =
    Some (with_decoder s
            (mkDecoder (tokens_of val ++ flat_map member_tokens after ++ EndObject :: rest)
               (tail (decoder s))),
          None).
Proof.
  induction before as [|[n0 v0] before IH];
    intros fuel s k avail name val after rest Hp Hfuel Hall Hname;
    (destruct fuel as [|fuel]; [cbn in Hfuel; lia|]).
  - cbn [app] in Hp. rewrite member_tokens_cons in Hp.
    cbn [searchKey]. unfold PeekKind, ReadToken. rewrite Hp.
    cbn [Token_Kind kind_is]. change (Ascii.eqb dquote "}") with false. cbn [negb].
    cbn [Token_String]. rewrite Hname, String.eqb_refl. reflexivity.
  - cbn [app] in Hp. rewrite member_tokens_cons in Hp.
    cbn [searchKey]. unfold PeekKind, ReadToken. rewrite Hp.
    cbn [Token_Kind kind_is]. change (Ascii.eqb dquote "}") with false. cbn [negb].
    cbn [Token_String].
    apply Forall_cons in Hall. destruct Hall as [Hn0 Hall].
    unfold shown_key in Hn0. cbn [fst] in Hn0.
    apply String.eqb_neq in Hn0. rewrite Hn0.
    erewrite SkipValue_value by reflexivity.
    rewrite (IH fuel _ k _ name val after rest);
      [reflexivity|reflexivity|cbn in Hfuel; lia|assumption|assumption].
Qed.

Lemma navigateObjectKey_enter (s : extractState) (ms : list (string * json))
    (rest : list Token) (k : string) :
  pending (decoder s) = tokens_of (JObject ms) ++ rest ->
  navigateObjectKey s k =
  match searchKey (S (length (flat_map member_tokens ms ++ EndObject :: rest)))
          (with_decoder s (mkDecoder (flat_map member_tokens ms ++ EndObject :: rest)
                             (tail (decoder s)))) k [] with
  | Some r => r
  | None => (with_decoder s (mkDecoder (flat_map member_tokens ms ++ EndObject :: rest)
                               (tail (decoder s))),
             Some (Foreign "jsontext" "no progress"))
  end.
Proof.
  intros Hp. unfold navigateObjectKey, PeekKind, ReadToken. rewrite Hp.
  cbn [tokens_of app Token_Kind kind_is]. change (Ascii.eqb "{" "{") with true.
  cbn [negb]. rewrite <- app_assoc. reflexivity.
Qed.

Lemma navigateObjectKey_found
    (s : extractState) (before : list (string * json)) (name : string) (val : json)
    (after : list (string * json)) (rest : list Token) (k : string) :
  pending (decoder s) = tokens_of (JObject (before ++ (name, val) :: after)) ++ rest ->
  Forall (fun kv => shown_key kv <> k) before ->
  unquote_key name = k ->
  navigateObjectKey s k =
  (with_decoder s
     (mkDecoder (tokens_of val ++ flat_map member_tokens after ++ EndObject :: rest)
        (tail (decoder s))),
   None).
Proof.
  intros Hp Hbefore Hname.
  rewrite (navigateObjectKey_enter _ _ _ _ Hp).
  erewrite searchKey_present; [reflexivity | reflexivity | | exact Hbefore | exact Hname].
  rewrite length_app.
  pose proof (flat_members_length (before ++ (name, val) :: after)) as Hl.
  rewrite length_app in Hl. cbn [length] in *. lia.
Qed.

Lemma navigateObjectKey_missing
    (s : extractState) (ms : list (string * json)) (rest : list Token) (k : string) :
  pending (decoder s) = tokens_of (JObject ms) ++ rest ->
  Forall (fun kv => shown_key kv <> k) ms ->
  navigateObjectKey s k =
  (with_decoder s (mkDecoder (EndObject :: rest) (tail (decoder s))),
   Some (key_not_found s k (map shown_key ms))).
Proof.
  intros Hp Hall.
  rewrite (navigateObjectKey_enter _ _ _ _ Hp).
  erewrite searchKey_absent; [reflexivity | reflexivity | | exact Hall].
  rewrite length_app. pose proof (flat_members_length ms). cbn [length]. lia.
Qed.

Lemma navigateObjectKey_not_object
    (s : extractState) (v : json) (rest : list Token) (k : string) :
  pending (decoder s) = tokens_of v ++ rest ->
  (forall ms, v <> JObject ms) ->
  exists err : error,
    navigateObjectKey s k = (s, Some err) /\
    errors.Is err ErrJSONPathTraversalFailed = true /\
    errors.Is err ErrJSONPathExpectedObjectAtSegment = true.
Proof.
  intros Hp Hobj. eexists. unfold navigateObjectKey.
  rewrite (PeekKind_value _ _ _ Hp).
  assert (Hk : kind_is (value_kind v) "{"%char = false).
  { destruct v as [|[]| | | |ms]; try reflexivity. now destruct (Hobj ms). }
  rewrite Hk. cbn [negb]. split; [reflexivity|]. now apply Is_enriched.
Qed.

(** C8, amended.  With the cursor at a value, navigateObjectKey k fails
    with ExpectedObjectAtSegment when the value is not an object.  When it
    is an object, member names are compared after the quote removal: at the
    first member whose name then equals k navigation stops with the cursor
    at that member's value, which is not consumed; if there is none it
    fails with PathSegmentNotFound, reporting k and the names of all
    members, each after the quote removal. *)
Theorem navigateObjectKey_at_value
    (s : extractState) (v : json) (rest : list Token) (k : string) :
  pending (decoder s) = tokens_of v ++ rest ->
  ((forall ms, v <> JObject ms) ->
   exists err : error,
     navigateObjectKey s k = (s, Some err) /\
     errors.Is err ErrJSONPathExpectedObjectAtSegment = true) /\
  (forall before name val after,
     v = JObject (before ++ (name, val) :: after) ->
     Forall (fun kv => unquote_key (fst kv) <> k) before ->
     unquote_key name = k ->
     exists d' : Decoder,
       navigateObjectKey s k = (with_decoder s d', None) /\
       pending d' = tokens_of val ++ flat_map member_tokens after ++ EndObject :: rest) /\
  (forall ms,
     v = JObject ms ->
     Forall (fun kv => unquote_key (fst kv) <> k) ms ->
     exists (d' : Decoder) (err : error),
       navigateObjectKey s k = (with_decoder s d', Some err) /\
       errors.Is err ErrJSONPathSegmentNotFound = true /\
       kv_get err "missing_key" = Some (VStr k) /\
       kv_get err "available_keys" =
         Some (VStrs (map (fun kv => unquote_key (fst kv)) ms))).
Proof.
  intros Hp. split; [|split].
  - intros Hobj.
    destruct (navigateObjectKey_not_object s v rest k Hp Hobj) as (err & Hn & _ & He).
    exists err. split; assumption.
  - intros before name val after -> Hbefore Hname. eexists.
    rewrite (navigateObjectKey_found s before name val after rest k Hp Hbefore Hname).
    split; reflexivity.
  - intros ms -> Hall. eexists _, _.
    rewrite (navigateObjectKey_missing s ms rest k Hp Hall).
    split; [reflexivity|].
    destruct (key_not_found_facts s k (map shown_key ms)) as (_ & H1 & H2 & H3).
    repeat split; assumption.
Qed.

(** ** Member names wrapped in double quotes *)

Lemma string_length_append (a b : string) :
  String.length (a ++ b) = (String.length a + String.length b)%nat.
Proof.
  induction a as [|c a IH]; [reflexivity|].
  change (S (String.length (a ++ b)) = S (String.length a + String.length b)).
  now rewrite IH.
Qed.

Lemma bytes_of_append (a b : string) :
  bytes_of (a ++ b) = (bytes_of a ++ bytes_of b)%list.
Proof.
  unfold bytes_of. induction a as [|c a IH]; [reflexivity|].
  change (c :: list_ascii_of_string (a ++ b)
          = c :: (list_ascii_of_string a ++ list_ascii_of_string b)%list).
  now rewrite IH.
Qed.

Lemma unquote_key_in_quotes (inner : string) : unquote_key (in_quotes inner) = inner.
Proof.
  unfold unquote_key, in_quotes.
  change (bytes_of (String dquote (inner ++ String dquote EmptyString)))
    with (dquote :: bytes_of (inner ++ String dquote EmptyString)).
  rewrite bytes_of_append. change (bytes_of (String dquote EmptyString)) with [dquote].
  destruct (bytes_of inner ++ [dquote])%list as [|b r] eqn:Hbr.
  { destruct (bytes_of inner); discriminate. }
  rewrite <- Hbr. rewrite last_last, removelast_last.
  cbn. apply string_of_list_ascii_of_string.
Qed.

Lemma in_quotes_longer (inner : string) : inner <> in_quotes inner.
Proof.
  intros H. apply (f_equal String.length) in H. unfold in_quotes in H.
  cbn [String.length] in H. rewrite string_length_append in H.
  cbn [String.length] in H. lia.
Qed.

(** C9. In key navigation a decoded member name that begins and ends with a
    double quote loses both quotes before it is compared and recorded.  For
    an object with a member named "inner" in quotes: the segment inner
    equals the stripped name, and navigation by it stops at that member's
    value unless an earlier member matches; the segment equal to the name
    itself, quotes included, differs from the stripped name, and navigation
    by it runs past the member and, no other member matching, fails with
    PathSegmentNotFound, listing the member as inner. *)
Theorem navigateObjectKey_quoted_name
    (s : extractState) (before after : list (string * json)) (inner : string)
    (val : json) (rest : list Token) :
  pending (decoder s) =
    tokens_of (JObject (before ++ (in_quotes inner, val) :: after)) ++ rest ->
  String.eqb (unquote_key (in_quotes inner)) inner = true /\
  String.eqb (unquote_key (in_quotes inner)) (in_quotes inner) = false /\
  (Forall (fun kv => unquote_key (fst kv) <> inner) before ->
   exists d' : Decoder,
     navigateObjectKey s inner = (with_decoder s d', None) /\
     pending d' = tokens_of val ++ flat_map member_tokens after ++ EndObject :: rest) /\
  (Forall (fun kv => unquote_key (fst kv) <> in_quotes inner) (before ++ after) ->
   exists (d' : Decoder) (err : error),
     navigateObjectKey s (in_quotes inner) = (with_decoder s d', Some err) /\
     errors.Is err ErrJSONPathSegmentNotFound = true /\
     kv_get err "missing_key" = Some (VStr (in_quotes inner)) /\
     kv_get err "available_keys" =
       Some (VStrs (map shown_key before ++ inner :: map shown_key after))).
Proof.
  intros Hp. rewrite unquote_key_in_quotes. split; [apply String.eqb_refl|].
  split; [apply String.eqb_neq, in_quotes_longer|]. split.
  - intros Hbefore. eexists.
    rewrite (navigateObjectKey_found s before (in_quotes inner) val after rest inner Hp Hbefore
               (unquote_key_in_quotes inner)).
    split; reflexivity.
  - intros Hothers. apply Forall_app in Hothers. destruct Hothers as [Hb Ha].
    assert (Hall : Forall (fun kv => shown_key kv <> in_quotes inner)
                     (before ++ (in_quotes inner, val) :: after)).
    { apply Forall_app. split; [exact Hb|]. constructor; [|exact Ha].
      unfold shown_key. cbn [fst]. rewrite unquote_key_in_quotes. apply in_quotes_longer. }
    eexists _, _. rewrite (navigateObjectKey_missing s _ rest _ Hp Hall).
    split; [reflexivity|].
    destruct (key_not_found_facts s (in_quotes inner)
                (map shown_key (before ++ (in_quotes inner, val) :: after)))
      as (_ & H1 & H2 & H3).
    repeat split; try assumption.
    rewrite H3, map_app. cbn [map]. unfold shown_key at 2. cbn [fst].
    now rewrite unquote_key_in_quotes.
Qed.

(** ** Extraction of a resolved value *)

Lemma plain_until_split (k : string) (ms : list (string * json)) (val : json) :
  lookup_member k ms = Some val ->
  plain_until k ms = true ->
  exists before after,
    ms = before ++ (k, val) :: after /\
    Forall (fun kv => shown_key kv <> k) before /\
    unquote_key k = k.
Proof.
  induction ms as [|[n v] ms IH]; intros Hl Hp; [discriminate|].
  cbn [lookup_member plain_until fst snd] in Hl, Hp.
  apply andb_true_iff in Hp. destruct Hp as [Hplain Hp].
  unfold quote_wrapped in Hplain. rewrite negb_involutive in Hplain.
  apply String.eqb_eq in Hplain.
  destruct (String.eqb_spec n k) as [->|Hne].
  - injection Hl as ->. exists [], ms. repeat split; [constructor|assumption].
  - cbn [orb] in Hp. destruct (IH Hl Hp) as (before & after & -> & Hall & Hk).
    exists ((n, v) :: before), after. repeat split; [|assumption].
    constructor; [|assumption]. unfold shown_key. cbn [fst]. rewrite Hplain. assumption.
Qed.

(** The segment loop follows [resolve]. *)
Lemma navigateSegments_resolves (segs : list string) :
  forall (s : extractState) (i : nat) (v : json) (rest : list Token) (u : json),
    pending (decoder s) = tokens_of v ++ rest ->
    resolve v segs = Some u ->
    plain_path v segs = true ->
    exists (s' : extractState) (rest' : list Token),
      navigateSegments s i segs = (s', None) /\
      pending (decoder s') = tokens_of u ++ rest'.
Proof.
  induction segs as [|seg segs IH]; intros s i v rest u Hp Hres Hplain.
  - cbn in Hres. injection Hres as <-. exists s, rest. split; [reflexivity|assumption].
  - cbn [resolve plain_path navigateSegments] in *.
    destruct (String.eqb seg EmptyString); [discriminate|].
    unfold navigateToSegment.
    destruct (strconv.Atoi seg) as [idx|].
    + destruct v as [| | | |elems|]; try discriminate.
      destruct (Z.ltb_spec idx 0) as [|Hlo]; [discriminate|].
      destruct (elems !! Z.to_nat idx) as [e|] eqn:He; [|discriminate].
      rewrite (navigateArrayIndex_within (with_position s i) elems rest idx e Hp Hlo He).
      eapply IH; [reflexivity | exact Hres | exact Hplain].
    + destruct v as [| | | | |ms]; try discriminate.
      apply andb_true_iff in Hplain. destruct Hplain as [Hpu Hplain].
      destruct (lookup_member seg ms) as [e|] eqn:He; [|discriminate].
      destruct (plain_until_split _ _ _ He Hpu) as (before & after & -> & Hall & Hk).
      rewrite (navigateObjectKey_found (with_position s i) before seg e after rest seg
                 Hp Hall Hk).
      eapply IH; [reflexivity | exact Hres | exact Hplain].
Qed.

Lemma len_zero (s : string) : (len s =? 0) = true -> s = EmptyString.
Proof. destruct s; [reflexivity|]. unfold len. cbn. discriminate. Qed.

Lemma len_nonzero (s : string) : s <> EmptyString -> (len s =? 0) = false.
Proof.
  intros H. destruct (len s =? 0) eqn:E; [|reflexivity]. now apply len_zero in E.
Qed.

Lemma extractSingleValue_resolves
    (raw : string) (doc : json) (rest : list Token) (sel : Selector) (v : json) (a : any) :
  pending (NewDecoder (gobytes.NewReader raw)) = tokens_of doc ++ rest ->
  resolve doc (gostrings.Split sel "."%char) = Some v ->
  plain_path doc (gostrings.Split sel "."%char) = true ->
  to_any v = Some a ->
  extractSingleValue (gobytes.NewReader raw) sel raw = (a, None).
Proof.
  intros Hp Hres Hplain Ha. unfold extractSingleValue.
  rewrite len_nonzero.
  2:{ intros ->. cbn in Hres. discriminate. }
  unfold newExtractState. cbn [segments].
  destruct (navigateSegments_resolves _
              (mkState (NewDecoder (gobytes.NewReader raw)) sel
                 (gostrings.Split sel "."%char) [] O raw) O doc rest v Hp Hres Hplain)
    as (s' & rest' & -> & Hp').
  rewrite (UnmarshalDecode_value _ _ _ _ Hp' Ha). reflexivity.
Qed.

(** ** The batch loop *)

Lemma failures_cons (raw : string) (sel : Selector) (rest : list Selector) :
  failures raw (sel :: rest) =
  match snd (outcome raw sel) with
  | Some e => e :: failures raw rest
  | None => failures raw rest
  end.
Proof. unfold failures. cbn [flat_map]. destruct (snd (outcome raw sel)); reflexivity. Qed.

(** The loop collects the errors in order and enters the value of every
    succeeding selector under its key. *)
Lemma extractEach_spec (raw : string) (selectors : list Selector) :
  forall (vm : gmap Selector any) (errs : list error),
    snd (extractEach raw selectors vm errs) = (errs ++ failures raw selectors)%list /\
    forall s : Selector,
      fst (extractEach raw selectors vm errs) !! s =
      if bool_decide (s ∈ selectors) then
        match outcome raw s with
        | (v, None) => Some v
        | (_, Some _) => vm !! s
        end
      else vm !! s.
Proof.
  induction selectors as [|x r IH]; intros vm errs.
  - cbn. split; [now rewrite app_nil_r|]. intros s.
    rewrite bool_decide_eq_false_2 by apply not_elem_of_nil. reflexivity.
  - cbn [extractEach]. fold (outcome raw x). rewrite failures_cons.
    destruct (outcome raw x) as [v [e|]] eqn:Hx; cbn [snd].
    + destruct (IH vm (errs ++ [e])%list) as [Herrs Hvm].
      split; [rewrite Herrs, <- app_assoc; reflexivity|].
      intros s. rewrite Hvm.
      destruct (decide (s = x)) as [->|Hne].
      * rewrite (bool_decide_eq_true_2 (x ∈ x :: r)) by apply list_elem_of_here.
        rewrite Hx. destruct (bool_decide (x ∈ r)); reflexivity.
      * rewrite (bool_decide_ext (s ∈ x :: r) (s ∈ r)); [reflexivity|].
        rewrite elem_of_cons. tauto.
    + destruct (IH (<[x := v]> vm) errs) as [Herrs Hvm].
      split; [exact Herrs|].
      intros s. rewrite Hvm.
      destruct (decide (s = x)) as [->|Hne].
      * rewrite (bool_decide_eq_true_2 (x ∈ x :: r)) by apply list_elem_of_here.
        rewrite Hx, lookup_insert_eq. destruct (bool_decide (x ∈ r)); reflexivity.
      * rewrite lookup_insert_ne by congruence.
        rewrite (bool_decide_ext (s ∈ x :: r) (s ∈ r)); [reflexivity|].
        rewrite elem_of_cons. tauto.
Qed.

Lemma collectNotFound_filter (vm : gmap Selector any) (selectors : list Selector) :
  forall acc, collectNotFound vm selectors acc = (acc ++ List.filter (absent vm) selectors)%list.
Proof.
  induction selectors as [|x r IH]; intros acc; cbn [collectNotFound List.filter].
  - now rewrite app_nil_r.
  - unfold absent at 1. destruct (vm !! x).
    + apply IH.
    + rewrite IH, <- app_assoc. reflexivity.
Qed.

Lemma batch_map_lookup (raw : string) (selectors : list Selector) (s : Selector) :
  batch_map raw selectors !! s =
  if bool_decide (s ∈ selectors) then
    match outcome raw s with
    | (v, None) => Some v
    | (_, Some _) => None
    end
  else None.
Proof.
  unfold batch_map. destruct (extractEach_spec raw selectors ∅ []) as [_ H].
  rewrite H, lookup_empty. reflexivity.
Qed.

Lemma absent_batch_map (raw : string) (selectors : list Selector) (s : Selector) :
  s ∈ selectors -> absent (batch_map raw selectors) s = fails raw s.
Proof.
  intros Hin. unfold absent, fails. rewrite batch_map_lookup.
  rewrite bool_decide_eq_true_2 by assumption.
  destruct (outcome raw s) as [v [e|]]; reflexivity.
Qed.

Lemma filter_absent_fails (raw : string) (selectors : list Selector) :
  List.filter (absent (batch_map raw selectors)) selectors = List.filter (fails raw) selectors.
Proof.
  apply filter_ext_in. intros s Hin. apply absent_batch_map. now apply list_elem_of_In.
Qed.

(** The result of the batch operation once the input is accepted: a
    readable source and at least one selector. *)
Lemma ExtractValuesFromReader_accepted (raw : string) (selectors : list Selector) :
  selectors <> [] ->
  ExtractValuesFromReader (Some (mkReader raw None)) selectors =
  (batch_map raw selectors,
   List.filter (absent (batch_map raw selectors)) selectors,
   CombineErrs (failures raw selectors)).
Proof.
  intros Hne. unfold ExtractValuesFromReader.
  destruct selectors as [|x r]; [contradiction|].
  cbn [length Nat.eqb readAllBytes data fault].
  unfold batch_map.
  destruct (extractEach_spec raw (x :: r) ∅ []) as [Herrs _].
  destruct (extractEach raw (x :: r) ∅ []) as [vm errs]. cbn [fst snd] in *.
  rewrite collectNotFound_filter. cbn [app]. subst errs. cbn [app].
  destruct (failures raw (x :: r)); reflexivity.
Qed.

Lemma ExtractValuesFromBytes_nonempty (raw : string) (selectors : list Selector) :
  raw <> EmptyString ->
  ExtractValuesFromBytes raw selectors =
  ExtractValuesFromReader (Some (gobytes.NewReader raw)) selectors.
Proof. intros H. unfold ExtractValuesFromBytes. now rewrite len_nonzero. Qed.

Lemma partitions_accepted (raw : string) (selectors : list Selector) :
  partitions selectors
    (batch_map raw selectors,
     List.filter (absent (batch_map raw selectors)) selectors,
     CombineErrs (failures raw selectors)).
Proof.
  unfold partitions. split; [reflexivity|]. split; [|split].
  - intros s Hin.
    destruct (batch_map raw selectors !! s) as [v|] eqn:Hs.
    + left. split; [eauto|]. rewrite list_elem_of_In, filter_In.
      unfold absent. rewrite Hs. intros [_ ?]. discriminate.
    + right. split; [reflexivity|]. rewrite list_elem_of_In, filter_In.
      unfold absent. rewrite Hs. split; [now apply list_elem_of_In|reflexivity].
  - intros s [v Hv]. rewrite batch_map_lookup in Hv.
    destruct (bool_decide_reflect (s ∈ selectors)); [assumption|discriminate].
  - intros s. rewrite !list_elem_of_In, filter_In. tauto.
Qed.

(** C2. Once the input is accepted (a readable source, a non-empty
    selector list), the batch operation returns a map and a not-found list
    that partition the selectors: every input selector is a key of the map
    or occurs in the not-found list, never both, never neither; and the
    not-found list is the selector list without the keys of the map, in
    the original order.  This holds for the reader variant and, the bytes
    being non-empty, for the bytes variant. *)
Theorem batch_partition (raw : string) (selectors : list Selector) :
  selectors <> [] ->
  partitions selectors (ExtractValuesFromReader (Some (mkReader raw None)) selectors) /\
  (raw <> EmptyString -> partitions selectors (ExtractValuesFromBytes raw selectors)).
Proof.
  intros Hne. split.
  - rewrite (ExtractValuesFromReader_accepted raw selectors Hne). apply partitions_accepted.
  - intros Hraw. rewrite (ExtractValuesFromBytes_nonempty raw selectors Hraw).
    change (gobytes.NewReader raw) with (mkReader raw None).
    rewrite (ExtractValuesFromReader_accepted raw selectors Hne). apply partitions_accepted.
Qed.

Lemma failures_nil (raw : string) (selectors : list Selector) :
  failures raw selectors = [] <-> forall s, s ∈ selectors -> fails raw s = false.
Proof.
  induction selectors as [|x r IH].
  - split; [intros _ s Hs; now apply not_elem_of_nil in Hs | reflexivity].
  - rewrite failures_cons. unfold fails at 1.
    destruct (snd (outcome raw x)) as [e|] eqn:Hx.
    + split; [discriminate|]. intros H. specialize (H x (list_elem_of_here x r)).
      unfold fails in H. rewrite Hx in H. discriminate.
    + rewrite IH. split.
      * intros H s Hs. apply elem_of_cons in Hs. destruct Hs as [->|Hs]; [|now apply H].
        unfold fails. now rewrite Hx.
      * intros H s Hs. apply H. now apply list_elem_of_further.
Qed.

Lemma failures_nonempty (raw : string) (selectors : list Selector) :
  failures raw selectors <> [] -> exists s, s ∈ selectors /\ fails raw s = true.
Proof.
  induction selectors as [|x r IH]; [intros H; now destruct H|].
  rewrite failures_cons. destruct (snd (outcome raw x)) as [e|] eqn:Hx.
  - intros _. exists x. split; [apply list_elem_of_here|]. unfold fails. now rewrite Hx.
  - intros H. destruct (IH H) as (s & Hs & Hf).
    exists s. split; [now apply list_elem_of_further|assumption].
Qed.

(** The not-found occurrences and the collected errors go in step. *)
Lemma failures_aligned (raw : string) (selectors : list Selector) :
  Forall2 (fun sel x => snd (outcome raw sel) = Some x)
    (List.filter (fails raw) selectors) (failures raw selectors).
Proof.
  induction selectors as [|x r IH]; [constructor|].
  rewrite failures_cons. cbn [List.filter]. unfold fails at 1.
  destruct (snd (outcome raw x)) as [e|] eqn:Hx; [|exact IH].
  constructor; assumption.
Qed.

Lemma count_occ_filter (f : Selector -> bool) (l : list Selector) (s : Selector) :
  count_occ string_dec (List.filter f l) s =
  if f s then count_occ string_dec l s else O.
Proof.
  induction l as [|x r IH]; [now destruct (f s)|].
  cbn [List.filter count_occ]. destruct (f x) eqn:Hfx.
  - cbn [count_occ]. destruct (string_dec x s) as [->|Hne].
    + rewrite Hfx in *. now rewrite IH.
    + exact IH.
  - rewrite IH. destruct (string_dec x s) as [->|Hne]; [now rewrite Hfx|reflexivity].
Qed.

Lemma Is_joined (es : list error) (x : error) (t : sentinel) :
  x ∈ es -> errors.Is x t = true -> errors.Is (Joined es) t = true.
Proof.
  intros Hin Hx. cbn [errors.Is]. apply existsb_exists.
  exists x. split; [now apply list_elem_of_In|assumption].
Qed.

(** C6. For a valid input (a readable source, a non-empty selector list)
    the batch operation returns an error if and only if at least one
    selector failed; that error joins exactly the per-selector errors, in
    order, and every error kind of each of them can be identified on it;
    the map of the resolved values and the not-found list are returned
    along with it: the map has the value of every selector that resolved,
    the not-found list the failing selectors. *)
Theorem batch_error_aggregation (raw : string) (selectors : list Selector) :
  selectors <> [] ->
  let '(valuesMap, notFound, err) :=
    ExtractValuesFromReader (Some (mkReader raw None)) selectors in
  (err <> None <-> exists s, s ∈ selectors /\ fails raw s = true) /\
  (forall e, err = Some e ->
     joined_errors e = failures raw selectors /\
     forall x t, x ∈ failures raw selectors ->
       errors.Is x t = true -> errors.Is e t = true) /\
  (forall s v, s ∈ selectors -> outcome raw s = (v, None) -> valuesMap !! s = Some v) /\
  notFound = List.filter (fails raw) selectors.
Proof.
  intros Hne. rewrite (ExtractValuesFromReader_accepted raw selectors Hne).
  split; [|split; [|split]].
  - destruct (failures raw selectors) as [|e es] eqn:Hf; cbn [CombineErrs].
    + split; [congruence|]. intros (s & Hs & Hfail).
      rewrite (proj1 (failures_nil raw selectors) Hf s Hs) in Hfail. discriminate.
    + split; [|discriminate]. intros _.
      apply failures_nonempty. rewrite Hf. discriminate.
  - intros e He. destruct (failures raw selectors) as [|e0 es] eqn:Hf; [discriminate|].
    cbn [CombineErrs] in He. injection He as <-. split; [reflexivity|].
    intros x t Hx. now apply Is_joined.
  - intros s v Hs Hv. rewrite batch_map_lookup, bool_decide_eq_true_2 by assumption.
    now rewrite Hv.
  - apply filter_absent_fails.
Qed.

(** C10. A selector that occurs several times in the selector list is
    traversed once per occurrence.  If it resolves, the map has its value
    under the one key and the not-found list has no occurrence of it.  If
    it fails, the map has no entry for it, the not-found list has as many
    occurrences of it as the selector list, and the aggregated error joins
    one error for every entry of the not-found list, in the same order. *)
Theorem batch_repeated_selector (raw : string) (selectors : list Selector) (s : Selector) :
  s ∈ selectors ->
  let '(valuesMap, notFound, err) :=
    ExtractValuesFromReader (Some (mkReader raw None)) selectors in
  (forall v, outcome raw s = (v, None) ->
     valuesMap !! s = Some v /\ count_occ string_dec notFound s = O) /\
  (fails raw s = true ->
     valuesMap !! s = None /\
     count_occ string_dec notFound s = count_occ string_dec selectors s /\
     exists e, err = Some e /\
       Forall2 (fun sel x => snd (outcome raw sel) = Some x) notFound (joined_errors e)).
Proof.
  intros Hs.
  assert (Hne : selectors <> []) by (intros ->; now apply not_elem_of_nil in Hs).
  rewrite (ExtractValuesFromReader_accepted raw selectors Hne).
  rewrite filter_absent_fails. split.
  - intros v Hv. rewrite batch_map_lookup, bool_decide_eq_true_2 by assumption.
    rewrite Hv. split; [reflexivity|].
    rewrite count_occ_filter. unfold fails. now rewrite Hv.
  - intros Hfail. rewrite batch_map_lookup, bool_decide_eq_true_2 by assumption.
    rewrite count_occ_filter, Hfail.
    split; [|split; [reflexivity|]].
    + unfold fails in Hfail. destruct (outcome raw s) as [v [e|]]; [reflexivity|discriminate].
    + destruct (failures raw selectors) as [|e0 es] eqn:Hf.
      * rewrite (proj1 (failures_nil raw selectors) Hf s Hs) in Hfail. discriminate.
      * exists (Joined (e0 :: es)). split; [reflexivity|].
        cbn [joined_errors]. rewrite <- Hf. apply failures_aligned.
Qed.

(** ** The single-value wrappers *)

Lemma wrapped_facts (via : sentinel) (sel : Selector) (e : error) :
  via <> ErrJSONSelectorNotFound ->
  errors.Is (wrapped via sel e) ErrFailedToExtractValueFromJSON = true /\
  errors.Is (wrapped via sel e) ErrJSONSelectorNotFound
    = errors.Is e ErrJSONSelectorNotFound /\
  (forall t, errors.Is e t = true -> errors.Is (wrapped via sel e) t = true).
Proof.
  intros Hvia. unfold wrapped, WithErr, NewErr.
  cbn [leading_errors pairs_and_cause sent str errors.Is existsb].
  split; [reflexivity|]. split.
  - rewrite (bool_decide_eq_false_2 (via = ErrJSONSelectorNotFound)) by assumption.
    reflexivity.
  - intros t Ht. rewrite Ht. now rewrite !orb_true_r.
Qed.

Lemma singleResult_from_batch (via : sentinel) (sel : Selector)
    (vm : gmap Selector any) (nf : list Selector) (err : option error) :
  via <> ErrJSONSelectorNotFound ->
  (nf <> [] -> err <> None) ->
  (err = None -> exists v, vm !! sel = Some v) ->
  single_from_batch via sel (vm, nf, err) (singleResult via sel (vm, nf, err)).
Proof.
  intros Hvia Hnf Hok. unfold single_from_batch, singleResult.
  split; [exact Hnf|]. destruct err as [e|].
  - split; [reflexivity|]. now apply wrapped_facts.
  - assert (Hnil : nf = []).
    { destruct nf; [reflexivity|]. exfalso. now apply Hnf. }
    split; [exact Hnil|]. destruct (Hok eq_refl) as [v Hv].
    exists v. split; [exact Hv|]. subst nf. cbn [length Nat.ltb Nat.leb].
    now rewrite Hv.
Qed.

Lemma batch_of_one (raw : string) (sel : Selector) :
  let '(vm, nf, err) := ExtractValuesFromReader (Some (mkReader raw None)) [sel] in
  (nf <> [] -> err <> None) /\ (err = None -> exists v, vm !! sel = Some v).
Proof.
  rewrite ExtractValuesFromReader_accepted by discriminate.
  rewrite filter_absent_fails. cbn [List.filter]. rewrite failures_cons.
  unfold failures. cbn [flat_map]. unfold fails.
  rewrite batch_map_lookup, bool_decide_eq_true_2 by apply list_elem_of_here.
  destruct (outcome raw sel) as [v [e|]]; cbn [snd CombineErrs].
  - split; [discriminate|]. discriminate.
  - split; [intros H; now destruct H|]. intros _. now exists v.
Qed.

(** ** No traversal error is SelectorNotFound *)

Lemma clean_entry (es : list error) (kvs : list (string * kvalue)) (c : option error) :
  Forall clean es -> (forall x, c = Some x -> clean x) -> clean (Entry es kvs c).
Proof.
  intros Hes Hc. unfold clean. cbn [errors.Is]. apply orb_false_iff. split.
  - induction Hes as [|e es He Hes IH]; [reflexivity|].
    cbn [existsb]. rewrite He. exact IH.
  - destruct c as [x|]; [now apply Hc|reflexivity].
Qed.

Lemma clean_enriched (s : extractState) (es : list error) (rest : list part) :
  count_sentinels rest = O ->
  Forall clean es ->
  (forall x, snd (pairs_and_cause rest) = Some x -> clean x) ->
  clean (enrichError s (map PErr es ++ rest)).
Proof.
  intros Hrest Hes Hc. rewrite (enrichError_shape _ _ _ Hrest).
  destruct (pairs_and_cause rest) as [kvs c]. now apply clean_entry.
Qed.

Lemma clean_sentinel (t : sentinel) : t <> ErrJSONSelectorNotFound -> clean (Sentinel t).
Proof. intros H. unfold clean. cbn. now apply bool_decide_eq_false_2. Qed.

Lemma clean_tail_error (d : Decoder) : clean_decoder d -> clean (tail_error (tail d)).
Proof. unfold clean_decoder. destruct (tail d); intros H; try reflexivity. exact H. Qed.

Lemma scan_no_fault (fuel : nat) :
  forall (l : list ascii) (stack : list frame) (e : error),
    snd (scan fuel l stack) <> ReadFault e.
Proof.
  induction fuel as [|fuel IH]; intros l stack e; cbn [scan]; [discriminate|].
  destruct (skip_space l) as [|c r]; [destruct stack; discriminate|].
  assert (Hstep : forall (delim : option ascii) (l1 : list ascii),
             snd match l1 with
                 | [] => ([], Truncated)
                 | c1 :: _ =>
                     if bool_decide (needDelim stack (normalize c1) = delim) then
                       match lex_token l1 with
                       | Some (t, l2) =>
                           match advance t stack with
                           | Some st => let (ts, tl) := scan fuel l2 st in (t :: ts, tl)
                           | None => ([], Malformed (normalize c1))
                           end
                       | None => ([], Malformed (normalize c1))
                       end
                     else ([], Malformed invalidKind)
                 end <> ReadFault e).
  { intros delim [|c1 r1]; [discriminate|].
    destruct (bool_decide _); [|discriminate].
    destruct (lex_token (c1 :: r1)) as [[t l2]|]; [|discriminate].
    destruct (advance t stack) as [st|]; [|discriminate].
    specialize (IH l2 st e). destruct (scan fuel l2 st). exact IH. }
  destruct (Ascii.eqb c ":" || Ascii.eqb c ",").
  - exact (Hstep (Some c) (skip_space r)).
  - exact (Hstep None (c :: r)).
Qed.

Lemma NewDecoder_clean (raw : string) : clean_decoder (NewDecoder (gobytes.NewReader raw)).
Proof.
  unfold clean_decoder, NewDecoder. cbn [gobytes.NewReader data fault].
  pose proof (scan_no_fault (S (length (bytes_of raw))) (bytes_of raw) []) as H.
  destruct (scan (S (length (bytes_of raw))) (bytes_of raw) []) as [ts tl].
  cbn [tail snd] in *. destruct tl; try exact I. now destruct (H e).
Qed.

Lemma ReadToken_clean (d d' : Decoder) (r : result Token) :
  clean_decoder d -> ReadToken d = (d', r) ->
  clean_decoder d' /\ forall e, r = Fail e -> clean e.
Proof.
  intros Hd. unfold ReadToken. destruct (pending d) as [|t ts]; intros H; injection H as <- <-.
  - split; [exact Hd|]. intros e He. injection He as <-. now apply clean_tail_error.
  - split; [exact Hd|]. discriminate.
Qed.

Lemma SkipValue_clean (d d' : Decoder) (r : option error) :
  clean_decoder d -> SkipValue d = (d', r) ->
  clean_decoder d' /\ forall e, r = Some e -> clean e.
Proof.
  intros Hd. unfold SkipValue. destruct (skip_tokens O (pending d)); intros H; injection H as <- <-.
  - split; [exact Hd|]. discriminate.
  - split; [exact Hd|]. intros e He. injection He as <-.
    destruct (pending d) as [|t ts]; [now apply clean_tail_error|].
    destruct (closes t); [reflexivity|now apply clean_tail_error].
Qed.

Lemma UnmarshalDecode_clean (d d' : Decoder) (v : any) (r : option error) :
  clean_decoder d -> jsonv2.UnmarshalDecode d = (d', v, r) ->
  forall e, r = Some e -> clean e.
Proof.
  intros Hd. unfold jsonv2.UnmarshalDecode.
  destruct (jsonv2.decode_value _ _) as [[a ts]|]; intros H; injection H as <- <- <-.
  - discriminate.
  - intros e He. injection He as <-.
    destruct (skip_tokens O (pending d)); [reflexivity|now apply clean_tail_error].
Qed.

Ltac clean_enriched_error :=
  match goal with
  | |- clean (enrichError ?s (sent ?a :: sent ?b :: ?rest)) =>
      change (sent a :: sent b :: rest) with (map PErr [Sentinel a; Sentinel b] ++ rest);
      apply clean_enriched;
      [ reflexivity
      | repeat constructor; apply clean_sentinel; discriminate
      | cbn; intros ? Hcause; try discriminate Hcause;
        injection Hcause as <-; auto ]
  end.

Lemma skipElements_clean (todo : nat) :
  forall (s s' : extractState) (targetIdx currentIdx c' : Z) (err : option error),
    clean_decoder (decoder s) ->
    skipElements todo s targetIdx currentIdx = (s', err, c') ->
    clean_decoder (decoder s') /\ forall e, err = Some e -> clean e.
Proof.
  induction todo as [|k IH]; intros s s' targetIdx currentIdx c' err Hd H;
    cbn [skipElements] in H.
  - injection H as <- <- <-. split; [exact Hd|discriminate].
  - destruct (kind_is (PeekKind (decoder s)) "]"%char).
    + injection H as <- <- <-. split; [exact Hd|].
      intros e He. injection He as <-. clean_enriched_error.
    + destruct (SkipValue (decoder s)) as [d r] eqn:Hskip.
      destruct (SkipValue_clean _ _ _ Hd Hskip) as [Hd' Hr].
      destruct r as [e0|].
      * injection H as <- <- <-. split; [exact Hd'|].
        intros e He. injection He as <-. specialize (Hr e0 eq_refl). clean_enriched_error.
      * eapply IH; [|exact H]. exact Hd'.
Qed.

Lemma navigateArrayIndex_clean (s s' : extractState) (i : Z) (err : option error) :
  clean_decoder (decoder s) ->
  navigateArrayIndex s i = (s', err) ->
  clean_decoder (decoder s') /\ forall e, err = Some e -> clean e.
Proof.
  intros Hd H. unfold navigateArrayIndex in H.
  destruct (i <? 0).
  { injection H as <- <-. split; [exact Hd|].
    intros e He. injection He as <-. clean_enriched_error. }
  destruct (negb (kind_is (PeekKind (decoder s)) "["%char)).
  { injection H as <- <-. split; [exact Hd|].
    intros e He. injection He as <-. clean_enriched_error. }
  destruct (ReadToken (decoder s)) as [d r] eqn:Hread.
  destruct (ReadToken_clean _ _ _ Hd Hread) as [Hd' Hr].
  destruct r as [t|e0].
  - destruct (skipElements (Z.to_nat i) (with_decoder s d) i 0) as [[s1 err1] c1] eqn:Hskip.
    destruct (skipElements_clean (Z.to_nat i) (with_decoder s d) s1 i 0 c1 err1 Hd' Hskip)
      as [Hd1 Herr1].
    destruct err1 as [e1|].
    + injection H as <- <-. split; [exact Hd1|].
      intros e He. injection He as <-. now apply Herr1.
    + destruct (kind_is (PeekKind (decoder s1)) "]"%char); injection H as <- <-.
      * split; [exact Hd1|]. intros e He. injection He as <-. clean_enriched_error.
      * split; [exact Hd1|discriminate].
  - injection H as <- <-. split; [exact Hd'|].
    intros e He. injection He as <-. specialize (Hr e0 eq_refl). clean_enriched_error.
Qed.

Lemma searchKey_clean (fuel : nat) :
  forall (s s' : extractState) (k : string) (avail : list string) (err : option error),
    clean_decoder (decoder s) ->
    searchKey fuel s k avail = Some (s', err) ->
    clean_decoder (decoder s') /\ forall e, err = Some e -> clean e.
Proof.
  induction fuel as [|fuel IH]; intros s s' k avail err Hd H; [discriminate|].
  cbn [searchKey] in H.
  destruct (negb (kind_is (PeekKind (decoder s)) "}"%char)).
  - destruct (ReadToken (decoder s)) as [d r] eqn:Hread.
    destruct (ReadToken_clean _ _ _ Hd Hread) as [Hd' Hr].
    destruct r as [t|e0].
    + destruct (String.eqb (unquote_key (Token_String t)) k).
      * injection H as <- <-. split; [exact Hd'|discriminate].
      * destruct (SkipValue (decoder (with_decoder s d))) as [d2 r2] eqn:Hskip.
        destruct (SkipValue_clean _ _ _ Hd' Hskip) as [Hd2 Hr2].
        destruct r2 as [e2|].
        -- injection H as <- <-. split; [exact Hd2|].
           intros e He. injection He as <-. specialize (Hr2 e2 eq_refl).
           clean_enriched_error.
        -- eapply IH; [|exact H]. exact Hd2.
    + injection H as <- <-. split; [exact Hd'|].
      intros e He. injection He as <-. specialize (Hr e0 eq_refl). clean_enriched_error.
  - injection H as <- <-. split; [exact Hd|].
    intros e He. injection He as <-. clean_enriched_error.
Qed.

Lemma navigateObjectKey_clean (s s' : extractState) (k : string) (err : option error) :
  clean_decoder (decoder s) ->
  navigateObjectKey s k = (s', err) ->
  clean_decoder (decoder s') /\ forall e, err = Some e -> clean e.
Proof.
  intros Hd H. unfold navigateObjectKey in H.
  destruct (negb (kind_is (PeekKind (decoder s)) "{"%char)).
  { injection H as <- <-. split; [exact Hd|].
    intros e He. injection He as <-. clean_enriched_error. }
  destruct (ReadToken (decoder s)) as [d r] eqn:Hread.
  destruct (ReadToken_clean _ _ _ Hd Hread) as [Hd' Hr].
  destruct r as [t|e0].
  - destruct (searchKey _ (with_decoder s d) k []) as [[s1 err1]|] eqn:Hsearch.
    + injection H as <- <-. eapply searchKey_clean; [|exact Hsearch]. exact Hd'.
    + injection H as <- <-. split; [exact Hd'|].
      intros e He. injection He as <-. reflexivity.
  - injection H as <- <-. split; [exact Hd'|].
    intros e He. injection He as <-. specialize (Hr e0 eq_refl). clean_enriched_error.
Qed.

Lemma navigateSegments_clean (segs : list string) :
  forall (s s' : extractState) (i : nat) (err : option error),
    clean_decoder (decoder s) ->
    navigateSegments s i segs = (s', err) ->
    clean_decoder (decoder s') /\ forall e, err = Some e -> clean e.
Proof.
  induction segs as [|seg segs IH]; intros s s' i err Hd H; cbn [navigateSegments] in H.
  - injection H as <- <-. split; [exact Hd|discriminate].
  - destruct (String.eqb seg EmptyString).
    { injection H as <- <-. split; [exact Hd|].
      intros e He. injection He as <-. clean_enriched_error. }
    destruct (navigateToSegment (with_position s i) seg) as [s1 err1] eqn:Hnav.
    assert (Hs1 : clean_decoder (decoder s1) /\ forall e, err1 = Some e -> clean e).
    { unfold navigateToSegment in Hnav. destruct (strconv.Atoi seg).
      - eapply navigateArrayIndex_clean; [|exact Hnav]. exact Hd.
      - eapply navigateObjectKey_clean; [|exact Hnav]. exact Hd. }
    destruct Hs1 as [Hd1 Herr1]. destruct err1 as [e1|].
    + injection H as <- <-. split; [exact Hd1|].
      intros e He. injection He as <-. now apply Herr1.
    + eapply IH; [|exact H]. exact Hd1.
Qed.

(** No error of extractSingleValue is SelectorNotFound. *)
Lemma outcome_clean (raw : string) (sel : Selector) (v : any) (e : error) :
  outcome raw sel = (v, Some e) -> clean e.
Proof.
  unfold outcome, extractSingleValue. destruct (len sel =? 0).
  { intros H. injection H as <- <-. reflexivity. }
  destruct (navigateSegments _ O _) as [s1 err1] eqn:Hnav.
  destruct (navigateSegments_clean _ (initial_state raw sel) s1 O err1
              (NewDecoder_clean raw) Hnav) as [Hd1 Herr1].
  destruct err1 as [e1|].
  { intros H. injection H as <- <-. now apply Herr1. }
  destruct (jsonv2.UnmarshalDecode (decoder s1)) as [[d a] r] eqn:Hdec.
  pose proof (UnmarshalDecode_clean _ _ _ _ Hd1 Hdec) as Hr.
  destruct r as [e0|]; [|discriminate].
  intros H. injection H as <- <-. specialize (Hr e0 eq_refl).
  change [sent ErrJSONStreamingParseFailed; sent ErrJSONUnmarshalFailed; PErr e0]
    with (map PErr [Sentinel ErrJSONStreamingParseFailed; Sentinel ErrJSONUnmarshalFailed; e0]
          ++ []).
  apply clean_enriched; [reflexivity| |discriminate].
  repeat constructor; try assumption; apply clean_sentinel; discriminate.
Qed.

Lemma failures_clean (raw : string) (selectors : list Selector) :
  Forall clean (failures raw selectors).
Proof.
  induction selectors as [|x r IH]; [constructor|].
  rewrite failures_cons. destruct (outcome raw x) as [v [e|]] eqn:Hx; cbn [snd]; [|exact IH].
  constructor; [|exact IH]. exact (outcome_clean raw x v e Hx).
Qed.

(** The batch operation on bytes never reports SelectorNotFound. *)
Lemma ExtractValuesFromBytes_clean (raw : string) (selectors : list Selector) (e : error) :
  snd (ExtractValuesFromBytes raw selectors) = Some e -> clean e.
Proof.
  unfold ExtractValuesFromBytes. destruct (len raw =? 0).
  { intros H. injection H as <-. reflexivity. }
  destruct selectors as [|x r].
  { intros H. injection H as <-. reflexivity. }
  change (gobytes.NewReader raw) with (mkReader raw None).
  rewrite ExtractValuesFromReader_accepted by discriminate. cbn [snd].
  pose proof (failures_clean raw (x :: r)) as Hf.
  destruct (failures raw (x :: r)) as [|e0 es]; [discriminate|].
  intros H. injection H as <-.
  unfold clean. cbn [errors.Is]. clear -Hf.
  induction Hf as [|y ys Hy Hys IH]; [reflexivity|].
  cbn [existsb]. rewrite Hy. exact IH.
Qed.

(** C4, amended.  The single-value operations call the batch operation
    with the one-element selector list.  Whenever the selector ends up in
    the not-found list the batch error is non-nil, and whenever the batch
    error is non-nil they return FailedToExtractValueFromJSON around it:
    every error kind of the underlying error stays identifiable, and the
    wrapper adds no SelectorNotFound.  Otherwise the not-found list is
    empty and they return the one resolved value.  On bytes no returned
    error is SelectorNotFound. *)
Theorem single_value_from_batch (reader : option Reader) (jsonBytes : string)
    (sel : Selector) :
  single_from_batch ErrExtractingFromJSONByReader sel
    (ExtractValuesFromReader reader [sel]) (ExtractValueFromReader reader sel) /\
  single_from_batch ErrExtractingFromJSONBytes sel
    (ExtractValuesFromBytes jsonBytes [sel]) (ExtractValueFromBytes jsonBytes sel) /\
  (forall e,
     snd (ExtractValueFromBytes jsonBytes sel) = Some e ->
     errors.Is e ErrJSONSelectorNotFound = false /\
     errors.Is e ErrFailedToExtractValueFromJSON = true).
Proof.
  assert (Hreader : forall r : option Reader,
             let '(vm, nf, err) := ExtractValuesFromReader r [sel] in
             (nf <> [] -> err <> None) /\ (err = None -> exists v, vm !! sel = Some v)).
  { intros [[raw [e|]]|].
    - cbn. split; [congruence|discriminate].
    - apply batch_of_one.
    - cbn. split; [congruence|discriminate]. }
  assert (Hbytes : single_from_batch ErrExtractingFromJSONBytes sel
                     (ExtractValuesFromBytes jsonBytes [sel])
                     (ExtractValueFromBytes jsonBytes sel)).
  { unfold ExtractValueFromBytes, ExtractValuesFromBytes.
    destruct (len jsonBytes =? 0).
    + apply singleResult_from_batch; [discriminate|congruence|discriminate].
    + specialize (Hreader (Some (gobytes.NewReader jsonBytes))).
      destruct (ExtractValuesFromReader (Some (gobytes.NewReader jsonBytes)) [sel])
        as [[vm nf] err].
      destruct Hreader as [H1 H2]. now apply singleResult_from_batch. }
  split; [|split; [exact Hbytes|]].
  - unfold ExtractValueFromReader. specialize (Hreader reader).
    destruct (ExtractValuesFromReader reader [sel]) as [[vm nf] err].
    destruct Hreader as [H1 H2]. now apply singleResult_from_batch.
  - intros e He. pose proof (ExtractValuesFromBytes_clean jsonBytes [sel]) as Hclean.
    unfold single_from_batch in Hbytes.
    destruct (ExtractValuesFromBytes jsonBytes [sel]) as [[vm nf] [e0|]].
    + destruct Hbytes as (_ & Hres & Hfail & Hsnf & _).
      rewrite Hres in He. cbn [snd] in He. injection He as <-.
      split; [|exact Hfail]. rewrite Hsnf. now apply Hclean.
    + destruct Hbytes as (_ & _ & v & _ & Hres). rewrite Hres in He. discriminate He.
Qed.

(** ** The byte-slice and the reader variant *)

Lemma Split_nonempty (s : string) (sep : ascii) : gostrings.Split s sep <> [].
Proof.
  destruct s as [|c r]; cbn [gostrings.Split]; [discriminate|].
  destruct (Ascii.eqb c sep); [discriminate|].
  destruct (gostrings.Split r sep); discriminate.
Qed.

(** Over an empty body every selector fails. *)
Lemma outcome_empty_body (sel : Selector) : fails EmptyString sel = true.
Proof.
  unfold fails, outcome, extractSingleValue.
  destruct (len sel =? 0); [reflexivity|].
  unfold newExtractState. cbn [segments].
  destruct (gostrings.Split sel "."%char) as [|seg segs] eqn:Hs.
  { now apply Split_nonempty in Hs. }
  cbn [navigateSegments].
  destruct (String.eqb seg EmptyString); [reflexivity|].
  unfold navigateToSegment.
  destruct (strconv.Atoi seg) as [idx|].
  - unfold navigateArrayIndex. destruct (idx <? 0); reflexivity.
  - reflexivity.
Qed.

Lemma failures_all (raw : string) (selectors : list Selector) :
  (forall s, fails raw s = true) ->
  List.filter (fails raw) selectors = selectors /\
  length (failures raw selectors) = length selectors.
Proof.
  intros Hall. induction selectors as [|x r [IH1 IH2]]; [split; reflexivity|].
  cbn [List.filter]. rewrite Hall, IH1, failures_cons.
  specialize (Hall x). unfold fails in Hall.
  destruct (snd (outcome raw x)); [|discriminate].
  cbn [length]. now rewrite IH2.
Qed.

(** C5, amended.  On a non-empty byte sequence the bytes variant and the
    reader variant over the same bytes return the same map, the same
    not-found list and the same error.  On the empty body the bytes
    variant fails at once for every selector list, reporting both
    PathTraversalFailed and BodyCannotBeEmpty, with no map entry and an
    empty not-found list, as the reader variant does when it is given no
    reader; the reader variant over a reader without bytes goes through
    the selectors instead: each of them fails and all of them are returned
    in the not-found list, with an error for each. *)
Theorem bytes_and_reader_variants (b : string) (selectors : list Selector) :
  (b <> EmptyString ->
   ExtractValuesFromBytes b selectors =
   ExtractValuesFromReader (Some (gobytes.NewReader b)) selectors) /\
  (exists err,
     ExtractValuesFromBytes EmptyString selectors = (∅, [], Some err) /\
     ExtractValuesFromReader None selectors = (∅, [], Some err) /\
     errors.Is err ErrJSONPathTraversalFailed = true /\
     errors.Is err ErrJSONBodyCannotBeEmpty = true) /\
  (selectors <> [] ->
   exists err,
     ExtractValuesFromReader (Some (gobytes.NewReader EmptyString)) selectors =
       (∅, selectors, Some err) /\
     length (joined_errors err) = length selectors).
Proof.
  split; [apply ExtractValuesFromBytes_nonempty|]. split.
  - eexists. split; [reflexivity|]. split; [reflexivity|]. split; reflexivity.
  - intros Hne. change (gobytes.NewReader EmptyString) with (mkReader EmptyString None).
    rewrite (ExtractValuesFromReader_accepted EmptyString selectors Hne).
    rewrite filter_absent_fails.
    destruct (failures_all EmptyString selectors outcome_empty_body) as [Hf Hl].
    rewrite Hf.
    assert (Hmap : batch_map EmptyString selectors = ∅).
    { apply map_eq. intros s. rewrite batch_map_lookup, lookup_empty.
      pose proof (outcome_empty_body s) as Hs. unfold fails in Hs.
      destruct (outcome EmptyString s) as [v [e|]]; [|discriminate].
      now destruct (bool_decide (s ∈ selectors)). }
    rewrite Hmap.
    destruct (failures EmptyString selectors) as [|e es] eqn:He.
    + destruct selectors; [contradiction|discriminate].
    + eexists. split; [reflexivity|]. exact Hl.
Qed.

(** ** Selectors with an empty segment *)

Lemma navigateSegments_app (l1 l2 : list string) :
  forall (s : extractState) (i : nat),
    navigateSegments s i (l1 ++ l2) =
    match navigateSegments s i l1 with
    | (s', None) => navigateSegments s' (i + length l1)%nat l2
    | (s', Some e) => (s', Some e)
    end.
Proof.
  induction l1 as [|seg l1 IH]; intros s i.
  - cbn [app navigateSegments length]. now rewrite Nat.add_0_r.
  - cbn [app navigateSegments length].
    destruct (String.eqb seg EmptyString); [reflexivity|].
    destruct (navigateToSegment (with_position s i) seg) as [s1 [e|]]; [reflexivity|].
    rewrite IH. replace (S i + length l1)%nat with (i + S (length l1))%nat by lia.
    reflexivity.
Qed.

Lemma empty_segment_error_facts (s : extractState) :
  errors.Is (empty_segment_error s) ErrJSONPathTraversalFailed = true /\
  errors.Is (empty_segment_error s) ErrJSONPathContainsEmptySegment = true.
Proof. unfold empty_segment_error. now apply Is_enriched. Qed.

(** The outcome for a selector follows the segment loop. *)
Lemma outcome_of_loop (raw : string) (sel : Selector) (s' : extractState) (e : error) :
  sel <> EmptyString ->
  navigateSegments (initial_state raw sel) O (gostrings.Split sel "."%char) = (s', Some e) ->
  outcome raw sel = (ANil, Some e).
Proof.
  intros Hsel Hnav. unfold outcome, extractSingleValue.
  rewrite (len_nonzero sel Hsel).
  change (newExtractState (NewDecoder (gobytes.NewReader raw)) sel raw)
    with (initial_state raw sel).
  change (segments (initial_state raw sel)) with (gostrings.Split sel "."%char).
  now rewrite Hnav.
Qed.

(** C3, amended.  Extraction fails for every document and every selector
    with an empty segment, but the segments are checked one by one as the
    traversal reaches them.  When the segments before an empty one all
    navigate successfully, and so whenever the selector starts with a dot,
    the error is PathContainsEmptySegment (with PathTraversalFailed) and
    the empty segment is not navigated; when a segment before it fails to
    navigate, the error is the traversal error of that segment. *)
Theorem empty_segment_selector
    (raw : string) (sel : Selector) (before after : list string) :
  sel <> EmptyString ->
  gostrings.Split sel "."%char = before ++ EmptyString :: after ->
  (exists err, outcome raw sel = (ANil, Some err)) /\
  (exists err, ExtractValueFromBytes raw sel = (ANil, Some err)) /\
  (forall s',
     navigateSegments (initial_state raw sel) O before = (s', None) ->
     outcome raw sel =
       (ANil, Some (empty_segment_error (with_position s' (length before)))) /\
     errors.Is (empty_segment_error (with_position s' (length before)))
       ErrJSONPathContainsEmptySegment = true /\
     errors.Is (empty_segment_error (with_position s' (length before)))
       ErrJSONPathTraversalFailed = true) /\
  (forall s' e,
     navigateSegments (initial_state raw sel) O before = (s', Some e) ->
     outcome raw sel = (ANil, Some e)) /\
  (before = [] ->
   exists err,
     outcome raw sel = (ANil, Some err) /\
     errors.Is err ErrJSONPathContainsEmptySegment = true).
Proof.
  intros Hsel Hsplit.
  assert (Hloop : navigateSegments (initial_state raw sel) O (gostrings.Split sel "."%char) =
                  match navigateSegments (initial_state raw sel) O before with
                  | (s', None) =>
                      (with_position s' (length before),
                       Some (empty_segment_error (with_position s' (length before))))
                  | (s', Some e) => (s', Some e)
                  end).
  { rewrite Hsplit, navigateSegments_app.
    destruct (navigateSegments (initial_state raw sel) O before) as [s' [e|]];
      reflexivity. }
  assert (Hok : forall s',
             navigateSegments (initial_state raw sel) O before = (s', None) ->
             outcome raw sel =
               (ANil, Some (empty_segment_error (with_position s' (length before))))).
  { intros s' Hb. rewrite Hb in Hloop. exact (outcome_of_loop raw sel _ _ Hsel Hloop). }
  assert (Hbad : forall s' e,
             navigateSegments (initial_state raw sel) O before = (s', Some e) ->
             outcome raw sel = (ANil, Some e)).
  { intros s' e Hb. rewrite Hb in Hloop. exact (outcome_of_loop raw sel _ _ Hsel Hloop). }
  assert (Hfail : exists err, outcome raw sel = (ANil, Some err)).
  { destruct (navigateSegments (initial_state raw sel) O before) as [s' [e|]] eqn:Hb.
    - exists e. now apply (Hbad s').
    - eexists. now apply Hok. }
  split; [exact Hfail|]. split; [|split; [|split]].
  - destruct Hfail as [err Herr].
    unfold ExtractValueFromBytes, ExtractValuesFromBytes.
    destruct (len raw =? 0); [eexists; reflexivity|].
    change (gobytes.NewReader raw) with (mkReader raw None).
    rewrite ExtractValuesFromReader_accepted by discriminate.
    rewrite failures_cons, Herr. cbn [snd failures flat_map CombineErrs singleResult].
    eexists. reflexivity.
  - intros s' Hb. split; [now apply Hok|].
    destruct (empty_segment_error_facts (with_position s' (length before))) as [H1 H2].
    split; assumption.
  - exact Hbad.
  - intros ->. eexists. split; [apply Hok; reflexivity|].
    apply empty_segment_error_facts.
Qed.

(** ** The statements on sample inputs *)


Lemma batch_partition_witness :
  partitions ["xs.1"; "xs.3"]%string
    (ExtractValuesFromReader (Some (mkReader xs_document None)) ["xs.1"; "xs.3"]%string).
Proof.
  exact (proj1 (batch_partition xs_document ["xs.1"; "xs.3"]%string ltac:(discriminate))).
Defined.

(** C3 as stated fails when a segment before the empty one does not
    navigate: for the document with the single member x, the selector a..b
    fails with PathSegmentNotFound and not with PathContainsEmptySegment.
    And where the empty segment is reached, as for a..b in the document
    with a member a, the segment a has been navigated before the error is
    raised: it is listed as path progress. *)
Lemma empty_segment_counterexample :
  gostrings.Split "a..b" "."%char = ["a"; EmptyString; "b"]%string /\
  (exists err,
     ExtractValueFromBytes (json_text "{'x':1}") "a..b" = (ANil, Some err) /\
     errors.Is err ErrJSONPathContainsEmptySegment = false /\
     errors.Is err ErrJSONPathSegmentNotFound = true) /\
  (exists err,
     outcome (json_text "{'a':{'b':1}}") "a..b" = (ANil, Some err) /\
     errors.Is err ErrJSONPathContainsEmptySegment = true /\
     kv_get err "path_progress" = Some (VStrs ["a"%string])).
Proof.
  split; [reflexivity|]. split.
  - eexists. split; [vm_compute; reflexivity|]. split; vm_compute; reflexivity.
  - eexists. split; [vm_compute; reflexivity|]. split; vm_compute; reflexivity.
Qed.

Lemma empty_segment_selector_witness :
  exists err, outcome (json_text "{'a':{'b':1}}") "a..b" = (ANil, Some err).
Proof.
  apply (empty_segment_selector (json_text "{'a':{'b':1}}") "a..b"
           ["a"%string] ["b"%string]).
  - discriminate.
  - reflexivity.
Defined.

(** C4 as stated fails whenever a selector is not found: for the document
    with the single member x and the selector a, the selector is in the
    not-found list of the batch call, and the single-value operation
    returns an error that is not SelectorNotFound and on which the
    underlying PathSegmentNotFound is identifiable. *)
Lemma selector_not_found_counterexample :
  snd (fst (ExtractValuesFromBytes (json_text "{'x':1}") ["a"%string])) = ["a"%string] /\
  exists err,
    ExtractValueFromBytes (json_text "{'x':1}") "a" = (ANil, Some err) /\
    errors.Is err ErrJSONSelectorNotFound = false /\
    errors.Is err ErrFailedToExtractValueFromJSON = true /\
    errors.Is err ErrJSONPathSegmentNotFound = true.
Proof.
  split; [vm_compute; reflexivity|].
  eexists. split; [vm_compute; reflexivity|]. repeat split; vm_compute; reflexivity.
Qed.

Lemma single_value_from_batch_witness :
  reports (ExtractValueFromBytes (json_text "{'x':1}") "a") ErrJSONSelectorNotFound = false.
Proof.
  destruct (single_value_from_batch None (json_text "{'x':1}") "a") as (_ & _ & H).
  unfold reports.
  destruct (snd (ExtractValueFromBytes (json_text "{'x':1}") "a")) as [e|]; [|reflexivity].
  exact (proj1 (H e eq_refl)).
Defined.

(** C5 as stated fails on the empty body: the bytes variant reports
    BodyCannotBeEmpty and returns an empty not-found list, the reader
    variant over the same empty bytes returns the selector as not found
    with an error that is not BodyCannotBeEmpty. *)
Lemma empty_body_counterexample :
  snd (fst (ExtractValuesFromBytes EmptyString ["foo"%string])) = [] /\
  snd (fst (ExtractValuesFromReader (Some (gobytes.NewReader EmptyString)) ["foo"%string]))
    = ["foo"%string] /\
  (exists err,
     snd (ExtractValuesFromBytes EmptyString ["foo"%string]) = Some err /\
     errors.Is err ErrJSONBodyCannotBeEmpty = true) /\
  (exists err,
     snd (ExtractValuesFromReader (Some (gobytes.NewReader EmptyString)) ["foo"%string])
       = Some err /\
     errors.Is err ErrJSONBodyCannotBeEmpty = false /\
     errors.Is err ErrJSONPathExpectedObjectAtSegment = true).
Proof.
  split; [vm_compute; reflexivity|]. split; [vm_compute; reflexivity|]. split.
  - eexists. split; vm_compute; reflexivity.
  - eexists. split; [vm_compute; reflexivity|]. split; vm_compute; reflexivity.
Qed.

Lemma bytes_and_reader_variants_witness :
  ExtractValuesFromBytes xs_document ["xs.1"%string] =
  ExtractValuesFromReader (Some (gobytes.NewReader xs_document)) ["xs.1"%string].
Proof.
  apply (bytes_and_reader_variants xs_document ["xs.1"%string]).
  intros H. vm_compute in H. discriminate H.
Defined.

Lemma batch_error_aggregation_witness :
  snd (fst (ExtractValuesFromReader (Some (mkReader xs_document None))
              ["xs.1"; "xs.3"]%string))
  = List.filter (fails xs_document) ["xs.1"; "xs.3"]%string.
Proof.
  pose proof (batch_error_aggregation xs_document ["xs.1"; "xs.3"]%string
                ltac:(discriminate)) as H.
  destruct (ExtractValuesFromReader (Some (mkReader xs_document None))
              ["xs.1"; "xs.3"]%string) as [[vm nf] err].
  destruct H as (_ & _ & _ & H). exact H.
Defined.

Lemma navigateArrayIndex_at_array_witness :
  exists d' : Decoder, navigateArrayIndex array_state 1 = (with_decoder array_state d', None).
Proof.
  destruct (navigateArrayIndex_at_array array_state
              [JNumber "10"; JNumber "20"; JNumber "30"] [] 1
              ltac:(vm_compute; reflexivity)) as [H _].
  destruct (H ltac:(cbn; lia)) as (d' & e & Hn & _).
  exists d'. exact Hn.
Defined.

(** C8 as stated fails on a member name wrapped in double quotes: the
    object of [quoted_document] contains the key "x" (quotes included),
    which is not numeric, yet navigation by that key fails with
    PathSegmentNotFound; and it does not contain the key x, yet navigation
    by x succeeds. *)
Lemma navigateObjectKey_quoted_counterexample :
  pending (decoder quoted_state) = tokens_of quoted_value /\
  strconv.Atoi (in_quotes "x") = None /\
  lookup_member (in_quotes "x") [(in_quotes "x", JNumber "1")] = Some (JNumber "1") /\
  (exists err,
     snd (navigateObjectKey quoted_state (in_quotes "x")) = Some err /\
     errors.Is err ErrJSONPathSegmentNotFound = true) /\
  lookup_member "x" [(in_quotes "x", JNumber "1")] = None /\
  snd (navigateObjectKey quoted_state "x") = None.
Proof.
  split; [vm_compute; reflexivity|]. split; [vm_compute; reflexivity|].
  split; [vm_compute; reflexivity|]. split.
  - eexists. split; vm_compute; reflexivity.
  - split; vm_compute; reflexivity.
Qed.

Lemma navigateObjectKey_at_value_witness :
  exists d' : Decoder,
    navigateObjectKey quoted_state "x" = (with_decoder quoted_state d', None) /\
    pending d' = tokens_of (JNumber "1") ++ flat_map member_tokens [] ++ [EndObject].
Proof.
  destruct (navigateObjectKey_at_value quoted_state quoted_value [] "x"
              ltac:(vm_compute; reflexivity)) as (_ & H & _).
  apply (H [] (in_quotes "x") (JNumber "1") []).
  - reflexivity.
  - constructor.
  - vm_compute. reflexivity.
Defined.

Lemma navigateObjectKey_quoted_name_witness :
  String.eqb (unquote_key (in_quotes "x")) "x" = true /\
  String.eqb (unquote_key (in_quotes "x")) (in_quotes "x") = false.
Proof.
  destruct (navigateObjectKey_quoted_name quoted_state [] [] "x" (JNumber "1") []
              ltac:(vm_compute; reflexivity)) as (H1 & H2 & _).
  split; assumption.
Defined.

Lemma batch_repeated_selector_witness :
  count_occ string_dec
    (snd (fst (ExtractValuesFromReader (Some (mkReader xs_document None))
                 ["xs.3"; "xs.1"; "xs.3"]%string))) "xs.3"
  = count_occ string_dec ["xs.3"; "xs.1"; "xs.3"]%string "xs.3".
Proof.
  pose proof (batch_repeated_selector xs_document ["xs.3"; "xs.1"; "xs.3"]%string "xs.3"
                (list_elem_of_here _ _)) as H.
  destruct (ExtractValuesFromReader (Some (mkReader xs_document None))
              ["xs.3"; "xs.1"; "xs.3"]%string) as [[vm nf] err].
  destruct H as (_ & H). destruct (H ltac:(vm_compute; reflexivity)) as (_ & Hc & _).
  exact Hc.
Defined.

(** ** The search loop never runs out of rounds *)

Lemma skip_tokens_shorter (ts : list Token) :
  forall (depth : nat) (r : list Token),
    skip_tokens depth ts = Some r -> (length r < length ts)%nat.
Proof.
  induction ts as [|t ts IH]; intros depth r H; [discriminate|].
  cbn [skip_tokens] in H. cbn [length].
  destruct (opens t).
  - apply IH in H. lia.
  - destruct (closes t).
    + destruct depth as [|[|k]]; [discriminate| |].
      * injection H as <-. lia.
      * apply IH in H. lia.
    + destruct depth as [|k].
      * injection H as <-. lia.
      * apply IH in H. lia.
Qed.

(** With more rounds than pending tokens searchKey always returns. *)
Lemma searchKey_returns (fuel : nat) :
  forall (s : extractState) (k : string) (avail : list string),
    (length (pending (decoder s)) < fuel)%nat ->
    exists r, searchKey fuel s k avail = Some r.
Proof.
  induction fuel as [|fuel IH]; intros s k avail Hfuel; [lia|].
  cbn [searchKey].
  destruct (negb (kind_is (PeekKind (decoder s)) "}"%char)); [|eexists; reflexivity].
  unfold ReadToken.
  destruct (pending (decoder s)) as [|t ts] eqn:Hp; [eexists; reflexivity|].
  destruct (String.eqb (unquote_key (Token_String t)) k); [eexists; reflexivity|].
  unfold SkipValue. cbn [decoder with_decoder pending tail].
  destruct (skip_tokens O ts) as [r|] eqn:Hskip; [|eexists; reflexivity].
  apply IH. cbn [decoder with_decoder pending].
  apply skip_tokens_shorter in Hskip. cbn [length] in Hfuel. lia.
Qed.

(** navigateObjectKey therefore returns what the search loop returns. *)
Lemma navigateObjectKey_search (s : extractState) (k : string) (d : Decoder) (t : Token) :
  kind_is (PeekKind (decoder s)) "{"%char = true ->
  ReadToken (decoder s) = (d, Ok t) ->
  searchKey (S (length (pending d))) (with_decoder s d) k [] =
  Some (navigateObjectKey s k).
Proof.
  intros Hk Hr. unfold navigateObjectKey. rewrite Hk, Hr. cbn [negb decoder with_decoder].
  destruct (searchKey_returns (S (length (pending d))) (with_decoder s d) k [])
    as [r Hs]; [cbn; lia|].
  now rewrite Hs.
Qed.

(** ** The cases of the repository's tests *)

Example test_simple_object_key :
  ExtractValueFromBytes (json_text "{'foo':'bar'}") "foo" = (AString "bar", None).
Proof. vm_compute. reflexivity. Qed.

Example test_nested_object_key :
  ExtractValueFromBytes (json_text "{'a':{'b':{'c':123}}}") "a.b.c" =
  (AFloat64 (S754_finite false 8655355533852672 (-46)), None).
Proof. vm_compute. reflexivity. Qed.

Example test_array_of_objects_then_key :
  ExtractValueFromBytes (json_text "{'foo':[{'bar':'baz'}]}") "foo.0.bar" =
  (AString "baz", None).
Proof. vm_compute. reflexivity. Qed.

(** Every number is a float64, whether written as an integer or not. *)
Example test_type_transparence :
  ExtractValueFromBytes (json_text "{'n': 1, 'b': true}") "n" =
    (AFloat64 (S754_finite false 4503599627370496 (-52)), None) /\
  ExtractValueFromBytes (json_text "{'n': 1.0, 'b': true}") "n" =
    (AFloat64 (S754_finite false 4503599627370496 (-52)), None) /\
  ExtractValueFromBytes (json_text "{'n': 1, 'b': true}") "b" = (ABool true, None).
Proof. repeat split; vm_compute; reflexivity. Qed.

Example test_error_kinds :
  reports (ExtractValueFromBytes xs_document "xs.3") ErrJSONIndexOutOfRange = true /\
  reports (ExtractValueFromBytes (json_text "{'obj':{'have':1}}") "obj.missing")
    ErrJSONPathSegmentNotFound = true /\
  reports (ExtractValueFromBytes (json_text "{'obj':{'k':1}}") "obj.0")
    ErrJSONPathExpectedArrayAtSegment = true /\
  reports (ExtractValueFromBytes (json_text "{'xs':[{'k':1}]}") "xs.k")
    ErrJSONPathExpectedObjectAtSegment = true /\
  reports (ExtractValueFromBytes (json_text "{'a':{'b':1}}") "a..b")
    ErrJSONPathContainsEmptySegment = true /\
  reports (ExtractValueFromBytes (json_text "{'xs':[0,1]}") "xs.-1")
    ErrJSONIndexOutOfRange = true /\
  reports (ExtractValueFromBytes EmptyString "foo") ErrJSONPathTraversalFailed = true /\
  reports (ExtractValueFromBytes EmptyString "foo") ErrJSONBodyCannotBeEmpty = true /\
  reports (ExtractValueFromBytes (json_text "{'foo':'bar'}") EmptyString)
    ErrJSONValueSelectorCannotBeEmpty = true /\
  reports (ExtractValueFromBytes (json_text "{'unterminated': 1") "foo")
    ErrJSONTokenReadFailed = true.
Proof. repeat split; vm_compute; reflexivity. Qed.

Example test_error_collection :
  snd (fst (ExtractValuesFromBytes (json_text "{'valid': 'value'}")
              ["missing1"; "missing2"; "valid"; "missing3"]%string))
    = ["missing1"; "missing2"; "missing3"]%string /\
  fst (fst (ExtractValuesFromBytes (json_text "{'valid': 'value'}")
              ["missing1"; "missing2"; "valid"; "missing3"]%string)) !! "valid"%string
    = Some (AString "value").
Proof. split; vm_compute; reflexivity. Qed.

(** ** The scanner never runs out of rounds *)

Lemma skip_space_length (l : list ascii) : (length (skip_space l) <= length l)%nat.
Proof.
  induction l as [|c r IH]; cbn [skip_space]; [lia|].
  destruct (is_space c); cbn [length]; lia.
Qed.

Lemma lex_string_shorter (l : list ascii) :
  forall (skip copy : nat) (v rest : list ascii),
    lex_string skip copy l = Some (v, rest) -> (length rest < length l)%nat.
Proof.
  induction l as [|c r IH]; intros skip copy v rest H; [discriminate|].
  cbn [lex_string] in H. cbn [length].
  assert (Hstep : forall bs o,
             match o with
             | Some (v0, rest0) => Some ((bs ++ v0)%list, rest0)
             | None => None
             end = Some (v, rest) ->
             (forall v0, o = Some (v0, rest) -> (length rest < length r)%nat) ->
             (length rest < S (length r))%nat).
  { intros bs [[v0 rest0]|] Ho Hr; [|discriminate].
    injection Ho as _ <-. specialize (Hr v0 eq_refl). lia. }
  destruct skip as [|k].
  - destruct copy as [|k].
    + destruct (Ascii.eqb c dquote); [injection H as _ <-; lia|].
      destruct (Ascii.eqb c "\"%char).
      * destruct (lex_escape r) as [[bs n]|]; [|discriminate].
        eapply Hstep; [exact H|]. intros v0 Hv0. eapply IH. exact Hv0.
      * destruct (byte_val c <? 32); [discriminate|].
        destruct (byte_val c <? 128).
        -- eapply Hstep; [exact H|]. intros v0 Hv0. eapply IH. exact Hv0.
        -- destruct (utf8_len (c :: r)); [|discriminate].
           eapply Hstep; [exact H|]. intros v0 Hv0. eapply IH. exact Hv0.
    + eapply Hstep; [exact H|]. intros v0 Hv0. eapply IH. exact Hv0.
  - apply IH in H. lia.
Qed.

Lemma span_digits_length (l : list ascii) :
  (length (fst (span_digits l)) + length (snd (span_digits l)) = length l)%nat.
Proof.
  induction l as [|c r IH]; cbn [span_digits]; [reflexivity|].
  destruct (is_digit c); [|reflexivity].
  destruct (span_digits r) as [a b]. cbn [fst snd length] in *. lia.
Qed.

Lemma span_digits_rest (l : list ascii) : (length (snd (span_digits l)) <= length l)%nat.
Proof. pose proof (span_digits_length l). lia. Qed.

Lemma lex_sign_length (l : list ascii) : (length (snd (lex_sign l)) <= length l)%nat.
Proof.
  destruct l as [|c r]; cbn [lex_sign]; [cbn; lia|].
  destruct (Ascii.eqb c "-"%char); cbn; lia.
Qed.

Lemma lex_int_shorter (l lit rest : list ascii) :
  lex_int l = Some (lit, rest) -> (length rest < length l)%nat.
Proof.
  destruct l as [|c r]; cbn [lex_int]; [discriminate|].
  destruct (Ascii.eqb c "0"%char).
  - intros H. injection H as _ <-. cbn; lia.
  - destruct (is_digit c) eqn:Hd; [|discriminate].
    cbn [span_digits]. rewrite Hd. pose proof (span_digits_rest r) as Hr.
    destruct (span_digits r) as [a b]. intros H. injection H as _ <-.
    cbn [snd length] in *. lia.
Qed.

Lemma lex_frac_length (l lit rest : list ascii) :
  lex_frac l = Some (lit, rest) -> (length rest <= length l)%nat.
Proof.
  destruct l as [|c r]; cbn [lex_frac]; [intros H; injection H as _ <-; lia|].
  destruct (Ascii.eqb c "."%char).
  - pose proof (span_digits_rest r) as Hr.
    destruct (span_digits r) as [[|d ds] b]; [discriminate|].
    intros H. injection H as _ <-. cbn [snd length] in *. lia.
  - intros H. injection H as _ <-. lia.
Qed.

Lemma lex_exp_length (l lit rest : list ascii) :
  lex_exp l = Some (lit, rest) -> (length rest <= length l)%nat.
Proof.
  destruct l as [|c r]; cbn [lex_exp]; [intros H; injection H as _ <-; lia|].
  destruct (Ascii.eqb c "e"%char || Ascii.eqb c "E"%char).
  - set (sg := match r with
               | d :: r' => if Ascii.eqb d "-"%char || Ascii.eqb d "+"%char
                            then ([d], r') else ([], r)
               | [] => ([], r)
               end).
    assert (Hsg : (length (snd sg) <= length r)%nat).
    { subst sg. destruct r as [|d r']; [cbn; lia|].
      destruct (Ascii.eqb d "-"%char || Ascii.eqb d "+"%char); cbn; lia. }
    destruct sg as [sgn r1]. cbn [snd] in Hsg.
    pose proof (span_digits_rest r1) as Hr1.
    destruct (span_digits r1) as [[|d ds] b]; [discriminate|].
    intros H. injection H as _ <-. cbn [snd length] in *. lia.
  - intros H. injection H as _ <-. lia.
Qed.

Lemma lex_number_shorter (l raw rest : list ascii) :
  lex_number l = Some (raw, rest) -> (length rest < length l)%nat.
Proof.
  unfold lex_number. pose proof (lex_sign_length l) as Hsign.
  destruct (lex_sign l) as [sign l1]. cbn [snd] in Hsign.
  destruct (lex_int l1) as [[ip l2]|] eqn:Hint; [|discriminate].
  apply lex_int_shorter in Hint.
  destruct (lex_frac l2) as [[fp l3]|] eqn:Hfrac; [|discriminate].
  apply lex_frac_length in Hfrac.
  destruct (lex_exp l3) as [[ep l4]|] eqn:Hexp; [|discriminate].
  apply lex_exp_length in Hexp.
  intros H. injection H as _ <-. lia.
Qed.

Lemma has_prefix_length (p l : list ascii) :
  gostrings.has_prefix p l = true -> (length p <= length l)%nat.
Proof.
  revert l. induction p as [|a p IH]; intros l H; [cbn; lia|].
  destruct l as [|b l]; [discriminate|]. cbn [gostrings.has_prefix] in H.
  apply andb_true_iff in H. destruct H as [_ H]. apply IH in H. cbn [length]. lia.
Qed.

Lemma lex_token_shorter (l : list ascii) (t : Token) (r : list ascii) :
  lex_token l = Some (t, r) -> (length r < length l)%nat.
Proof.
  unfold lex_token. destruct l as [|c l0]; [discriminate|].
  destruct (Ascii.eqb c "{"%char); [intros H; injection H as _ <-; cbn; lia|].
  destruct (Ascii.eqb c "}"%char); [intros H; injection H as _ <-; cbn; lia|].
  destruct (Ascii.eqb c "["%char); [intros H; injection H as _ <-; cbn; lia|].
  destruct (Ascii.eqb c "]"%char); [intros H; injection H as _ <-; cbn; lia|].
  destruct (Ascii.eqb c dquote).
  { destruct (lex_string O O l0) as [[v rest]|] eqn:Hs; [|discriminate].
    intros H. injection H as _ <-. apply lex_string_shorter in Hs. cbn [length]. lia. }
  destruct (Ascii.eqb c "n"%char).
  { destruct (gostrings.has_prefix (bytes_of "null") (c :: l0)) eqn:Hp; [|discriminate].
    intros H. injection H as _ <-. apply has_prefix_length in Hp.
    rewrite length_drop. cbn [length bytes_of list_ascii_of_string] in *. lia. }
  destruct (Ascii.eqb c "t"%char).
  { destruct (gostrings.has_prefix (bytes_of "true") (c :: l0)) eqn:Hp; [|discriminate].
    intros H. injection H as _ <-. apply has_prefix_length in Hp.
    rewrite length_drop. cbn [length bytes_of list_ascii_of_string] in *. lia. }
  destruct (Ascii.eqb c "f"%char).
  { destruct (gostrings.has_prefix (bytes_of "false") (c :: l0)) eqn:Hp; [|discriminate].
    intros H. injection H as _ <-. apply has_prefix_length in Hp.
    rewrite length_drop. cbn [length bytes_of list_ascii_of_string] in *. lia. }
  destruct (Ascii.eqb (normalize c) "0"%char); [|discriminate].
  destruct (lex_number (c :: l0)) as [[raw rest]|] eqn:Hn; [|discriminate].
  intros H. injection H as _ <-. now apply lex_number_shorter in Hn.
Qed.

(** With more rounds than input bytes the scanner does not depend on the
    number of rounds: the rounds of [NewDecoder] are never used up. *)
Lemma scan_rounds (fuel : nat) :
  forall (fuel' : nat) (l : list ascii) (stack : list frame),
    (length l < fuel)%nat -> (length l < fuel')%nat ->
    scan fuel l stack = scan fuel' l stack.
Proof.
  induction fuel as [|fuel IH]; intros fuel' l stack Hf Hf'; [lia|].
  destruct fuel' as [|fuel']; [lia|]. cbn [scan].
  pose proof (skip_space_length l) as Hl.
  destruct (skip_space l) as [|c r]; [reflexivity|]. cbn [length] in Hl.
  assert (Hstep : forall (delim : option ascii) (l1 : list ascii),
             (length l1 <= S (length r))%nat ->
             match l1 with
             | [] => ([], Truncated)
             | c1 :: _ =>
                 if bool_decide (needDelim stack (normalize c1) = delim) then
                   match lex_token l1 with
                   | Some (t, l2) =>
                       match advance t stack with
                       | Some st => let (ts, tl) := scan fuel l2 st in (t :: ts, tl)
                       | None => ([], Malformed (normalize c1))
                       end
                   | None => ([], Malformed (normalize c1))
                   end
                 else ([], Malformed invalidKind)
             end =
             match l1 with
             | [] => ([], Truncated)
             | c1 :: _ =>
                 if bool_decide (needDelim stack (normalize c1) = delim) then
                   match lex_token l1 with
                   | Some (t, l2) =>
                       match advance t stack with
                       | Some st => let (ts, tl) := scan fuel' l2 st in (t :: ts, tl)
                       | None => ([], Malformed (normalize c1))
                       end
                   | None => ([], Malformed (normalize c1))
                   end
                 else ([], Malformed invalidKind)
             end).
  { intros delim [|c1 r1] Hl1; [reflexivity|].
    destruct (bool_decide _); [|reflexivity].
    destruct (lex_token (c1 :: r1)) as [[t l2]|] eqn:Ht; [|reflexivity].
    destruct (advance t stack) as [st|]; [|reflexivity].
    apply lex_token_shorter in Ht.
    rewrite (IH fuel' l2 st) by lia. reflexivity. }
  destruct (Ascii.eqb c ":" || Ascii.eqb c ",").
  - apply (Hstep (Some c) (skip_space r)). pose proof (skip_space_length r). lia.
  - apply (Hstep None (c :: r)). cbn [length]. lia.
Qed.

Lemma bytes_of_length (s : string) : length (bytes_of s) = String.length s.
Proof. unfold bytes_of. induction s as [|c s IH]; cbn; [reflexivity | now rewrite IH]. Qed.

(** The decoder of a reader is what the scanner delivers with any larger
    number of rounds. *)
Lemma NewDecoder_rounds (raw : string) (fuel : nat) :
  (String.length raw < fuel)%nat ->
  NewDecoder (gobytes.NewReader raw) =
  let (ts, tl) := scan fuel (bytes_of raw) [] in mkDecoder ts tl.
Proof.
  intros Hfuel. unfold NewDecoder. cbn [gobytes.NewReader data fault].
  pose proof (bytes_of_length raw) as Hlen.
  rewrite (scan_rounds (S (length (bytes_of raw))) fuel) by lia.
  destruct (scan fuel (bytes_of raw) []) as [ts tl]. reflexivity.
Qed.

(** ** The space-collapsing loop of condensedJSON ends within its rounds *)

Lemma string_of_length (l : list ascii) : String.length (string_of l) = length l.
Proof. unfold string_of. induction l as [|c l IH]; cbn; [reflexivity | now rewrite IH]. Qed.

Lemma replace_all_bound (old new : list ascii) (l : list ascii) :
  (length new < length old)%nat ->
  forall skip : nat,
    (length (gostrings.replace_all old new skip l) + Nat.min skip (length l)
     <= length l)%nat.
Proof.
  intros Hnew. induction l as [|c r IH]; intros skip; cbn [gostrings.replace_all length].
  - lia.
  - destruct skip as [|k].
    + destruct (gostrings.has_prefix old (c :: r)) eqn:Hp.
      * rewrite length_app. specialize (IH (Nat.pred (length old))).
        apply has_prefix_length in Hp. cbn [length] in Hp. lia.
      * cbn [length]. specialize (IH O). lia.
    + specialize (IH k). lia.
Qed.

Lemma replace_all_shrinks (old new : list ascii) (l : list ascii) :
  (length new < length old)%nat ->
  gostrings.contains old l = true ->
  (length (gostrings.replace_all old new O l) < length l)%nat.
Proof.
  intros Hnew. induction l as [|c r IH]; intros Hc.
  - cbn in Hc. destruct old; [cbn in Hnew; lia|discriminate].
  - cbn [gostrings.replace_all length]. cbn [gostrings.contains] in Hc.
    destruct (gostrings.has_prefix old (c :: r)) eqn:Hp.
    + rewrite length_app.
      pose proof (replace_all_bound old new r Hnew (Nat.pred (length old))) as Hb.
      apply has_prefix_length in Hp. cbn [length] in Hp. lia.
    + cbn [orb] in Hc. specialize (IH Hc). cbn [length]. lia.
Qed.

(** After as many rounds as the string has bytes no two spaces are left
    side by side, as after the loop of the source. *)
Lemma collapse_spaces_done (rounds : nat) :
  forall formatted : string,
    (String.length formatted <= rounds)%nat ->
    gostrings.Contains (collapse_spaces rounds formatted) "  " = false.
Proof.
  induction rounds as [|k IH]; intros formatted Hlen.
  - destruct formatted; [reflexivity|cbn in Hlen; lia].
  - cbn [collapse_spaces].
    destruct (gostrings.Contains formatted "  ") eqn:Hc; [|exact Hc].
    apply IH. unfold gostrings.ReplaceAll. rewrite string_of_length.
    unfold gostrings.Contains in Hc.
    pose proof (replace_all_shrinks (bytes_of "  ") (bytes_of " ") (bytes_of formatted)
                  ltac:(cbn; lia) Hc) as Hs.
    rewrite bytes_of_length in Hs. lia.
Qed.

(** ** The decoder on compact JSON text *)

Example render_sample :
  string_of (render xs_value) = xs_document /\ well_formed xs_value = true /\
  string_of (render quoted_value) = quoted_document /\ well_formed quoted_value = true.
Proof. repeat split; vm_compute; reflexivity. Qed.

(** *** Number literals end where the next byte cannot continue them *)

Ltac ends_cases b H :=
  destruct b as [|?c ?b]; cbn [ends_number] in H;
  [|apply negb_true_iff in H; repeat (apply orb_false_iff in H as [H ?])].

Lemma span_digits_app (a b : list ascii) :
  ends_number b = true ->
  span_digits (a ++ b) = (fst (span_digits a), (snd (span_digits a) ++ b)%list).
Proof.
  intros Hb. induction a as [|c a IH]; cbn [app span_digits].
  - ends_cases b Hb; [reflexivity|]. cbn [span_digits fst snd app]. rewrite Hb. reflexivity.
  - destruct (is_digit c); [|reflexivity].
    rewrite IH. destruct (span_digits a) as [x y]. reflexivity.
Qed.

Lemma lex_sign_app (a b : list ascii) :
  ends_number b = true ->
  lex_sign (a ++ b) = (fst (lex_sign a), (snd (lex_sign a) ++ b)%list).
Proof.
  intros Hb. destruct a as [|c a]; cbn [app lex_sign].
  - ends_cases b Hb; [reflexivity|]. cbn [lex_sign fst snd app].
    match goal with H : Ascii.eqb _ "-"%char = false |- _ => rewrite H end. reflexivity.
  - destruct (Ascii.eqb c "-"%char); reflexivity.
Qed.

Lemma lex_int_app (a b : list ascii) :
  ends_number b = true -> lex_int (a ++ b) = extend b (lex_int a).
Proof.
  intros Hb. destruct a as [|c a]; cbn [app lex_int extend].
  - ends_cases b Hb; [reflexivity|]. cbn [lex_int].
    destruct (Ascii.eqb c "0"%char) eqn:Hzero.
    + apply Ascii.eqb_eq in Hzero. subst c. discriminate.
    + rewrite Hb. reflexivity.
  - destruct (Ascii.eqb c "0"%char); [reflexivity|].
    destruct (is_digit c); [|reflexivity].
    change (c :: a ++ b)%list with ((c :: a) ++ b)%list.
    rewrite span_digits_app by assumption.
    destruct (span_digits (c :: a)) as [x y]. reflexivity.
Qed.

Lemma lex_frac_app (a b : list ascii) :
  ends_number b = true -> lex_frac (a ++ b) = extend b (lex_frac a).
Proof.
  intros Hb. destruct a as [|c a]; cbn [app lex_frac extend].
  - ends_cases b Hb; [reflexivity|]. cbn [lex_frac app].
    match goal with H : Ascii.eqb _ "."%char = false |- _ => rewrite H end. reflexivity.
  - destruct (Ascii.eqb c "."%char); [|reflexivity].
    rewrite span_digits_app by assumption.
    destruct (span_digits a) as [[|d ds] y]; reflexivity.
Qed.

Lemma lex_exp_app (a b : list ascii) :
  ends_number b = true -> lex_exp (a ++ b) = extend b (lex_exp a).
Proof.
  intros Hb. destruct a as [|c a]; cbn [app lex_exp extend].
  - ends_cases b Hb; [reflexivity|]. cbn [lex_exp app].
    repeat match goal with H : Ascii.eqb _ _ = false |- _ => rewrite H; clear H end.
    reflexivity.
  - destruct (Ascii.eqb c "e"%char || Ascii.eqb c "E"%char); [|reflexivity].
    destruct a as [|d a]; cbn [app].
    + pose proof (span_digits_app [] b Hb) as Hs. cbn [app span_digits fst snd] in Hs.
      ends_cases b Hb; [reflexivity|].
      repeat match goal with H : Ascii.eqb _ _ = false |- _ => rewrite H; clear H end.
      cbn [orb]. rewrite Hs. reflexivity.
    + destruct (Ascii.eqb d "-"%char || Ascii.eqb d "+"%char).
      * rewrite span_digits_app by assumption.
        destruct (span_digits a) as [[|x xs] y]; reflexivity.
      * change (d :: a ++ b)%list with ((d :: a) ++ b)%list.
        rewrite span_digits_app by assumption.
        destruct (span_digits (d :: a)) as [[|x xs] y]; reflexivity.
Qed.

Lemma lex_number_app (a b : list ascii) :
  ends_number b = true -> lex_number (a ++ b) = extend b (lex_number a).
Proof.
  intros Hb. unfold lex_number. rewrite lex_sign_app by assumption.
  destruct (lex_sign a) as [sign l1]. cbn [fst snd].
  rewrite lex_int_app by assumption.
  destruct (lex_int l1) as [[ip l2]|]; [|reflexivity]. cbn [extend].
  rewrite lex_frac_app by assumption.
  destruct (lex_frac l2) as [[fp l3]|]; [|reflexivity]. cbn [extend].
  rewrite lex_exp_app by assumption.
  destruct (lex_exp l3) as [[ep l4]|]; reflexivity.
Qed.

(** *** String literals *)

Lemma escape_byte_lex (c : ascii) (l : list ascii) :
  (32 <=? byte_val c) && (byte_val c <? 128) = true ->
  lex_string 0 0 (escape_byte c ++ l) =
  match lex_string 0 0 l with
  | Some (v, rest) => Some (c :: v, rest)
  | None => None
  end.
Proof.
  intros Hc. apply andb_true_iff in Hc as [Hlo Hhi].
  unfold escape_byte.
  destruct (Ascii.eqb c dquote) eqn:Hq.
  - apply Ascii.eqb_eq in Hq. subst c. reflexivity.
  - destruct (Ascii.eqb c "\"%char) eqn:Hb.
    + apply Ascii.eqb_eq in Hb. subst c. reflexivity.
    + cbn [app lex_string]. rewrite Hq, Hb.
      apply Z.leb_le in Hlo.
      destruct (byte_val c <? 32) eqn:H32; [apply Z.ltb_lt in H32; lia|].
      rewrite Hhi. reflexivity.
Qed.

Lemma lex_string_body (bs rest : list ascii) :
  forallb (fun c => (32 <=? byte_val c) && (byte_val c <? 128)) bs = true ->
  lex_string 0 0 (flat_map escape_byte bs ++ dquote :: rest) = Some (bs, rest).
Proof.
  induction bs as [|c bs IH]; intros Hp; [reflexivity|].
  cbn [forallb] in Hp. apply andb_true_iff in Hp as [Hc Hp].
  cbn [flat_map]. rewrite <- app_assoc, escape_byte_lex by exact Hc.
  rewrite IH by exact Hp. reflexivity.
Qed.

Lemma string_of_bytes_of (s : string) : string_of (bytes_of s) = s.
Proof. apply string_of_list_ascii_of_string. Qed.

Lemma bytes_of_string_of (l : list ascii) : bytes_of (string_of l) = l.
Proof. apply list_ascii_of_string_of_list_ascii. Qed.

Lemma lex_token_string (s : string) (rest : list ascii) :
  printable s = true ->
  lex_token (render_string s ++ rest) = Some (TString s, rest).
Proof.
  intros Hp. unfold render_string. cbn [app lex_token].
  change (Ascii.eqb dquote "{"%char) with false.
  change (Ascii.eqb dquote "}"%char) with false.
  change (Ascii.eqb dquote "["%char) with false.
  change (Ascii.eqb dquote "]"%char) with false.
  change (Ascii.eqb dquote dquote) with true. cbv iota.
  rewrite <- app_assoc. cbn [app].
  rewrite lex_string_body by exact Hp.
  rewrite string_of_bytes_of. reflexivity.
Qed.

(** *** Tokens of scalar values *)

Lemma number_head (c : ascii) :
  Ascii.eqb c "-"%char || is_digit c = true ->
  is_space c = false /\ Ascii.eqb c ":"%char = false /\ Ascii.eqb c ","%char = false /\
  normalize c = "0"%char /\
  Ascii.eqb c "{"%char = false /\ Ascii.eqb c "}"%char = false /\
  Ascii.eqb c "["%char = false /\ Ascii.eqb c "]"%char = false /\
  Ascii.eqb c dquote = false /\ Ascii.eqb c "n"%char = false /\
  Ascii.eqb c "t"%char = false /\ Ascii.eqb c "f"%char = false.
Proof.
  destruct c as [[] [] [] [] [] [] [] []]; intros H; try discriminate H;
    repeat split; reflexivity.
Qed.

Lemma number_literal_head (raw : string) :
  number_literal raw = true ->
  exists c r, bytes_of raw = c :: r /\ Ascii.eqb c "-"%char || is_digit c = true.
Proof.
  unfold number_literal. destruct (bytes_of raw) as [|c r]; [discriminate|].
  intros H. exists c, r. split; [reflexivity|].
  unfold lex_number in H. cbn [lex_sign] in H.
  destruct (Ascii.eqb c "-"%char); [reflexivity|]. cbn [orb].
  cbn [lex_int] in H. destruct (Ascii.eqb c "0"%char) eqn:Hz.
  - apply Ascii.eqb_eq in Hz. subst c. reflexivity.
  - destruct (is_digit c); [reflexivity|discriminate].
Qed.

Lemma lex_token_number (raw : string) (rest : list ascii) :
  number_literal raw = true -> ends_number rest = true ->
  lex_token (bytes_of raw ++ rest) = Some (TNumber raw, rest).
Proof.
  intros Hlit Hend. destruct (number_literal_head raw Hlit) as (c & r & Hraw & Hc).
  pose proof (lex_number_app (bytes_of raw) rest Hend) as Happ.
  unfold number_literal in Hlit.
  destruct (lex_number (bytes_of raw)) as [[lit [|x xs]]|]; try discriminate.
  apply bool_decide_eq_true in Hlit. subst lit. cbn [extend app] in Happ.
  destruct (number_head c Hc) as (_ & _ & _ & Hn & H1 & H2 & H3 & H4 & H5 & H6 & H7 & H8).
  rewrite Hraw in *. cbn [app lex_token].
  rewrite H1, H2, H3, H4, H5, H6, H7, H8, Hn. cbn [Ascii.eqb Bool.eqb].
  change (lex_number (c :: r ++ rest)%list) with (lex_number ((c :: r) ++ rest)).
  rewrite Happ, <- Hraw, string_of_bytes_of. reflexivity.
Qed.

(** *** One token of the scanner *)

Lemma follows_ends_number (rest : list ascii) : follows rest = true -> ends_number rest = true.
Proof.
  destruct rest as [|c r]; [reflexivity|]. cbn [follows ends_number].
  intros H. apply orb_true_iff in H as [H|H]; [apply orb_true_iff in H as [H|H]|];
    apply Ascii.eqb_eq in H; subst c; reflexivity.
Qed.

Lemma needDelim_cases (st : list frame) (k : Kind) :
  needDelim st k = None \/ needDelim st k = Some ":"%char \/ needDelim st k = Some ","%char.
Proof.
  destruct st as [|[n|n names] st]; cbn [needDelim]; [tauto| |].
  - destruct (negb (Nat.eqb n 0) && negb (is_closer k)); tauto.
  - destruct (Nat.odd n); [tauto|].
    destruct (negb (Nat.eqb n 0) && negb (is_closer k)); tauto.
Qed.

Lemma scan_token (st st' : list frame) (t : Token) (c : ascii) (r rest : list ascii)
    (fuel : nat) :
  is_space c = false -> Ascii.eqb c ":"%char = false -> Ascii.eqb c ","%char = false ->
  lex_token (c :: r ++ rest) = Some (t, rest) ->
  advance t st = Some st' ->
  (length (delim_bytes (needDelim st (normalize c)) ++ c :: r ++ rest) < fuel)%nat ->
  scan fuel (delim_bytes (needDelim st (normalize c)) ++ c :: r ++ rest) st =
  let (ts, tl) := scan fuel rest st' in (t :: ts, tl).
Proof.
  intros Hsp Hcolon Hcomma Hlex Hadv Hfuel.
  destruct fuel as [|fuel]; [lia|].
  assert (Hrest : (length rest < fuel)%nat).
  { rewrite length_app in Hfuel. cbn [length] in Hfuel. rewrite length_app in Hfuel. lia. }
  rewrite (scan_rounds (S fuel) fuel rest st') by lia.
  cbn [scan].
  destruct (needDelim_cases st (normalize c)) as [Hd|[Hd|Hd]]; rewrite Hd;
    cbn [delim_bytes app skip_space];
    [ | change (is_space ":"%char) with false | change (is_space ","%char) with false ];
    cbv iota.
  - rewrite Hsp, Hcolon, Hcomma. cbn [orb]. cbv iota.
    rewrite Hd, bool_decide_eq_true_2 by reflexivity.
    rewrite Hlex, Hadv. reflexivity.
  - change (Ascii.eqb ":"%char ":"%char || Ascii.eqb ":"%char ","%char) with true.
    cbv iota. cbn [skip_space]. rewrite Hsp.
    rewrite Hd, bool_decide_eq_true_2 by reflexivity.
    rewrite Hlex, Hadv. reflexivity.
  - change (Ascii.eqb ","%char ":"%char || Ascii.eqb ","%char ","%char) with true.
    cbv iota. cbn [skip_space]. rewrite Hsp.
    rewrite Hd, bool_decide_eq_true_2 by reflexivity.
    rewrite Hlex, Hadv. reflexivity.
Qed.

(** *** Elements and members *)

Ltac lengths :=
  repeat match goal with
         | H : context [length (_ ++ _)] |- _ => rewrite length_app in H
         | H : context [length (_ :: _)] |- _ => progress cbn [length] in H
         | |- context [length (_ ++ _)] => rewrite length_app
         | |- context [length (_ :: _)] => progress cbn [length]
         end;
  cbn [length] in *; lia.

Lemma enter_value (t : Token) (st : list frame) :
  value_position st = true -> enter t st = Some (after_value st).
Proof.
  destruct st as [|[n|n names] st]; cbn [value_position enter after_value]; try reflexivity.
  intros Hodd. rewrite <- Nat.negb_odd, Hodd. reflexivity.
Qed.

Lemma value_kind_is_closer (v : json) : is_closer (value_kind v) = false.
Proof. destruct v as [|[]| | | |]; reflexivity. Qed.

Lemma needDelim_array (n : nat) (st : list frame) (v : json) :
  delim_bytes (needDelim (ArrayFrame n :: st) (value_kind v)) =
  if Nat.eqb n 0 then [] else [","%char].
Proof.
  cbn [needDelim]. rewrite value_kind_is_closer. destruct (Nat.eqb n 0); reflexivity.
Qed.

Lemma follows_elems (es : list json) (rest : list ascii) :
  follows (render_elems render false es ++ "]"%char :: rest) = true.
Proof. destruct es; reflexivity. Qed.

Lemma follows_members (ms : list (string * json)) (rest : list ascii) :
  follows (render_members render false ms ++ "}"%char :: rest) = true.
Proof. destruct ms; reflexivity. Qed.

Lemma scan_elems (es : list json) :
  Forall reads_back es -> forallb well_formed es = true ->
  forall (n : nat) (st : list frame) (rest : list ascii) (fuel : nat),
    (length (render_elems render (Nat.eqb n 0) es ++ "]"%char :: rest) < fuel)%nat ->
    scan fuel (render_elems render (Nat.eqb n 0) es ++ "]"%char :: rest) (ArrayFrame n :: st) =
    let (ts, tl) := scan fuel ("]"%char :: rest) (ArrayFrame (n + length es) :: st) in
    (flat_map tokens_of es ++ ts, tl).
Proof.
  induction es as [|e es IH]; intros Hall Hwf n st rest fuel Hfuel.
  - cbn [render_elems app length flat_map]. rewrite Nat.add_0_r.
    destruct (scan fuel ("]"%char :: rest) (ArrayFrame n :: st)); reflexivity.
  - apply Forall_cons in Hall as [He Hall].
    cbn [forallb] in Hwf. apply andb_true_iff in Hwf as [Hwe Hwf].
    cbn [render_elems] in *. rewrite <- (needDelim_array n st e) in *.
    rewrite <- !app_assoc in *.
    rewrite (He Hwe (ArrayFrame n :: st)); [|reflexivity|apply follows_elems|exact Hfuel].
    cbn [after_value].
    pose proof (IH Hall Hwf (S n) st rest fuel) as Hrest. cbn [Nat.eqb] in Hrest.
    rewrite Hrest by lengths. clear Hrest.
    cbn [length flat_map]. rewrite Nat.add_succ_r. cbn [Nat.add].
    destruct (scan fuel ("]"%char :: rest) (ArrayFrame (S (n + length es)) :: st)).
    rewrite <- app_assoc. reflexivity.
Qed.

Lemma needDelim_member_name (n : nat) (names : list string) (st : list frame) :
  Nat.even n = true ->
  delim_bytes (needDelim (ObjectFrame n names :: st) dquote) =
  if Nat.eqb n 0 then [] else [","%char].
Proof.
  intros Heven. cbn [needDelim]. rewrite <- Nat.negb_even, Heven. cbn [negb].
  destruct (Nat.eqb n 0); reflexivity.
Qed.

Lemma scan_members (ms : list (string * json)) :
  Forall (fun kv => reads_back (snd kv)) ms ->
  forallb (fun kv => printable (fst kv) && well_formed (snd kv)) ms = true ->
  forall (n : nat) (names : list string) (st : list frame) (rest : list ascii) (fuel : nat),
    Nat.even n = true -> NoDup (map fst ms) ->
    (forall k, k ∈ map fst ms -> k ∉ names) ->
    (length (render_members render (Nat.eqb n 0) ms ++ "}"%char :: rest) < fuel)%nat ->
    scan fuel (render_members render (Nat.eqb n 0) ms ++ "}"%char :: rest)
      (ObjectFrame n names :: st) =
    let (ts, tl) := scan fuel ("}"%char :: rest)
                      (ObjectFrame (n + 2 * length ms) (rev (map fst ms) ++ names) :: st) in
    (flat_map member_tokens ms ++ ts, tl).
Proof.
  induction ms as [|[k v] ms IH]; intros Hall Hwf n names st rest fuel Heven Hnd Hfresh Hfuel.
  - cbn [render_members app length flat_map map rev]. rewrite Nat.add_0_r.
    destruct (scan fuel ("}"%char :: rest) (ObjectFrame n names :: st)); reflexivity.
  - apply Forall_cons in Hall as [Hv Hall]. cbn [snd] in Hv.
    cbn [forallb fst snd] in Hwf. apply andb_true_iff in Hwf as [Hkv Hwf].
    apply andb_true_iff in Hkv as [Hpk Hwv].
    cbn [map fst] in Hnd, Hfresh. apply NoDup_cons in Hnd as [Hk Hnd].
    cbn [render_members fst snd] in *.
    rewrite <- (needDelim_member_name n names st Heven) in *.
    rewrite <- !app_assoc in *. unfold render_string at 1. unfold render_string at 1 in Hfuel.
    cbn [app] in *. rewrite <- !app_assoc in *. cbn [app] in *.
    set (rest1 := (render v ++ render_members render false ms ++ "}"%char :: rest)%list) in *.
    assert (Hlex : lex_token (dquote :: flat_map escape_byte (bytes_of k)
                                ++ dquote :: ":"%char :: rest1)
                   = Some (TString k, ":"%char :: rest1)).
    { pose proof (lex_token_string k (":"%char :: rest1) Hpk) as H.
      unfold render_string in H. cbn [app] in H. rewrite <- app_assoc in H. exact H. }
    assert (Hadv : advance (TString k) (ObjectFrame n names :: st)
                   = Some (ObjectFrame (S n) (k :: names) :: st)).
    { cbn [advance enter]. rewrite Heven.
      rewrite bool_decide_eq_false_2; [reflexivity|].
      apply Hfresh. apply elem_of_cons. left. reflexivity. }
    pose proof (scan_token (ObjectFrame n names :: st)
                  (ObjectFrame (S n) (k :: names) :: st) (TString k) dquote
                  (flat_map escape_byte (bytes_of k) ++ [dquote]) (":"%char :: rest1) fuel
                  eq_refl eq_refl eq_refl) as Hname.
    change (normalize dquote) with dquote in Hname.
    rewrite <- !app_assoc in Hname. cbn [app] in Hname.
    rewrite (Hname Hlex Hadv Hfuel). clear Hname.
    assert (Hodd : Nat.odd (S n) = true) by (rewrite Nat.odd_succ; exact Heven).
    assert (Hcolon : forall kd, delim_bytes (needDelim (ObjectFrame (S n) (k :: names) :: st) kd)
                                = [":"%char]).
    { intros kd. cbn [needDelim]. rewrite Hodd. reflexivity. }
    pose proof (Hv Hwv (ObjectFrame (S n) (k :: names) :: st)
                  (render_members render false ms ++ "}"%char :: rest)%list fuel) as Hval.
    rewrite Hcolon in Hval. cbn [app value_position after_value] in Hval.
    subst rest1. rewrite Hval; [|exact Hodd|apply follows_members|lengths].
    pose proof (IH Hall Hwf (S (S n)) (k :: names) st rest fuel) as Hrest.
    cbn [Nat.eqb] in Hrest. rewrite Hrest; clear Hrest; cycle 1.
    { cbn [Nat.even]. exact Heven. }
    { exact Hnd. }
    { intros k' Hk' Hin. apply elem_of_cons in Hin as [->|Hin]; [contradiction|].
      apply (Hfresh k'); [apply elem_of_cons; right; exact Hk'|exact Hin]. }
    { lengths. }
    cbn [length map rev fst flat_map].
    replace (n + 2 * S (length ms))%nat with (S (S n) + 2 * length ms)%nat by lia.
    rewrite <- (app_assoc (rev (map fst ms)) [k] names). cbn [app].
    destruct (scan fuel ("}"%char :: rest)
                (ObjectFrame (S (S n) + 2 * length ms) (rev (map fst ms) ++ k :: names) :: st)).
    unfold member_tokens at 1. cbn [fst snd app]. rewrite <- app_assoc. reflexivity.
Qed.

(** *** Values *)

Lemma needDelim_closer (st : list frame) (n : nat) (k : Kind) :
  is_closer k = true ->
  needDelim (ArrayFrame n :: st) k = None /\
  forall names, Nat.even n = true -> needDelim (ObjectFrame n names :: st) k = None.
Proof.
  intros Hk. cbn [needDelim]. rewrite Hk. cbn [negb]. rewrite andb_false_r.
  split; [reflexivity|]. intros _ Heven. rewrite <- Nat.negb_even, Heven. reflexivity.
Qed.

Lemma even_double (n : nat) : Nat.even (0 + 2 * n) = true.
Proof. cbn [Nat.add]. rewrite Nat.even_mul. reflexivity. Qed.

Lemma scalar_reads_back (v : json) (t : Token) (c : ascii) (r : list ascii) :
  render v = c :: r -> tokens_of v = [t] -> normalize c = value_kind v ->
  is_space c = false -> Ascii.eqb c ":"%char = false -> Ascii.eqb c ","%char = false ->
  (t <> BeginObject /\ t <> BeginArray /\ t <> EndObject /\ t <> EndArray) ->
  (forall rest, follows rest = true -> lex_token (c :: r ++ rest) = Some (t, rest)) ->
  reads_back v.
Proof.
  intros Hr Ht Hk Hsp Hcolon Hcomma Hscalar Hlex _ st rest fuel Hpos Hfol Hfuel.
  rewrite Hr, Ht, <- Hk in *. cbn [app] in *.
  rewrite (scan_token st (after_value st) t c r rest fuel Hsp Hcolon Hcomma
             (Hlex rest Hfol)); [reflexivity| |exact Hfuel].
  rewrite <- (enter_value t st Hpos).
  destruct t; try reflexivity; destruct Hscalar as (? & ? & ? & ?); congruence.
Qed.

Lemma render_reads_back (v : json) : reads_back v.
Proof.
  induction v as [|b|raw|s|es IH|ms IH] using json_nested_ind.
  - apply (scalar_reads_back JNull TNull "n"%char (bytes_of "ull")); try reflexivity.
    repeat split; discriminate.
  - destruct b.
    + apply (scalar_reads_back (JBool true) TTrue "t"%char (bytes_of "rue")); try reflexivity.
      repeat split; discriminate.
    + apply (scalar_reads_back (JBool false) TFalse "f"%char (bytes_of "alse"));
        try reflexivity.
      repeat split; discriminate.
  - intros Hwf. pose proof Hwf as Hlit. cbn [well_formed] in Hlit.
    destruct (number_literal_head raw Hlit) as (c & r & Hraw & Hc).
    destruct (number_head c Hc) as (Hsp & Hcolon & Hcomma & Hn & _).
    revert Hwf. apply (scalar_reads_back (JNumber raw) (TNumber raw) c r); try assumption.
    + reflexivity.
    + repeat split; discriminate.
    + intros rest Hfol. change (c :: r ++ rest)%list with ((c :: r) ++ rest)%list.
      rewrite <- Hraw. apply lex_token_number; [exact Hlit|].
      apply follows_ends_number. exact Hfol.
  - intros Hwf. pose proof Hwf as Hp. cbn [well_formed] in Hp. revert Hwf.
    apply (scalar_reads_back (JString s) (TString s) dquote
             (flat_map escape_byte (bytes_of s) ++ [dquote])); try reflexivity.
    + repeat split; discriminate.
    + intros rest _. apply (lex_token_string s rest Hp).
  - intros Hwf st rest fuel Hpos Hfol Hfuel.
    cbn [render tokens_of value_kind well_formed] in *.
    cbn [app] in *. rewrite <- !app_assoc in *. cbn [app] in *.
    pose proof (scan_token st (ArrayFrame 0 :: after_value st) BeginArray "["%char []
                  (render_elems render true es ++ "]"%char :: rest) fuel
                  eq_refl eq_refl eq_refl eq_refl) as Hopen.
    cbn [app advance] in Hopen. rewrite (enter_value _ st Hpos) in Hopen.
    change (normalize "["%char) with "["%char in Hopen.
    rewrite (Hopen eq_refl Hfuel). clear Hopen.
    pose proof (scan_elems es IH Hwf 0 (after_value st) rest fuel) as Hes.
    cbn [Nat.eqb Nat.add] in Hes. rewrite Hes by lengths. clear Hes.
    pose proof (scan_token (ArrayFrame (length es) :: after_value st) (after_value st)
                  EndArray "]"%char [] rest fuel eq_refl eq_refl eq_refl eq_refl eq_refl)
      as Hclose.
    change (normalize "]"%char) with "]"%char in Hclose.
    rewrite (proj1 (needDelim_closer (after_value st) (length es) "]"%char eq_refl))
      in Hclose.
    cbn [delim_bytes app] in Hclose. rewrite Hclose by lengths. clear Hclose.
    destruct (scan fuel rest (after_value st)) as [ts tl].
    cbn [app]. rewrite <- app_assoc. reflexivity.
  - intros Hwf st rest fuel Hpos Hfol Hfuel.
    cbn [render tokens_of value_kind well_formed] in *.
    apply andb_true_iff in Hwf as [Hwf Hnd]. apply bool_decide_eq_true in Hnd.
    cbn [app] in *. rewrite <- !app_assoc in *. cbn [app] in *.
    pose proof (scan_token st (ObjectFrame 0 [] :: after_value st) BeginObject "{"%char []
                  (render_members render true ms ++ "}"%char :: rest) fuel
                  eq_refl eq_refl eq_refl eq_refl) as Hopen.
    cbn [app advance] in Hopen. rewrite (enter_value _ st Hpos) in Hopen.
    change (normalize "{"%char) with "{"%char in Hopen.
    rewrite (Hopen eq_refl Hfuel). clear Hopen.
    pose proof (scan_members ms IH Hwf 0 [] (after_value st) rest fuel eq_refl Hnd) as Hms.
    cbn [Nat.eqb] in Hms. rewrite Hms; clear Hms; cycle 1.
    { intros k _ Hin. apply elem_of_nil in Hin. exact Hin. }
    { lengths. }
    pose proof (scan_token (ObjectFrame (0 + 2 * length ms) (rev (map fst ms) ++ [])
                              :: after_value st) (after_value st)
                  EndObject "}"%char [] rest fuel eq_refl eq_refl eq_refl eq_refl) as Hclose.
    change (normalize "}"%char) with "}"%char in Hclose.
    rewrite (proj2 (needDelim_closer (after_value st) (0 + 2 * length ms) "}"%char eq_refl)
               _ (even_double (length ms))) in Hclose.
    cbn [delim_bytes app advance] in Hclose. rewrite (even_double (length ms)) in Hclose.
    rewrite (Hclose eq_refl) by lengths. clear Hclose.
    destruct (scan fuel rest (after_value st)) as [ts tl].
    cbn [app]. rewrite <- app_assoc. reflexivity.
Qed.

(** The decoder over the compact text of a well-formed document delivers
    the tokens of the document and ends at the end of the input. *)
Lemma NewDecoder_render (doc : json) :
  well_formed doc = true ->
  NewDecoder (gobytes.NewReader (string_of (render doc))) = mkDecoder (tokens_of doc) AtEOF.
Proof.
  intros Hwf.
  rewrite (NewDecoder_rounds _ (S (String.length (string_of (render doc))))) by lia.
  rewrite bytes_of_string_of, string_of_length.
  pose proof (render_reads_back doc Hwf [] [] (S (length (render doc))) eq_refl eq_refl) as H.
  cbn [needDelim delim_bytes app after_value] in H. rewrite app_nil_r in H.
  rewrite H by lia. cbn [scan skip_space]. rewrite app_nil_r. reflexivity.
Qed.

(** A value selected in the compact text of a well-formed document is
    extracted as its Dynamic Value. *)
Lemma extractSingleValue_of_text (doc v : json) (sel : Selector) (a : any) :
  well_formed doc = true ->
  resolve doc (gostrings.Split sel "."%char) = Some v ->
  plain_path doc (gostrings.Split sel "."%char) = true ->
  to_any v = Some a ->
  let raw := string_of (render doc) in
  extractSingleValue (gobytes.NewReader raw) sel raw = (a, None).
Proof.
  intros Hwf Hres Hplain Ha raw.
  apply (extractSingleValue_resolves raw doc [] sel v a); try assumption.
  subst raw. rewrite (NewDecoder_render doc Hwf), app_nil_r. reflexivity.
Qed.

(** * Further properties of the code *)

(** ** The condensed document of the error context *)

Lemma len_append (a b : string) : len (a ++ b) = len a + len b.
Proof. unfold len. rewrite string_length_append. lia. Qed.

Lemma bytes_of_slice_to (s : string) (n : Z) :
  bytes_of (gostrings.slice_to s n) = take (Z.to_nat n) (bytes_of s).
Proof. unfold gostrings.slice_to. apply bytes_of_string_of. Qed.

Lemma len_slice_to (s : string) (n : Z) :
  0 <= n <= len s -> len (gostrings.slice_to s n) = n.
Proof.
  intros Hn. unfold len, gostrings.slice_to in *.
  rewrite string_of_length, length_take, bytes_of_length. lia.
Qed.

Lemma last_index_spec (c : ascii) (l : list ascii) :
  forall i found : Z,
    gostrings.last_index c i found l = found \/
    (i <= gostrings.last_index c i found l < i + Z.of_nat (length l) /\
     l !! Z.to_nat (gostrings.last_index c i found l - i) = Some c).
Proof.
  induction l as [|b l IH]; intros i found; cbn [gostrings.last_index]; [left; reflexivity|].
  destruct (IH (i + 1) (if Ascii.eqb b c then i else found)) as [Hr|[Hr Hat]].
  - rewrite Hr. destruct (Ascii.eqb b c) eqn:Hb; [|left; reflexivity].
    right. apply Ascii.eqb_eq in Hb. subst b. cbn [length].
    split; [lia|]. rewrite Z.sub_diag. reflexivity.
  - right. cbn [length]. split; [lia|].
    replace (Z.to_nat (gostrings.last_index c (i + 1) (if Ascii.eqb b c then i else found) l - i))
      with (S (Z.to_nat (gostrings.last_index c (i + 1)
                           (if Ascii.eqb b c then i else found) l - (i + 1)))) by lia.
    exact Hat.
Qed.

(** The last occurrence found in a prefix of [s] is an occurrence in [s]. *)
Lemma LastIndex_slice (s : string) (n : Z) (c : ascii) :
  0 <= n <= len s ->
  gostrings.LastIndex (gostrings.slice_to s n) c = -1 \/
  (0 <= gostrings.LastIndex (gostrings.slice_to s n) c < n /\
   byte_at s (gostrings.LastIndex (gostrings.slice_to s n) c) = Some c).
Proof.
  intros Hn. unfold gostrings.LastIndex. rewrite bytes_of_slice_to.
  destruct (last_index_spec c (take (Z.to_nat n) (bytes_of s)) 0 (-1)) as [Hr|[Hr Hat]];
    [left; exact Hr|right].
  rewrite length_take, bytes_of_length in Hr. unfold len in Hn.
  split; [lia|]. unfold byte_at.
  destruct (Z.ltb_spec (gostrings.last_index c 0 (-1) (take (Z.to_nat n) (bytes_of s))) 0);
    [lia|].
  rewrite Z.sub_0_r in Hat. apply lookup_take_Some in Hat. tauto.
Qed.

Lemma truncateAtJSONBoundary_long (jsonStr : string) (maxLen : Z) :
  10 <= maxLen -> maxLen < len jsonStr ->
  exists cut : Z,
    truncateAtJSONBoundary jsonStr maxLen
      = (gostrings.slice_to jsonStr cut ++ "...[more]")%string /\
    0 <= cut <= maxLen - 10 /\
    (cut = maxLen - 10 \/ (50 < cut /\ at_boundary jsonStr cut)).
Proof.
  intros Hmin Hlong. unfold truncateAtJSONBoundary.
  destruct (Z.leb_spec (len jsonStr) maxLen) as [?|_]; [lia|]. cbv zeta.
  assert (Hn : 0 <= maxLen - 10 <= len jsonStr) by lia.
  pose proof (LastIndex_slice jsonStr (maxLen - 10) ","%char Hn) as Hcomma.
  pose proof (LastIndex_slice jsonStr (maxLen - 10) "}"%char Hn) as Hbrace.
  pose proof (LastIndex_slice jsonStr (maxLen - 10) "]"%char Hn) as Hbracket.
  set (lastComma := gostrings.LastIndex (gostrings.slice_to jsonStr (maxLen - 10)) ","%char) in *.
  set (lastBrace := gostrings.LastIndex (gostrings.slice_to jsonStr (maxLen - 10)) "}"%char) in *.
  set (lastBracket :=
         gostrings.LastIndex (gostrings.slice_to jsonStr (maxLen - 10)) "]"%char) in *.
  set (cut2 := if lastComma <? lastBrace then lastBrace + 1 else lastComma).
  set (cut3 := if cut2 <? lastBracket then lastBracket + 1 else cut2).
  destruct (Z.ltb_spec 50 cut3) as [Hcut|Hcut].
  - exists cut3. split; [reflexivity|].
    assert (Hb : at_boundary jsonStr cut3 /\ cut3 <= maxLen - 10).
    { unfold at_boundary. revert Hcut. subst cut3 cut2.
      repeat match goal with
             | |- context [?a <? ?b] => destruct (Z.ltb_spec a b)
             end;
        intros Hcut;
        repeat match goal with
               | |- context [?x + 1 - 1] => replace (x + 1 - 1) with x by lia
               end;
        destruct Hcomma as [?|[? ?]], Hbrace as [?|[? ?]], Hbracket as [?|[? ?]];
        try lia; (split; [tauto|lia]). }
    split; [lia|]. right. tauto.
  - exists (maxLen - 10). split; [reflexivity|]. split; [lia|]. left. reflexivity.
Qed.

Lemma truncateAtJSONBoundary_length (jsonStr : string) (maxLen : Z) :
  10 <= maxLen -> len (truncateAtJSONBoundary jsonStr maxLen) <= maxLen.
Proof.
  intros Hmin. destruct (Z.leb_spec (len jsonStr) maxLen) as [Hshort|Hlong].
  - unfold truncateAtJSONBoundary. apply Z.leb_le in Hshort as Hb. rewrite Hb. exact Hshort.
  - destruct (truncateAtJSONBoundary_long jsonStr maxLen Hmin Hlong) as (cut & -> & Hcut & _).
    rewrite len_append, len_slice_to by lia. change (len "...[more]") with 9. lia.
Qed.

(** X1. The text that enrichError attaches to an error under
    condensed_json (the result of condensedJSON) is never longer than 200
    bytes, whatever the document. *)
Theorem condensedJSON_length (s : extractState) : len (condensedJSON s) <= 200.
Proof.
  unfold condensedJSON.
  destruct (len (rawBytes s) =? 0); [vm_compute; discriminate|].
  destruct (Z.leb_spec (len (rawBytes s)) 100) as [Hshort|_]; [lia|]. cbv zeta.
  match goal with |- context [200 <? ?x] => destruct (Z.ltb_spec 200 x) as [Hlong|Hfit] end.
  - apply truncateAtJSONBoundary_length. lia.
  - exact Hfit.
Qed.

(** X2. For a limit [maxLen] of at least 10, truncateAtJSONBoundary
    returns a string of at most [maxLen] bytes unchanged.  A longer one
    becomes its first [cut] bytes followed by the mark [...[more]], where
    [cut] is at most [maxLen - 10], so that the result is shorter than
    the limit; and [cut] either is [maxLen - 10] or is greater than 50
    and ends a JSON structure: it follows a closing brace or bracket, or
    stands right before a comma. *)
Theorem truncateAtJSONBoundary_cut (jsonStr : string) (maxLen : Z) :
  10 <= maxLen ->
  (len jsonStr <= maxLen -> truncateAtJSONBoundary jsonStr maxLen = jsonStr) /\
  (maxLen < len jsonStr ->
   exists cut : Z,
     truncateAtJSONBoundary jsonStr maxLen
       = (gostrings.slice_to jsonStr cut ++ "...[more]")%string /\
     0 <= cut <= maxLen - 10 /\
     len (truncateAtJSONBoundary jsonStr maxLen) = cut + 9 /\
     (cut = maxLen - 10 \/ (50 < cut /\ at_boundary jsonStr cut))).
Proof.
  intros Hmin. split.
  - intros Hshort. unfold truncateAtJSONBoundary. apply Z.leb_le in Hshort.
    rewrite Hshort. reflexivity.
  - intros Hlong.
    destruct (truncateAtJSONBoundary_long jsonStr maxLen Hmin Hlong) as (cut & Heq & Hcut & Hb).
    exists cut. split; [exact Heq|]. split; [exact Hcut|]. split; [|exact Hb].
    rewrite Heq, len_append, len_slice_to by lia. reflexivity.
Qed.

Lemma truncateAtJSONBoundary_cut_witness :
  exists cut : Z,
    truncateAtJSONBoundary items_document 100
      = (gostrings.slice_to items_document cut ++ "...[more]")%string /\
    0 <= cut <= 100 - 10 /\
    len (truncateAtJSONBoundary items_document 100) = cut + 9 /\
    (cut = 100 - 10 \/ (50 < cut /\ at_boundary items_document cut)).
Proof.
  exact (proj2 (truncateAtJSONBoundary_cut items_document 100 ltac:(lia))
           ltac:(vm_compute; reflexivity)).
Defined.

Lemma contains_byte (c : ascii) (l : list ascii) :
  gostrings.contains [c] l = existsb (Ascii.eqb c) l.
Proof.
  induction l as [|b l IH]; [reflexivity|].
  cbn [gostrings.contains gostrings.has_prefix existsb].
  rewrite IH, andb_true_r. reflexivity.
Qed.

(** Replacing leaves only bytes of the input and of the replacement. *)
Lemma replace_all_bytes (x : ascii) (old new : list ascii) (l : list ascii) :
  existsb (Ascii.eqb x) new = false -> existsb (Ascii.eqb x) l = false ->
  forall skip, existsb (Ascii.eqb x) (gostrings.replace_all old new skip l) = false.
Proof.
  intros Hnew. induction l as [|c r IH]; intros Hl skip; [reflexivity|].
  cbn [existsb] in Hl. apply orb_false_iff in Hl as [Hc Hr].
  cbn [gostrings.replace_all]. destruct skip as [|k]; [|apply IH; exact Hr].
  destruct (gostrings.has_prefix old (c :: r)).
  - rewrite existsb_app, Hnew, IH by exact Hr. reflexivity.
  - cbn [existsb]. rewrite Hc, IH by exact Hr. reflexivity.
Qed.

(** Replacing a byte by another one removes it. *)
Lemma replace_all_byte (c d : ascii) (l : list ascii) :
  Ascii.eqb c d = false ->
  existsb (Ascii.eqb c) (gostrings.replace_all [c] [d] O l) = false.
Proof.
  intros Hcd. induction l as [|b l IH]; [reflexivity|].
  cbn [gostrings.replace_all gostrings.has_prefix length Nat.pred].
  rewrite andb_true_r. destruct (Ascii.eqb c b) eqn:Hb.
  - cbn [app existsb]. rewrite Hcd, IH. reflexivity.
  - cbn [existsb]. rewrite Hb, IH. reflexivity.
Qed.

Lemma collapse_spaces_bytes (x : ascii) (rounds : nat) :
  Ascii.eqb x " "%char = false ->
  forall formatted : string,
    existsb (Ascii.eqb x) (bytes_of formatted) = false ->
    existsb (Ascii.eqb x) (bytes_of (collapse_spaces rounds formatted)) = false.
Proof.
  intros Hx. induction rounds as [|k IH]; intros formatted Hf; [exact Hf|].
  cbn [collapse_spaces]. destruct (gostrings.Contains formatted "  "); [|exact Hf].
  apply IH. unfold gostrings.ReplaceAll. rewrite bytes_of_string_of.
  apply replace_all_bytes; [|exact Hf]. cbn [bytes_of list_ascii_of_string existsb].
  rewrite Hx. reflexivity.
Qed.

(** A prefix followed by the mark of a truncation holds no byte and no
    pair of spaces that the whole string does not hold. *)
Lemma existsb_take_mark (x : ascii) (l mark : list ascii) (n : nat) :
  existsb (Ascii.eqb x) l = false -> existsb (Ascii.eqb x) mark = false ->
  existsb (Ascii.eqb x) (take n l ++ mark) = false.
Proof.
  intros Hl Hm. rewrite existsb_app, Hm, orb_false_r.
  revert n. induction l as [|c l IH]; intros n; [destruct n; reflexivity|].
  cbn [existsb] in Hl. apply orb_false_iff in Hl as [Hc Hl].
  destruct n as [|n]; [reflexivity|]. cbn [take existsb]. rewrite Hc, IH by exact Hl.
  reflexivity.
Qed.

Lemma spaces_take_mark (l : list ascii) (m : ascii) (mark : list ascii) :
  Ascii.eqb " "%char m = false ->
  gostrings.contains [" "%char; " "%char] (m :: mark) = false ->
  gostrings.contains [" "%char; " "%char] l = false ->
  forall n, gostrings.contains [" "%char; " "%char] (take n l ++ m :: mark) = false.
Proof.
  intros Hm Hmark. induction l as [|c l IH]; intros Hl n.
  - destruct n; exact Hmark.
  - destruct n as [|n]; [exact Hmark|].
    cbn [gostrings.contains] in Hl. apply orb_false_iff in Hl as [Hp Hl].
    cbn [take app gostrings.contains]. rewrite (IH Hl n), orb_false_r.
    cbn [gostrings.has_prefix] in Hp |- *.
    destruct (Ascii.eqb " "%char c); [|reflexivity]. cbn [andb] in Hp |- *.
    destruct l as [|b l]; [destruct n; cbn [take app]; rewrite Hm; reflexivity|].
    destruct n as [|n]; cbn [take app]; [rewrite Hm; reflexivity|].
    rewrite andb_true_r in Hp. rewrite Hp. reflexivity.
Qed.

Lemma newline_tab_free (raw : string) :
  let formatted :=
    gostrings.ReplaceAll (gostrings.ReplaceAll raw (byte_string 10) " ") (byte_string 9) " " in
  existsb (Ascii.eqb (ascii_of_nat 10)) (bytes_of formatted) = false /\
  existsb (Ascii.eqb (ascii_of_nat 9)) (bytes_of formatted) = false.
Proof.
  cbv zeta. unfold gostrings.ReplaceAll. rewrite !bytes_of_string_of. split.
  - apply replace_all_bytes; [reflexivity|].
    apply (replace_all_byte (ascii_of_nat 10) " "%char). reflexivity.
  - apply (replace_all_byte (ascii_of_nat 9) " "%char). reflexivity.
Qed.

(** X3. For a document of more than 100 bytes the text under
    condensed_json holds no line feed, no tab and no two spaces side by
    side: it is a single line, also after the truncation. *)
Theorem condensedJSON_single_line (s : extractState) :
  100 < len (rawBytes s) ->
  gostrings.Contains (condensedJSON s) (byte_string 10) = false /\
  gostrings.Contains (condensedJSON s) (byte_string 9) = false /\
  gostrings.Contains (condensedJSON s) "  " = false.
Proof.
  intros Hlong. unfold condensedJSON.
  destruct (Z.eqb_spec (len (rawBytes s)) 0) as [?|_]; [lia|].
  destruct (Z.leb_spec (len (rawBytes s)) 100) as [?|_]; [lia|]. cbv zeta.
  destruct (newline_tab_free (rawBytes s)) as [Hnl Htab].
  set (formatted := gostrings.ReplaceAll
                      (gostrings.ReplaceAll (rawBytes s) (byte_string 10) " ")
                      (byte_string 9) " ") in *.
  apply (collapse_spaces_bytes (ascii_of_nat 10) (String.length formatted) eq_refl) in Hnl.
  apply (collapse_spaces_bytes (ascii_of_nat 9) (String.length formatted) eq_refl) in Htab.
  pose proof (collapse_spaces_done (String.length formatted) formatted (Nat.le_refl _)) as Hsp.
  set (collapsed := collapse_spaces (String.length formatted) formatted) in *.
  unfold gostrings.Contains in *.
  change (bytes_of (byte_string 10)) with [ascii_of_nat 10].
  change (bytes_of (byte_string 9)) with [ascii_of_nat 9].
  change (bytes_of "  ") with [" "%char; " "%char] in *.
  destruct (Z.ltb_spec 200 (len collapsed)) as [Hcut|_].
  - destruct (truncateAtJSONBoundary_long collapsed 200 ltac:(lia) Hcut) as (cut & -> & _ & _).
    rewrite bytes_of_append, bytes_of_slice_to, !contains_byte.
    split; [|split].
    + apply existsb_take_mark; [exact Hnl|reflexivity].
    + apply existsb_take_mark; [exact Htab|reflexivity].
    + apply (spaces_take_mark (bytes_of collapsed) "."%char (bytes_of "..[more]"));
        [reflexivity|reflexivity|exact Hsp].
  - rewrite !contains_byte. auto.
Qed.

Lemma condensedJSON_single_line_witness :
  gostrings.Contains (condensedJSON (initial_state spread_document "x")) (byte_string 10)
    = false /\
  gostrings.Contains (condensedJSON (initial_state spread_document "x")) (byte_string 9)
    = false /\
  gostrings.Contains (condensedJSON (initial_state spread_document "x")) "  " = false.
Proof.
  exact (condensedJSON_single_line (initial_state spread_document "x")
           ltac:(vm_compute; reflexivity)).
Defined.

Lemma replace_all_absent (old new : list ascii) (l : list ascii) :
  gostrings.contains old l = false -> gostrings.replace_all old new O l = l.
Proof.
  induction l as [|c r IH]; [reflexivity|].
  cbn [gostrings.contains gostrings.replace_all]. intros H.
  apply orb_false_iff in H as [Hp Hc]. rewrite Hp, (IH Hc). reflexivity.
Qed.

Lemma ReplaceAll_absent (s old new : string) :
  gostrings.Contains s old = false -> gostrings.ReplaceAll s old new = s.
Proof.
  intros H. unfold gostrings.ReplaceAll, gostrings.Contains in *.
  rewrite (replace_all_absent _ _ _ H). apply string_of_bytes_of.
Qed.

(** X4. A non-empty document of at most 200 bytes that, when it is
    longer than 100 bytes, holds no line feed, no tab and no two spaces
    side by side is shown under condensed_json as it is. *)
Theorem condensedJSON_unchanged (s : extractState) :
  rawBytes s <> EmptyString -> len (rawBytes s) <= 200 ->
  (100 < len (rawBytes s) ->
   gostrings.Contains (rawBytes s) (byte_string 10) = false /\
   gostrings.Contains (rawBytes s) (byte_string 9) = false /\
   gostrings.Contains (rawBytes s) "  " = false) ->
  condensedJSON s = rawBytes s.
Proof.
  intros Hne Hlen Hclean. unfold condensedJSON. rewrite (len_nonzero _ Hne).
  destruct (Z.leb_spec (len (rawBytes s)) 100) as [_|Hlong]; [reflexivity|]. cbv zeta.
  destruct (Hclean Hlong) as (Hnl & Htab & Hsp).
  rewrite (ReplaceAll_absent _ _ _ Hnl), (ReplaceAll_absent _ _ _ Htab).
  assert (Hcol : forall n, collapse_spaces n (rawBytes s) = rawBytes s).
  { intros [|n]; [reflexivity|]. cbn [collapse_spaces]. rewrite Hsp. reflexivity. }
  rewrite Hcol. destruct (Z.ltb_spec 200 (len (rawBytes s))); [lia|reflexivity].
Qed.

Lemma condensedJSON_unchanged_witness :
  condensedJSON (initial_state items_document "x") = items_document.
Proof.
  exact (condensedJSON_unchanged (initial_state items_document "x")
           ltac:(vm_compute; discriminate) ltac:(vm_compute; discriminate)
           ltac:(intros _; vm_compute; repeat split)).
Defined.

(** ** The context of every failure *)

Lemma same_context_refl (s : extractState) : same_context s s.
Proof. repeat split. Qed.

Lemma same_context_with_decoder (s s' : extractState) (d : Decoder) :
  same_context s s' -> same_context s (with_decoder s' d).
Proof. intros H. exact H. Qed.

Lemma context_kvs_same (s s' : extractState) :
  same_context s s' -> context_kvs s' = context_kvs s.
Proof.
  intros (H1 & H2 & H3 & H4 & H5). unfold context_kvs, condensedJSON.
  rewrite H1, H2, H3, H4, H5. reflexivity.
Qed.

Lemma silent_foreign (pkg msg : string) : silent (Foreign pkg msg).
Proof. intros t. reflexivity. Qed.

Lemma NewDecoder_silent (raw : string) : silent_decoder (NewDecoder (gobytes.NewReader raw)).
Proof.
  unfold silent_decoder, NewDecoder. cbn [gobytes.NewReader data fault].
  pose proof (scan_no_fault (S (length (bytes_of raw))) (bytes_of raw) []) as H.
  destruct (scan (S (length (bytes_of raw))) (bytes_of raw) []) as [ts tl].
  cbn [tail snd] in *. destruct tl; try apply silent_foreign. now destruct (H e).
Qed.

Lemma ReadToken_silent (d d' : Decoder) (r : result Token) :
  silent_decoder d -> ReadToken d = (d', r) ->
  silent_decoder d' /\ forall e, r = Fail e -> silent e.
Proof.
  intros Hd. unfold ReadToken. destruct (pending d) as [|t ts]; intros H; injection H as <- <-.
  - split; [exact Hd|]. intros e He. injection He as <-. exact Hd.
  - split; [exact Hd|]. discriminate.
Qed.

Lemma SkipValue_silent (d d' : Decoder) (r : option error) :
  silent_decoder d -> SkipValue d = (d', r) ->
  silent_decoder d' /\ forall e, r = Some e -> silent e.
Proof.
  intros Hd. unfold SkipValue.
  destruct (skip_tokens O (pending d)); intros H; injection H as <- <-.
  - split; [exact Hd|]. discriminate.
  - split; [exact Hd|]. intros e He. injection He as <-.
    destruct (pending d) as [|t ts]; [exact Hd|].
    destruct (closes t); [apply silent_foreign|exact Hd].
Qed.

Lemma UnmarshalDecode_silent (d d' : Decoder) (v : any) (r : option error) :
  silent_decoder d -> jsonv2.UnmarshalDecode d = (d', v, r) ->
  forall e, r = Some e -> silent e.
Proof.
  intros Hd. unfold jsonv2.UnmarshalDecode.
  destruct (jsonv2.decode_value _ _) as [[a ts]|]; intros H; injection H as <- <- <-.
  - discriminate.
  - intros e He. injection He as <-.
    destruct (skip_tokens O (pending d)); [apply silent_foreign|exact Hd].
Qed.

Lemma traversal_error_enriched (s s' : extractState) (b : sentinel) (rest : list part) :
  same_context s s' -> count_sentinels rest = O ->
  bool_decide (b ∈ traversal_kinds) = true ->
  forallb (fun kv => fresh_key (fst kv)) (fst (pairs_and_cause rest)) = true ->
  (forall x, snd (pairs_and_cause rest) = Some x -> silent x) ->
  traversal_error s (enrichError s' (sent ErrJSONPathTraversalFailed :: sent b :: rest)).
Proof.
  intros Hs Hrest Hb Hfresh Hcause.
  change (sent ErrJSONPathTraversalFailed :: sent b :: rest)
    with (map PErr [Sentinel ErrJSONPathTraversalFailed; Sentinel b] ++ rest).
  rewrite (enrichError_shape _ _ _ Hrest), (context_kvs_same s s' Hs).
  destruct (pairs_and_cause rest) as [kvs c]. exists b, kvs, c.
  split; [reflexivity|]. split; [apply bool_decide_eq_true in Hb; exact Hb|].
  split; [exact Hfresh|exact Hcause].
Qed.

Ltac traversal_error_built :=
  match goal with
  | |- traversal_error _ (enrichError _ (sent ErrJSONPathTraversalFailed :: sent _ :: _)) =>
      apply traversal_error_enriched;
      [ assumption || (repeat split)
      | reflexivity
      | reflexivity
      | reflexivity
      | cbn; intros ? Hcause; try discriminate Hcause; injection Hcause as <-; auto ]
  end.

Lemma skipElements_context (todo : nat) :
  forall (s0 s s' : extractState) (targetIdx currentIdx c' : Z) (err : option error),
    same_context s0 s -> silent_decoder (decoder s) ->
    skipElements todo s targetIdx currentIdx = (s', err, c') ->
    same_context s0 s' /\ silent_decoder (decoder s') /\
    forall e, err = Some e -> traversal_error s0 e.
Proof.
  induction todo as [|k IH]; intros s0 s s' targetIdx currentIdx c' err Hs Hd H;
    cbn [skipElements] in H.
  - injection H as <- <- <-. split; [exact Hs|]. split; [exact Hd|discriminate].
  - destruct (kind_is (PeekKind (decoder s)) "]"%char).
    + injection H as <- <- <-. split; [exact Hs|]. split; [exact Hd|].
      intros e He. injection He as <-. traversal_error_built.
    + destruct (SkipValue (decoder s)) as [d r] eqn:Hskip.
      destruct (SkipValue_silent _ _ _ Hd Hskip) as [Hd' Hr].
      destruct r as [e0|].
      * injection H as <- <- <-. split; [exact Hs|]. split; [exact Hd'|].
        intros e He. injection He as <-. specialize (Hr e0 eq_refl). traversal_error_built.
      * eapply IH; [| |exact H]; [exact Hs|exact Hd'].
Qed.

Lemma navigateArrayIndex_context (s0 s s' : extractState) (i : Z) (err : option error) :
  same_context s0 s -> silent_decoder (decoder s) ->
  navigateArrayIndex s i = (s', err) ->
  same_context s0 s' /\ silent_decoder (decoder s') /\
  forall e, err = Some e -> traversal_error s0 e.
Proof.
  intros Hs Hd H. unfold navigateArrayIndex in H.
  destruct (i <? 0).
  { injection H as <- <-. split; [exact Hs|]. split; [exact Hd|].
    intros e He. injection He as <-. traversal_error_built. }
  destruct (negb (kind_is (PeekKind (decoder s)) "["%char)).
  { injection H as <- <-. split; [exact Hs|]. split; [exact Hd|].
    intros e He. injection He as <-. traversal_error_built. }
  destruct (ReadToken (decoder s)) as [d r] eqn:Hread.
  destruct (ReadToken_silent _ _ _ Hd Hread) as [Hd' Hr].
  destruct r as [t|e0].
  - destruct (skipElements (Z.to_nat i) (with_decoder s d) i 0) as [[s1 err1] c1] eqn:Hskip.
    destruct (skipElements_context (Z.to_nat i) s0 (with_decoder s d) s1 i 0 c1 err1
                Hs Hd' Hskip) as (Hs1 & Hd1 & Herr1).
    destruct err1 as [e1|].
    + injection H as <- <-. split; [exact Hs1|]. split; [exact Hd1|].
      intros e He. injection He as <-. now apply Herr1.
    + destruct (kind_is (PeekKind (decoder s1)) "]"%char); injection H as <- <-.
      * split; [exact Hs1|]. split; [exact Hd1|].
        intros e He. injection He as <-. traversal_error_built.
      * split; [exact Hs1|]. split; [exact Hd1|discriminate].
  - injection H as <- <-. split; [exact Hs|]. split; [exact Hd'|].
    intros e He. injection He as <-. specialize (Hr e0 eq_refl). traversal_error_built.
Qed.

Lemma searchKey_context (fuel : nat) :
  forall (s0 s s' : extractState) (k : string) (avail : list string) (err : option error),
    same_context s0 s -> silent_decoder (decoder s) ->
    searchKey fuel s k avail = Some (s', err) ->
    same_context s0 s' /\ silent_decoder (decoder s') /\
    forall e, err = Some e -> traversal_error s0 e.
Proof.
  induction fuel as [|fuel IH]; intros s0 s s' k avail err Hs Hd H; [discriminate|].
  cbn [searchKey] in H.
  destruct (negb (kind_is (PeekKind (decoder s)) "}"%char)).
  - destruct (ReadToken (decoder s)) as [d r] eqn:Hread.
    destruct (ReadToken_silent _ _ _ Hd Hread) as [Hd' Hr].
    destruct r as [t|e0].
    + destruct (String.eqb (unquote_key (Token_String t)) k).
      * injection H as <- <-. split; [exact Hs|]. split; [exact Hd'|discriminate].
      * destruct (SkipValue (decoder (with_decoder s d))) as [d2 r2] eqn:Hskip.
        destruct (SkipValue_silent _ _ _ Hd' Hskip) as [Hd2 Hr2].
        destruct r2 as [e2|].
        -- injection H as <- <-. split; [exact Hs|]. split; [exact Hd2|].
           intros e He. injection He as <-. specialize (Hr2 e2 eq_refl).
           traversal_error_built.
        -- eapply IH; [| |exact H]; [exact Hs|exact Hd2].
    + injection H as <- <-. split; [exact Hs|]. split; [exact Hd'|].
      intros e He. injection He as <-. specialize (Hr e0 eq_refl). traversal_error_built.
  - injection H as <- <-. split; [exact Hs|]. split; [exact Hd|].
    intros e He. injection He as <-. traversal_error_built.
Qed.

Lemma navigateObjectKey_context (s0 s s' : extractState) (k : string) (err : option error) :
  same_context s0 s -> silent_decoder (decoder s) ->
  navigateObjectKey s k = (s', err) ->
  same_context s0 s' /\ silent_decoder (decoder s') /\
  forall e, err = Some e -> traversal_error s0 e.
Proof.
  intros Hs Hd H. unfold navigateObjectKey in H.
  destruct (negb (kind_is (PeekKind (decoder s)) "{"%char)).
  { injection H as <- <-. split; [exact Hs|]. split; [exact Hd|].
    intros e He. injection He as <-. traversal_error_built. }
  destruct (ReadToken (decoder s)) as [d r] eqn:Hread.
  destruct (ReadToken_silent _ _ _ Hd Hread) as [Hd' Hr].
  destruct r as [t|e0].
  - destruct (searchKey_returns (S (length (pending (decoder (with_decoder s d)))))
                (with_decoder s d) k []) as [[s1 err1] Hsearch]; [lia|].
    rewrite Hsearch in H. injection H as <- <-.
    eapply searchKey_context; [| |exact Hsearch]; [exact Hs|exact Hd'].
  - injection H as <- <-. split; [exact Hs|]. split; [exact Hd'|].
    intros e He. injection He as <-. specialize (Hr e0 eq_refl). traversal_error_built.
Qed.

Lemma navigateToSegment_context (s0 s s' : extractState) (seg : string) (err : option error) :
  same_context s0 s -> silent_decoder (decoder s) ->
  navigateToSegment s seg = (s', err) ->
  same_context s0 s' /\ silent_decoder (decoder s') /\
  forall e, err = Some e -> traversal_error s0 e.
Proof.
  intros Hs Hd H. unfold navigateToSegment in H. destruct (strconv.Atoi seg).
  - eapply navigateArrayIndex_context; eassumption.
  - eapply navigateObjectKey_context; eassumption.
Qed.

(** The segment loop: a failure is a traversal error in the context of
    the segment it occurred at, with the segments before it as progress. *)
Lemma navigateSegments_context (raw : string) (sel : Selector) (segs : list string) :
  forall (s s' : extractState) (i : nat) (err : option error),
    selector s = sel -> segments s = gostrings.Split sel "."%char -> rawBytes s = raw ->
    pathProgress s = take i (gostrings.Split sel "."%char) ->
    drop i (gostrings.Split sel "."%char) = segs ->
    (i <= length (gostrings.Split sel "."%char))%nat ->
    position s = Nat.pred i ->
    silent_decoder (decoder s) ->
    navigateSegments s i segs = (s', err) ->
    match err with
    | Some e =>
        exists k : nat,
          (k < length (gostrings.Split sel "."%char))%nat /\
          traversal_error (at_segment raw sel k k) e
    | None =>
        same_context
          (at_segment raw sel (Nat.pred (length (gostrings.Split sel "."%char)))
             (length (gostrings.Split sel "."%char))) s' /\
        silent_decoder (decoder s')
    end.
Proof.
  induction segs as [|seg segs IH];
    intros s s' i err Hsel Hsegs Hraw Hprog Hdrop Hle Hpos Hd H; cbn [navigateSegments] in H.
  - injection H as <- <-.
    assert (Hi : (length (gostrings.Split sel "."%char) <= i)%nat).
    { apply drop_nil_inv in Hdrop. exact Hdrop. }
    assert (i = length (gostrings.Split sel "."%char)) as -> by lia.
    split; [|exact Hd].
    unfold same_context, at_segment. cbn [selector segments pathProgress position rawBytes].
    rewrite Hsel, Hsegs, Hraw, Hprog, Hpos. repeat split.
  - assert (Hi : gostrings.Split sel "."%char !! i = Some seg).
    { rewrite <- (Nat.add_0_r i), <- lookup_drop, Hdrop. reflexivity. }
    assert (Hlt : (i < length (gostrings.Split sel "."%char))%nat).
    { apply lookup_lt_Some in Hi. exact Hi. }
    assert (Hctx : same_context (at_segment raw sel i i) (with_position s i)).
    { unfold same_context, at_segment.
      cbn [selector segments pathProgress position rawBytes with_position].
      rewrite Hsel, Hsegs, Hraw, Hprog. repeat split. }
    destruct (String.eqb seg EmptyString).
    { injection H as <- <-. exists i. split; [exact Hlt|]. traversal_error_built. }
    destruct (navigateToSegment (with_position s i) seg) as [s1 err1] eqn:Hnav.
    destruct (navigateToSegment_context _ _ _ _ _ Hctx Hd Hnav) as (Hs1 & Hd1 & Herr1).
    destruct err1 as [e1|].
    + injection H as <- <-. exists i. split; [exact Hlt|]. now apply Herr1.
    + destruct Hs1 as (H1 & H2 & H3 & H4 & H5).
      cbn [at_segment selector segments pathProgress position rawBytes] in H1, H2, H3, H4, H5.
      refine (IH _ s' (S i) err _ _ _ _ _ _ _ _ H); try assumption.
      * cbn [with_pathProgress pathProgress]. rewrite H3. symmetry. apply take_S_r. exact Hi.
      * rewrite (drop_S _ _ _ Hi) in Hdrop. injection Hdrop as Hdrop. exact Hdrop.
Qed.

(** The failures of extractSingleValue on a non-empty selector. *)
Lemma outcome_located (raw : string) (sel : Selector) (v : any) (e : error) :
  sel <> EmptyString -> outcome raw sel = (v, Some e) ->
  let n := length (gostrings.Split sel "."%char) in
  (exists k : nat, (k < n)%nat /\ traversal_error (at_segment raw sel k k) e) \/
  (exists cause : error,
     e = unmarshal_error (at_segment raw sel (Nat.pred n) n) cause /\ silent cause).
Proof.
  intros Hsel H n. unfold outcome, extractSingleValue in H.
  rewrite (len_nonzero _ Hsel) in H.
  destruct (navigateSegments _ O _) as [s1 err1] eqn:Hnav.
  unfold newExtractState in Hnav. cbn [segments] in Hnav.
  pose proof (navigateSegments_context raw sel _
                (mkState (NewDecoder (gobytes.NewReader raw)) sel
                   (gostrings.Split sel "."%char) [] O raw) s1 O err1
                eq_refl eq_refl eq_refl eq_refl eq_refl (Nat.le_0_l _) eq_refl
                (NewDecoder_silent raw) Hnav) as Hctx.
  destruct err1 as [e1|].
  { injection H as <- <-. left. exact Hctx. }
  destruct Hctx as [Hctx Hd1].
  destruct (jsonv2.UnmarshalDecode (decoder s1)) as [[d a] r] eqn:Hdec.
  pose proof (UnmarshalDecode_silent _ _ _ _ Hd1 Hdec) as Hr.
  destruct r as [e0|]; [|discriminate].
  injection H as <- <-. right. exists e0. split; [|exact (Hr e0 eq_refl)].
  change [sent ErrJSONStreamingParseFailed; sent ErrJSONUnmarshalFailed; PErr e0]
    with (map PErr [Sentinel ErrJSONStreamingParseFailed; Sentinel ErrJSONUnmarshalFailed; e0]
          ++ []).
  rewrite (enrichError_shape (with_decoder s1 d)
             [Sentinel ErrJSONStreamingParseFailed; Sentinel ErrJSONUnmarshalFailed; e0] []
             eq_refl).
  cbn [pairs_and_cause].
  rewrite app_nil_r, (context_kvs_same _ (with_decoder s1 d) Hctx). reflexivity.
Qed.

Lemma find_fresh (key : string) (kvs : list (string * kvalue)) :
  fresh_key key = false ->
  forallb (fun kv => fresh_key (fst kv)) kvs = true ->
  List.find (fun kv => String.eqb (fst kv) key) kvs = None.
Proof.
  intros Hkey. induction kvs as [|[k v] kvs IH]; [reflexivity|].
  cbn [forallb List.find fst]. intros H. apply andb_true_iff in H as [Hk H].
  destruct (String.eqb_spec k key) as [->|_]; [congruence|]. exact (IH H).
Qed.

(** What can be read off an error under the keys of the context. *)
Lemma kv_get_context (s : extractState) (es : list error) (kvs : list (string * kvalue))
    (c : option error) :
  forallb (fun kv => fresh_key (fst kv)) kvs = true ->
  let e := Entry es (context_kvs s ++ kvs) c in
  kv_get e "json_path" = Some (VStr (selector s)) /\
  kv_get e "segment" = VStr <$> segments s !! position s /\
  kv_get e "segment_position"
    = (fun _ => VInt (Z.of_nat (position s))) <$> segments s !! position s /\
  kv_get e "path_progress"
    = match pathProgress s with [] => None | _ :: _ => Some (VStrs (pathProgress s)) end /\
  kv_get e "condensed_json" = Some (VStr (condensedJSON s)).
Proof.
  intros Hfresh e. subst e. unfold kv_get, context_kvs.
  pose proof (find_fresh "segment" kvs eq_refl Hfresh) as H1.
  pose proof (find_fresh "segment_position" kvs eq_refl Hfresh) as H2.
  pose proof (find_fresh "path_progress" kvs eq_refl Hfresh) as H3.
  destruct (segments s !! position s) as [seg|], (pathProgress s) as [|p ps];
    cbn [app List.find fst String.eqb Ascii.eqb Bool.eqb fmap option_fmap option_map snd];
    rewrite ?H1, ?H2, ?H3; repeat split; reflexivity.
Qed.

Lemma take_nonempty {A : Type} (l : list A) (k : nat) :
  (0 < k)%nat -> l <> [] -> take k l <> [].
Proof. destruct k, l; cbn; intros; try lia; congruence. Qed.

(** X5. Every failure of extractSingleValue on a non-empty selector
    carries the selector under json_path and the condensed document under
    condensed_json, and names a segment of the selector with its index
    under segment and segment_position.  A traversal failure names the
    segment it occurred at and lists the segments passed before it under
    path_progress (no such entry at the first segment); a failure to
    decode the selected value names the last segment and lists all
    segments. *)
Theorem failure_context (raw : string) (sel : Selector) (v : any) (e : error) :
  sel <> EmptyString -> outcome raw sel = (v, Some e) ->
  let segs := gostrings.Split sel "."%char in
  kv_get e "json_path" = Some (VStr sel) /\
  kv_get e "condensed_json" = Some (VStr (condensedJSON (initial_state raw sel))) /\
  exists (k : nat) (seg : string),
    segs !! k = Some seg /\
    kv_get e "segment" = Some (VStr seg) /\
    kv_get e "segment_position" = Some (VInt (Z.of_nat k)) /\
    ((errors.Is e ErrJSONPathTraversalFailed = true /\
      kv_get e "path_progress"
        = match k with O => None | S _ => Some (VStrs (take k segs)) end) \/
     (errors.Is e ErrJSONUnmarshalFailed = true /\ S k = length segs /\
      kv_get e "path_progress" = Some (VStrs segs))).
Proof.
  intros Hsel H segs.
  pose proof (Split_nonempty sel "."%char) as Hne. fold segs in Hne.
  destruct (outcome_located raw sel v e Hsel H)
    as [(k & Hk & b & kvs & c & -> & Hb & Hfresh & _)|(cause & -> & _)].
  - destruct (kv_get_context (at_segment raw sel k k)
                [Sentinel ErrJSONPathTraversalFailed; Sentinel b] kvs c Hfresh)
      as (H1 & H2 & H3 & H4 & H5).
    cbn [at_segment selector segments position pathProgress] in H1, H2, H3, H4.
    fold segs in H2, H3, H4.
    destruct (lookup_lt_is_Some_2 segs k Hk) as [seg Hseg]. rewrite Hseg in H2, H3.
    split; [exact H1|]. split; [exact H5|].
    exists k, seg. split; [exact Hseg|]. split; [exact H2|]. split; [exact H3|].
    left. split; [apply Is_entry_sentinel; cbn; auto|].
    rewrite H4. destruct k as [|k]; [reflexivity|].
    destruct (take (S k) segs) eqn:Ht; [|reflexivity].
    exfalso. apply (take_nonempty segs (S k)); [lia|exact Hne|exact Ht].
  - unfold unmarshal_error. rewrite <- (app_nil_r (context_kvs _)).
    destruct (kv_get_context (at_segment raw sel (Nat.pred (length segs)) (length segs))
                [Sentinel ErrJSONStreamingParseFailed; Sentinel ErrJSONUnmarshalFailed; cause]
                [] None eq_refl) as (H1 & H2 & H3 & H4 & H5).
    cbn [at_segment selector segments position pathProgress] in H1, H2, H3, H4.
    fold segs in H2, H3, H4 |- *.
    assert (Hlen : (0 < length segs)%nat) by (destruct segs; [congruence|cbn; lia]).
    destruct (lookup_lt_is_Some_2 segs (Nat.pred (length segs)) ltac:(lia)) as [seg Hseg].
    rewrite Hseg in H2, H3. rewrite take_ge in H4 by lia.
    split; [exact H1|]. split; [exact H5|].
    exists (Nat.pred (length segs)), seg.
    split; [exact Hseg|]. split; [exact H2|]. split; [exact H3|].
    right. split; [apply Is_entry_sentinel; cbn; auto|]. split; [lia|].
    rewrite H4. destruct segs; [congruence|reflexivity].
Qed.

Lemma failure_context_witness :
  kv_get beyond_error "json_path" = Some (VStr "xs.7") /\
  kv_get beyond_error "condensed_json"
    = Some (VStr (condensedJSON (initial_state xs_document "xs.7"))) /\
  exists (k : nat) (seg : string),
    gostrings.Split "xs.7" "."%char !! k = Some seg /\
    kv_get beyond_error "segment" = Some (VStr seg) /\
    kv_get beyond_error "segment_position" = Some (VInt (Z.of_nat k)) /\
    ((errors.Is beyond_error ErrJSONPathTraversalFailed = true /\
      kv_get beyond_error "path_progress"
        = match k with
          | O => None
          | S _ => Some (VStrs (take k (gostrings.Split "xs.7" "."%char)))
          end) \/
     (errors.Is beyond_error ErrJSONUnmarshalFailed = true /\
      S k = length (gostrings.Split "xs.7" "."%char) /\
      kv_get beyond_error "path_progress"
        = Some (VStrs (gostrings.Split "xs.7" "."%char)))).
Proof.
  exact (failure_context xs_document "xs.7" ANil beyond_error
           ltac:(discriminate) ltac:(vm_compute; reflexivity)).
Defined.

Lemma classified_entry (a b : sentinel) (es : list error) (kvs : list (string * kvalue))
    (c : option error) :
  (a = ErrJSONPathTraversalFailed /\ b ∈ path_failures) \/
  (a = ErrJSONStreamingParseFailed /\ b ∈ parse_failures) ->
  classified (Entry (Sentinel a :: Sentinel b :: es) kvs c) = true.
Proof.
  assert (Ha : errors.Is (Entry (Sentinel a :: Sentinel b :: es) kvs c) a = true)
    by (apply Is_entry_sentinel; cbn; auto).
  assert (Hb : errors.Is (Entry (Sentinel a :: Sentinel b :: es) kvs c) b = true)
    by (apply Is_entry_sentinel; cbn; auto).
  unfold classified. intros [[-> Hin]|[-> Hin]]; apply orb_true_iff; [left|right];
    rewrite Ha; cbn [andb]; apply existsb_exists; exists b;
    (split; [apply list_elem_of_In; exact Hin|exact Hb]).
Qed.

Lemma outcome_classified (raw : string) (sel : Selector) (v : any) (e : error) :
  outcome raw sel = (v, Some e) -> classified e = true.
Proof.
  intros H. destruct (String.eqb_spec sel EmptyString) as [->|Hsel].
  - unfold outcome, extractSingleValue in H. cbn [len String.length Z.of_nat Z.eqb] in H.
    injection H as <- <-. apply classified_entry. left. split; [reflexivity|].
    apply list_elem_of_In. cbn. tauto.
  - destruct (outcome_located raw sel v e Hsel H)
      as [(k & Hk & b & kvs & c & -> & Hb & _)|(cause & -> & _)].
    + apply classified_entry. left. split; [reflexivity|].
      do 2 apply list_elem_of_further. exact Hb.
    + apply classified_entry. right. split; [reflexivity|].
      apply list_elem_of_In. cbn. tauto.
Qed.

Lemma failures_classified (raw : string) (selectors : list Selector) :
  forallb classified (failures raw selectors) = true.
Proof.
  induction selectors as [|x r IH]; [reflexivity|].
  rewrite failures_cons. destruct (outcome raw x) as [v [e|]] eqn:Hx; cbn [snd]; [|exact IH].
  cbn [forallb]. rewrite (outcome_classified raw x v e Hx). exact IH.
Qed.

Lemma joined_CombineErrs (errs : list error) (e : error) :
  CombineErrs errs = Some e -> joined_errors e = errs.
Proof. destruct errs; [discriminate|]. intros H. injection H as <-. reflexivity. Qed.

Lemma ExtractValuesFromReader_classified (reader : option Reader)
    (selectors : list Selector) (err : error) :
  snd (ExtractValuesFromReader reader selectors) = Some err ->
  forallb classified (joined_errors err) = true.
Proof.
  destruct reader as [[raw [e|]]|].
  - unfold ExtractValuesFromReader. destruct selectors as [|x r];
      cbn [length Nat.eqb readAllBytes data fault snd]; intros H; injection H as <-.
    + reflexivity.
    + cbn [joined_errors NewErr leading_errors pairs_and_cause sent forallb].
      rewrite andb_true_r. apply classified_entry. right. split; [reflexivity|].
      apply list_elem_of_In. cbn. tauto.
  - destruct selectors as [|x r].
    + cbn. intros H. injection H as <-. reflexivity.
    + rewrite ExtractValuesFromReader_accepted by discriminate. cbn [snd]. intros H.
      rewrite (joined_CombineErrs _ _ H). apply failures_classified.
  - cbn. intros H. injection H as <-. reflexivity.
Qed.

(** X6. Every error that the batch operations return (for any reader,
    nil and failing ones included, any bytes and any selector list) joins
    only errors that can be identified by category and kind: as
    ErrJSONPathTraversalFailed with one of the kinds of [path_failures],
    or as ErrJSONStreamingParseFailed with ErrJSONUnmarshalFailed or
    ErrJSONReadFailed. *)
Theorem batch_errors_classified (reader : option Reader) (jsonBytes : string)
    (selectors : list Selector) :
  (forall err, snd (ExtractValuesFromReader reader selectors) = Some err ->
     forallb classified (joined_errors err) = true) /\
  (forall err, snd (ExtractValuesFromBytes jsonBytes selectors) = Some err ->
     forallb classified (joined_errors err) = true).
Proof.
  split; [apply ExtractValuesFromReader_classified|].
  intros err. unfold ExtractValuesFromBytes. destruct (len jsonBytes =? 0).
  - cbn. intros H. injection H as <-. reflexivity.
  - apply ExtractValuesFromReader_classified.
Qed.

Lemma Is_entry_silent (a b : sentinel) (es : list error) (kvs : list (string * kvalue))
    (c : option error) (t : sentinel) :
  Forall silent es -> (forall x, c = Some x -> silent x) ->
  errors.Is (Entry (Sentinel a :: Sentinel b :: es) kvs c) t = true <-> t = a \/ t = b.
Proof.
  intros Hes Hc. cbn [errors.Is existsb].
  assert (Hrest : existsb (fun x => errors.Is x t) es = false).
  { induction Hes as [|x es Hx _ IH]; [reflexivity|]. cbn [existsb]. now rewrite (Hx t), IH. }
  assert (Hcause : match c with Some x => errors.Is x t | None => false end = false).
  { destruct c as [x|]; [apply (Hc x eq_refl)|reflexivity]. }
  rewrite Hrest, Hcause, !orb_false_r, orb_true_iff, !bool_decide_eq_true.
  split; intros [?|?]; auto.
Qed.

(** X16. On a failure of extractSingleValue exactly two sentinels can be
    identified, a category and a kind: ErrJSONPathTraversalFailed with
    ErrJSONValueSelectorCannotBeEmpty or one of the kinds of a traversal,
    or ErrJSONStreamingParseFailed with ErrJSONUnmarshalFailed.  No other
    sentinel of the package is identified on it, so the kinds exclude
    each other. *)
Theorem failure_identified (raw : string) (sel : Selector) (v : any) (e : error) :
  outcome raw sel = (v, Some e) ->
  exists a b : sentinel,
    ((a = ErrJSONPathTraversalFailed /\
      b ∈ ErrJSONValueSelectorCannotBeEmpty :: traversal_kinds) \/
     (a = ErrJSONStreamingParseFailed /\ b = ErrJSONUnmarshalFailed)) /\
    forall t, errors.Is e t = true <-> t = a \/ t = b.
Proof.
  intros H. destruct (String.eqb_spec sel EmptyString) as [->|Hsel].
  - unfold outcome, extractSingleValue in H. cbn [len String.length Z.of_nat Z.eqb] in H.
    injection H as <- <-.
    exists ErrJSONPathTraversalFailed, ErrJSONValueSelectorCannotBeEmpty.
    split; [left; split; [reflexivity|apply list_elem_of_here]|].
    intros t. apply (Is_entry_silent _ _ [] [] None t); [constructor|discriminate].
  - destruct (outcome_located raw sel v e Hsel H)
      as [(k & Hk & b & kvs & c & -> & Hb & _ & Hc)|(cause & -> & Hcause)].
    + exists ErrJSONPathTraversalFailed, b.
      split; [left; split; [reflexivity|apply list_elem_of_further; exact Hb]|].
      intros t. apply Is_entry_silent; [constructor|exact Hc].
    + exists ErrJSONStreamingParseFailed, ErrJSONUnmarshalFailed.
      split; [right; split; reflexivity|].
      intros t. apply Is_entry_silent; [repeat constructor; exact Hcause|discriminate].
Qed.

Lemma failure_identified_witness :
  exists a b : sentinel,
    ((a = ErrJSONPathTraversalFailed /\
      b ∈ ErrJSONValueSelectorCannotBeEmpty :: traversal_kinds) \/
     (a = ErrJSONStreamingParseFailed /\ b = ErrJSONUnmarshalFailed)) /\
    forall t, errors.Is beyond_error t = true <-> t = a \/ t = b.
Proof.
  exact (failure_identified xs_document "xs.7" ANil beyond_error
           ltac:(vm_compute; reflexivity)).
Defined.

(** ** A segment at a value of the wrong type *)

Lemma kind_is_not_array (v : json) :
  (forall es, v <> JArray es) -> kind_is (value_kind v) "["%char = false.
Proof. destruct v as [|[]| | |es|]; intros H; try reflexivity. now destruct (H es). Qed.

Lemma kind_is_not_object (v : json) :
  (forall ms, v <> JObject ms) -> kind_is (value_kind v) "{"%char = false.
Proof. destruct v as [|[]| | | |ms]; intros H; try reflexivity. now destruct (H ms). Qed.

(** X7. navigateToSegment decides by the segment alone what it expects:
    a segment that strconv.Atoi parses is an index, any other a key.  At
    a value that is not an array an index segment fails, without moving
    the cursor, with ErrJSONPathExpectedArrayAtSegment (or, when it is
    negative, with ErrJSONIndexOutOfRange), so that a member whose name
    reads as an integer cannot be selected; at a value that is not an
    object a key segment fails with ErrJSONPathExpectedObjectAtSegment.
    The error names the expected type and the kind of the value found. *)
Theorem navigateToSegment_type_mismatch
    (s : extractState) (v : json) (rest : list Token) (segment : string) :
  pending (decoder s) = tokens_of v ++ rest ->
  match strconv.Atoi segment with
  | Some idx =>
      (forall es, v <> JArray es) ->
      exists err : error,
        navigateToSegment s segment = (s, Some err) /\
        errors.Is err ErrJSONPathTraversalFailed = true /\
        if idx <? 0 then
          errors.Is err ErrJSONIndexOutOfRange = true /\
          kv_get err "target_index" = Some (VInt idx)
        else
          errors.Is err ErrJSONPathExpectedArrayAtSegment = true /\
          kv_get err "expected_type" = Some (VStr "array") /\
          kv_get err "actual_type" = Some (VStr (Kind_String (value_kind v)))
  | None =>
      (forall ms, v <> JObject ms) ->
      exists err : error,
        navigateToSegment s segment = (s, Some err) /\
        errors.Is err ErrJSONPathTraversalFailed = true /\
        errors.Is err ErrJSONPathExpectedObjectAtSegment = true /\
        kv_get err "expected_type" = Some (VStr "object") /\
        kv_get err "actual_type" = Some (VStr (Kind_String (value_kind v)))
  end.
Proof.
  intros Hp. unfold navigateToSegment.
  destruct (strconv.Atoi segment) as [idx|]; intros Hv.
  - unfold navigateArrayIndex.
    rewrite (PeekKind_value _ _ _ Hp), (kind_is_not_array v Hv). cbn [negb].
    destruct (idx <? 0); eexists; (split; [reflexivity|]).
    + split; [now apply Is_enriched|]. split; [now apply Is_enriched|].
      rewrite kv_get_enriched; reflexivity.
    + split; [now apply Is_enriched|]. split; [now apply Is_enriched|].
      split; rewrite kv_get_enriched; reflexivity.
  - unfold navigateObjectKey.
    rewrite (PeekKind_value _ _ _ Hp), (kind_is_not_object v Hv). cbn [negb].
    eexists. split; [reflexivity|].
    split; [now apply Is_enriched|]. split; [now apply Is_enriched|].
    split; rewrite kv_get_enriched; reflexivity.
Qed.

Lemma navigateToSegment_type_mismatch_witness :
  exists err : error,
    navigateToSegment (initial_state (json_text "{'0':'zero'}") "0") "0"
      = (initial_state (json_text "{'0':'zero'}") "0", Some err) /\
    errors.Is err ErrJSONPathTraversalFailed = true /\
    errors.Is err ErrJSONPathExpectedArrayAtSegment = true /\
    kv_get err "expected_type" = Some (VStr "array") /\
    kv_get err "actual_type" = Some (VStr "{").
Proof.
  exact (navigateToSegment_type_mismatch
           (initial_state (json_text "{'0':'zero'}") "0")
           (JObject [("0"%string, JString "zero")]) [] "0"
           ltac:(vm_compute; reflexivity) ltac:(discriminate)).
Defined.

(** ** The batch operations and the single-value operations *)

Lemma ExtractValueFromBytes_outcome (raw : string) (sel : Selector) :
  raw <> EmptyString ->
  ExtractValueFromBytes raw sel =
  match outcome raw sel with
  | (v, None) => (v, None)
  | (_, Some e) => (ANil, Some (wrapped ErrExtractingFromJSONBytes sel (Joined [e])))
  end.
Proof.
  intros Hraw. unfold ExtractValueFromBytes.
  rewrite (ExtractValuesFromBytes_nonempty raw [sel] Hraw).
  change (gobytes.NewReader raw) with (mkReader raw None).
  rewrite ExtractValuesFromReader_accepted by discriminate.
  rewrite filter_absent_fails. cbn [List.filter]. rewrite failures_cons.
  unfold failures. cbn [flat_map]. unfold fails, singleResult.
  rewrite batch_map_lookup, bool_decide_eq_true_2 by apply list_elem_of_here.
  destruct (outcome raw sel) as [v [e|]]; reflexivity.
Qed.

Lemma ExtractValueFromReader_outcome (raw : string) (sel : Selector) :
  ExtractValueFromReader (Some (gobytes.NewReader raw)) sel =
  match outcome raw sel with
  | (v, None) => (v, None)
  | (_, Some e) => (ANil, Some (wrapped ErrExtractingFromJSONByReader sel (Joined [e])))
  end.
Proof.
  unfold ExtractValueFromReader.
  change (gobytes.NewReader raw) with (mkReader raw None).
  rewrite ExtractValuesFromReader_accepted by discriminate.
  rewrite filter_absent_fails. cbn [List.filter]. rewrite failures_cons.
  unfold failures. cbn [flat_map]. unfold fails, singleResult.
  rewrite batch_map_lookup, bool_decide_eq_true_2 by apply list_elem_of_here.
  destruct (outcome raw sel) as [v [e|]]; reflexivity.
Qed.

(** X8. The batch operation treats every selector by itself: for
    non-empty bytes and a selector of the list, the map holds a value
    for the selector exactly when the single-value operation returns that
    value, and the selector is in the not-found list exactly when the
    single-value operation fails. *)
Theorem batch_agrees_with_single (raw : string) (selectors : list Selector) (s : Selector) :
  raw <> EmptyString -> s ∈ selectors ->
  let '(valuesMap, notFound, _) := ExtractValuesFromBytes raw selectors in
  (forall a, valuesMap !! s = Some a <-> ExtractValueFromBytes raw s = (a, None)) /\
  (s ∈ notFound <-> snd (ExtractValueFromBytes raw s) <> None).
Proof.
  intros Hraw Hin.
  rewrite (ExtractValuesFromBytes_nonempty raw selectors Hraw).
  change (gobytes.NewReader raw) with (mkReader raw None).
  rewrite ExtractValuesFromReader_accepted by (intros ->; now apply not_elem_of_nil in Hin).
  rewrite filter_absent_fails, (ExtractValueFromBytes_outcome raw s Hraw). split.
  - intros a. rewrite batch_map_lookup, bool_decide_eq_true_2 by exact Hin.
    destruct (outcome raw s) as [v [e|]]; split; intros H; try discriminate H;
      injection H as <-; reflexivity.
  - rewrite list_elem_of_In, filter_In, <- list_elem_of_In. unfold fails.
    destruct (outcome raw s) as [v [e|]]; cbn [snd]; split; intros H;
      try discriminate; try tauto.
    destruct H as [_ H]. discriminate H.
Qed.

Lemma batch_agrees_with_single_witness :
  let '(valuesMap, notFound, _) :=
    ExtractValuesFromBytes xs_document ["xs.1"; "xs.7"]%string in
  (forall a, valuesMap !! "xs.7"%string = Some a <->
             ExtractValueFromBytes xs_document "xs.7" = (a, None)) /\
  ("xs.7"%string ∈ notFound <-> snd (ExtractValueFromBytes xs_document "xs.7") <> None).
Proof.
  exact (batch_agrees_with_single xs_document ["xs.1"; "xs.7"]%string "xs.7"
           ltac:(vm_compute; discriminate)
           (list_elem_of_further _ _ _ (list_elem_of_here _ _))).
Defined.

Lemma Is_wrapped (via : sentinel) (sel : Selector) (e : error) (t : sentinel) :
  errors.Is (wrapped via sel e) t =
  bool_decide (ErrFailedToExtractValueFromJSON = t) || bool_decide (via = t)
  || errors.Is e t.
Proof.
  unfold wrapped, WithErr, NewErr.
  cbn [leading_errors pairs_and_cause sent str errors.Is existsb].
  now rewrite orb_false_r.
Qed.

(** X17. On non-empty bytes ExtractValueFromBytes and
    ExtractValueFromReader over a reader of these bytes agree: they return
    the same value, fail together, and their errors differ only in the
    sentinel that names the variant (ErrExtractingFromJSONBytes or
    ErrExtractingFromJSONByReader): every other sentinel is identified on
    both or on neither. *)
Theorem single_variants_agree (raw : string) (sel : Selector) :
  raw <> EmptyString ->
  fst (ExtractValueFromBytes raw sel)
    = fst (ExtractValueFromReader (Some (gobytes.NewReader raw)) sel) /\
  match snd (ExtractValueFromBytes raw sel),
        snd (ExtractValueFromReader (Some (gobytes.NewReader raw)) sel) with
  | None, None => True
  | Some eb, Some er =>
      errors.Is eb ErrExtractingFromJSONBytes = true /\
      errors.Is er ErrExtractingFromJSONByReader = true /\
      forall t, t <> ErrExtractingFromJSONBytes -> t <> ErrExtractingFromJSONByReader ->
                errors.Is eb t = errors.Is er t
  | _, _ => False
  end.
Proof.
  intros Hraw.
  rewrite (ExtractValueFromBytes_outcome raw sel Hraw), (ExtractValueFromReader_outcome raw sel).
  destruct (outcome raw sel) as [v [e|]]; cbn [fst snd]; [|split; [reflexivity|exact I]].
  split; [reflexivity|]. rewrite !Is_wrapped.
  split; [reflexivity|]. split; [reflexivity|].
  intros t Hb Hr. rewrite !Is_wrapped.
  rewrite (bool_decide_eq_false_2 (ErrExtractingFromJSONBytes = t)) by congruence.
  rewrite (bool_decide_eq_false_2 (ErrExtractingFromJSONByReader = t)) by congruence.
  reflexivity.
Qed.

Lemma single_variants_agree_witness :
  fst (ExtractValueFromBytes xs_document "xs.7")
    = fst (ExtractValueFromReader (Some (gobytes.NewReader xs_document)) "xs.7") /\
  match snd (ExtractValueFromBytes xs_document "xs.7"),
        snd (ExtractValueFromReader (Some (gobytes.NewReader xs_document)) "xs.7") with
  | None, None => True
  | Some eb, Some er =>
      errors.Is eb ErrExtractingFromJSONBytes = true /\
      errors.Is er ErrExtractingFromJSONByReader = true /\
      forall t, t <> ErrExtractingFromJSONBytes -> t <> ErrExtractingFromJSONByReader ->
                errors.Is eb t = errors.Is er t
  | _, _ => False
  end.
Proof.
  exact (single_variants_agree xs_document "xs.7" ltac:(vm_compute; discriminate)).
Defined.

Lemma errors_of_CombineErrs (errs : list error) : errors_of (CombineErrs errs) = errs.
Proof. destruct errs; reflexivity. Qed.

Lemma failures_app (raw : string) (l1 l2 : list Selector) :
  failures raw (l1 ++ l2) = (failures raw l1 ++ failures raw l2)%list.
Proof. unfold failures. apply flat_map_app. Qed.

(** X9. A batch over the concatenation of two non-empty selector lists
    is the two batches put together: the map is the union of the two
    maps, the not-found list and the joined errors are those of the first
    list followed by those of the second. *)
Theorem batch_concatenation (raw : string) (l1 l2 : list Selector) :
  l1 <> [] -> l2 <> [] ->
  let '(valuesMap, notFound, err) :=
    ExtractValuesFromReader (Some (mkReader raw None)) (l1 ++ l2) in
  let '(valuesMap1, notFound1, err1) :=
    ExtractValuesFromReader (Some (mkReader raw None)) l1 in
  let '(valuesMap2, notFound2, err2) :=
    ExtractValuesFromReader (Some (mkReader raw None)) l2 in
  valuesMap = valuesMap1 ∪ valuesMap2 /\
  notFound = (notFound1 ++ notFound2)%list /\
  errors_of err = (errors_of err1 ++ errors_of err2)%list.
Proof.
  intros H1 H2.
  rewrite !ExtractValuesFromReader_accepted
    by (try assumption; intros H; apply app_eq_nil in H; tauto).
  rewrite !filter_absent_fails, !errors_of_CombineErrs. split; [|split].
  - apply map_eq. intros s. rewrite lookup_union, !batch_map_lookup.
    destruct (bool_decide_reflect (s ∈ l1)) as [Hs1|Hs1],
             (bool_decide_reflect (s ∈ l2)) as [Hs2|Hs2];
      [rewrite bool_decide_eq_true_2 by (apply elem_of_app; tauto)..
      |rewrite bool_decide_eq_false_2 by (rewrite elem_of_app; tauto)];
      destruct (outcome raw s) as [v [e|]]; reflexivity.
  - apply List.filter_app.
  - apply failures_app.
Qed.

Lemma batch_concatenation_witness :
  let '(valuesMap, notFound, err) :=
    ExtractValuesFromReader (Some (mkReader xs_document None))
      (["xs.1"%string] ++ ["xs.7"%string])%list in
  let '(valuesMap1, notFound1, err1) :=
    ExtractValuesFromReader (Some (mkReader xs_document None)) ["xs.1"%string] in
  let '(valuesMap2, notFound2, err2) :=
    ExtractValuesFromReader (Some (mkReader xs_document None)) ["xs.7"%string] in
  valuesMap = valuesMap1 ∪ valuesMap2 /\
  notFound = (notFound1 ++ notFound2)%list /\
  errors_of err = (errors_of err1 ++ errors_of err2)%list.
Proof.
  exact (batch_concatenation xs_document ["xs.1"%string] ["xs.7"%string]
           ltac:(discriminate) ltac:(discriminate)).
Defined.

Lemma filter_Permutation_fails (f : Selector -> bool) (l l' : list Selector) :
  Permutation l l' -> Permutation (List.filter f l) (List.filter f l').
Proof.
  induction 1 as [|x l l' _ IH|x y l|l l' l'' _ IH1 _ IH2]; cbn [List.filter].
  - constructor.
  - destruct (f x); [constructor|]; exact IH.
  - destruct (f x), (f y); try reflexivity. constructor.
  - etransitivity; eassumption.
Qed.

(** X10. The order of the selectors decides the order of the not-found
    list and of the joined errors and nothing else: for a reordered
    selector list the batch operation returns the same map, and a
    not-found list and joined errors that are reorderings of the
    former. *)
Theorem batch_selector_order (raw : string) (l l' : list Selector) :
  l <> [] -> Permutation l l' ->
  let '(valuesMap, notFound, err) := ExtractValuesFromReader (Some (mkReader raw None)) l in
  let '(valuesMap', notFound', err') :=
    ExtractValuesFromReader (Some (mkReader raw None)) l' in
  valuesMap = valuesMap' /\
  Permutation notFound notFound' /\
  Permutation (errors_of err) (errors_of err').
Proof.
  intros Hne Hperm.
  assert (Hne' : l' <> []).
  { intros ->. apply Permutation_sym, Permutation_nil in Hperm. contradiction. }
  rewrite !ExtractValuesFromReader_accepted by assumption.
  rewrite !filter_absent_fails, !errors_of_CombineErrs. split; [|split].
  - apply map_eq. intros s. rewrite !batch_map_lookup.
    rewrite (bool_decide_ext (s ∈ l) (s ∈ l')); [reflexivity|].
    rewrite !list_elem_of_In. split; apply Permutation_in; [|symmetry]; exact Hperm.
  - apply filter_Permutation_fails. exact Hperm.
  - unfold failures. apply Permutation_flat_map. exact Hperm.
Qed.

Lemma batch_selector_order_witness :
  let '(valuesMap, notFound, err) :=
    ExtractValuesFromReader (Some (mkReader xs_document None)) ["xs.1"; "xs.7"]%string in
  let '(valuesMap', notFound', err') :=
    ExtractValuesFromReader (Some (mkReader xs_document None)) ["xs.7"; "xs.1"]%string in
  valuesMap = valuesMap' /\
  Permutation notFound notFound' /\
  Permutation (errors_of err) (errors_of err').
Proof.
  exact (batch_selector_order xs_document ["xs.1"; "xs.7"]%string ["xs.7"; "xs.1"]%string
           ltac:(discriminate) (perm_swap _ _ _)).
Defined.

(** X11. Input that the reader variant rejects yields no map entry and an
    empty not-found list.  An empty selector list is rejected with
    ErrJSONValueSelectorCannotBeEmpty before the reader is read, whether
    or not reading would fail.  When reading fails, no selector is tried:
    the error is ErrJSONStreamingParseFailed and ErrJSONReadFailed, and
    every kind of the reader's own error can still be identified on it,
    also through the single-value operation, which adds
    ErrFailedToExtractValueFromJSON and ErrExtractingFromJSONByReader. *)
Theorem rejected_input (raw : string) (fault : option error) (cause : error)
    (selectors : list Selector) (sel : Selector) :
  (exists err,
     ExtractValuesFromReader (Some (mkReader raw fault)) [] = (∅, [], Some err) /\
     errors.Is err ErrJSONPathTraversalFailed = true /\
     errors.Is err ErrJSONValueSelectorCannotBeEmpty = true) /\
  (selectors <> [] ->
   exists err,
     ExtractValuesFromReader (Some (mkReader raw (Some cause))) selectors
       = (∅, [], Some err) /\
     errors.Is err ErrJSONStreamingParseFailed = true /\
     errors.Is err ErrJSONReadFailed = true /\
     forall t, errors.Is cause t = true -> errors.Is err t = true) /\
  (exists err,
     ExtractValueFromReader (Some (mkReader raw (Some cause))) sel = (ANil, Some err) /\
     errors.Is err ErrFailedToExtractValueFromJSON = true /\
     errors.Is err ErrExtractingFromJSONByReader = true /\
     errors.Is err ErrJSONReadFailed = true /\
     forall t, errors.Is cause t = true -> errors.Is err t = true).
Proof.
  split; [|split].
  - eexists. split; [reflexivity|]. split; reflexivity.
  - intros Hne. destruct selectors as [|x r]; [contradiction|].
    eexists. split; [reflexivity|]. split; [reflexivity|]. split; [reflexivity|].
    intros t Ht. cbn [NewErr leading_errors pairs_and_cause sent errors.Is existsb].
    rewrite Ht. now rewrite !orb_true_r.
  - eexists. split; [reflexivity|]. split; [reflexivity|]. split; [reflexivity|].
    split; [reflexivity|].
    intros t Ht.
    cbn [WithErr NewErr leading_errors pairs_and_cause sent str errors.Is existsb].
    rewrite Ht. now rewrite !orb_true_r.
Qed.

(** ** Documents read as far as the selected value *)

Lemma skipElements_upto (before : list json) :
  forall (s : extractState) (targetIdx currentIdx : Z) (next : list Token),
    pending (decoder s) = flat_map tokens_of before ++ next ->
    skipElements (length before) s targetIdx currentIdx =
    (with_decoder s (mkDecoder next (tail (decoder s))), None,
     currentIdx + Z.of_nat (length before)).
Proof.
  induction before as [|e before IH]; intros s targetIdx currentIdx next Hp.
  - cbn [length skipElements flat_map app] in *. rewrite Z.add_0_r, <- Hp.
    destruct s as [[] ]; reflexivity.
  - cbn [flat_map] in Hp. rewrite <- app_assoc in Hp.
    cbn [length skipElements].
    rewrite (PeekKind_value _ _ _ Hp).
    destruct (value_kind_not_closer e) as [-> _].
    rewrite (SkipValue_value _ _ _ Hp).
    rewrite (IH _ targetIdx (currentIdx + 1) next) by reflexivity.
    cbn [with_decoder decoder tail selector segments pathProgress position rawBytes].
    f_equal. lia.
Qed.

(** Index navigation reads the opening bracket and the elements before
    the index, whatever follows the element. *)
Lemma navigateArrayIndex_upto (s : extractState) (before : list json) (t : Token)
    (next : list Token) :
  pending (decoder s) = BeginArray :: flat_map tokens_of before ++ t :: next ->
  kind_is (Token_Kind t) "]"%char = false ->
  navigateArrayIndex s (Z.of_nat (length before)) =
  (with_decoder s (mkDecoder (t :: next) (tail (decoder s))), None).
Proof.
  intros Hp Ht. unfold navigateArrayIndex.
  destruct (Z.ltb_spec (Z.of_nat (length before)) 0) as [?|_]; [lia|].
  unfold PeekKind at 1, ReadToken. rewrite Hp.
  cbn [Token_Kind kind_is]. change (Ascii.eqb "[" "[") with true. cbn [negb].
  rewrite Nat2Z.id.
  rewrite (skipElements_upto before _ _ 0 (t :: next)) by reflexivity.
  cbn [with_decoder decoder pending tail]. unfold PeekKind. cbn [pending].
  rewrite Ht. reflexivity.
Qed.

Lemma searchKey_upto (before : list (string * json)) :
  forall (fuel : nat) (s : extractState) (k : string) (avail : list string)
         (name : string) (next : list Token),
    pending (decoder s) = flat_map member_tokens before ++ TString name :: next ->
    (length before < fuel)%nat ->
    Forall (fun kv => shown_key kv <> k) before ->
    unquote_key name = k ->
    searchKey fuel s k avail =
    Some (with_decoder s (mkDecoder next (tail (decoder s))), None).
Proof.
  induction before as [|[n0 v0] before IH];
    intros fuel s k avail name next Hp Hfuel Hall Hname;
    (destruct fuel as [|fuel]; [cbn in Hfuel; lia|]).
  - cbn [flat_map app] in Hp.
    cbn [searchKey]. unfold PeekKind, ReadToken. rewrite Hp.
    cbn [Token_Kind kind_is]. change (Ascii.eqb dquote "}") with false. cbn [negb].
    cbn [Token_String]. rewrite Hname, String.eqb_refl. reflexivity.
  - rewrite member_tokens_cons in Hp.
    cbn [searchKey]. unfold PeekKind, ReadToken. rewrite Hp.
    cbn [Token_Kind kind_is]. change (Ascii.eqb dquote "}") with false. cbn [negb].
    cbn [Token_String].
    apply Forall_cons in Hall. destruct Hall as [Hn0 Hall].
    unfold shown_key in Hn0. cbn [fst] in Hn0.
    apply String.eqb_neq in Hn0. rewrite Hn0.
    erewrite SkipValue_value by reflexivity.
    rewrite (IH fuel _ k _ name next);
      [reflexivity|reflexivity|cbn in Hfuel; lia|assumption|assumption].
Qed.

(** Key navigation reads the opening brace and the members up to the
    name, whatever follows the name. *)
Lemma navigateObjectKey_upto (s : extractState) (before : list (string * json))
    (name : string) (next : list Token) (k : string) :
  pending (decoder s) =
    BeginObject :: flat_map member_tokens before ++ TString name :: next ->
  Forall (fun kv => shown_key kv <> k) before ->
  unquote_key name = k ->
  navigateObjectKey s k = (with_decoder s (mkDecoder next (tail (decoder s))), None).
Proof.
  intros Hp Hbefore Hname. unfold navigateObjectKey, PeekKind, ReadToken. rewrite Hp.
  cbn [Token_Kind kind_is]. change (Ascii.eqb "{" "{") with true. cbn [negb].
  erewrite searchKey_upto; [reflexivity | reflexivity | | exact Hbefore | exact Hname].
  cbn [with_decoder decoder pending]. rewrite length_app.
  pose proof (flat_members_length before) as Hl. lia.
Qed.

Lemma closes_kind (t : Token) : closes t = false -> kind_is (Token_Kind t) "]"%char = false.
Proof. destruct t; intros H; try reflexivity; discriminate H. Qed.

Lemma members_before_plain (k : string) (ms : list (string * json)) (val : json) :
  lookup_member k ms = Some val -> plain_until k ms = true ->
  Forall (fun kv => shown_key kv <> k) (members_before k ms) /\ unquote_key k = k.
Proof.
  induction ms as [|[n v] ms IH]; intros Hl Hp; [discriminate|].
  cbn [lookup_member plain_until members_before fst snd] in *.
  apply andb_true_iff in Hp. destruct Hp as [Hplain Hp].
  unfold quote_wrapped in Hplain. rewrite negb_involutive in Hplain.
  apply String.eqb_eq in Hplain.
  destruct (String.eqb_spec n k) as [->|Hne].
  - split; [constructor|exact Hplain].
  - cbn [orb] in Hp. destruct (IH Hl Hp) as [Hall Hk]. split; [|exact Hk].
    constructor; [|exact Hall]. unfold shown_key. cbn [fst]. rewrite Hplain. exact Hne.
Qed.

(** The tokens up to and including the selected value start with a token
    that does not close a container. *)
Lemma path_prefix_head (segs : list string) :
  forall (v u : json) (rest : list Token),
    resolve v segs = Some u ->
    exists t next,
      (path_prefix v segs ++ tokens_of u ++ rest)%list = t :: next /\
      kind_is (Token_Kind t) "]"%char = false.
Proof.
  destruct segs as [|seg segs]; intros v u rest Hres.
  - cbn [path_prefix app]. destruct (tokens_of_head u) as (t & r & -> & Ht).
    exists t, (r ++ rest)%list. split; [reflexivity|]. now apply closes_kind.
  - cbn [resolve path_prefix] in *.
    destruct (String.eqb seg EmptyString); [discriminate|].
    destruct (strconv.Atoi seg) as [idx|].
    + destruct v as [| | | |elems|]; try discriminate.
      destruct (idx <? 0); [discriminate|].
      destruct (elems !! Z.to_nat idx) as [e|]; [|discriminate].
      eexists _, _. split; [reflexivity|reflexivity].
    + destruct v as [| | | | |ms]; try discriminate.
      destruct (lookup_member seg ms) as [e|]; [|discriminate].
      eexists _, _. split; [reflexivity|reflexivity].
Qed.

(** The segment loop needs the tokens up to the selected value only. *)
Lemma navigateSegments_upto (segs : list string) :
  forall (s : extractState) (i : nat) (v u : json) (rest : list Token),
    pending (decoder s) = (path_prefix v segs ++ tokens_of u ++ rest)%list ->
    resolve v segs = Some u ->
    plain_path v segs = true ->
    exists s' : extractState,
      navigateSegments s i segs = (s', None) /\
      pending (decoder s') = (tokens_of u ++ rest)%list.
Proof.
  induction segs as [|seg segs IH]; intros s i v u rest Hp Hres Hplain.
  - exists s. split; [reflexivity|exact Hp].
  - cbn [resolve plain_path navigateSegments path_prefix] in *.
    destruct (String.eqb seg EmptyString); [discriminate|].
    unfold navigateToSegment.
    destruct (strconv.Atoi seg) as [idx|].
    + destruct v as [| | | |elems|]; try discriminate.
      destruct (Z.ltb_spec idx 0) as [|Hlo]; [discriminate|].
      destruct (elems !! Z.to_nat idx) as [e|] eqn:He; [|discriminate].
      destruct (path_prefix_head segs e u rest Hres) as (t & next & Hnext & Ht).
      cbn [app] in Hp. rewrite <- app_assoc, Hnext in Hp.
      assert (Hlen : length (take (Z.to_nat idx) elems) = Z.to_nat idx).
      { apply length_take_le. apply lookup_lt_Some in He. lia. }
      pose proof (navigateArrayIndex_upto (with_position s i) _ t next Hp Ht) as Hnav.
      rewrite Hlen, Z2Nat.id in Hnav by lia. rewrite Hnav.
      eapply IH; [|exact Hres|exact Hplain].
      cbn [with_pathProgress with_decoder decoder pending]. symmetry. exact Hnext.
    + destruct v as [| | | | |ms]; try discriminate.
      apply andb_true_iff in Hplain. destruct Hplain as [Hpu Hplain].
      destruct (lookup_member seg ms) as [e|] eqn:He; [|discriminate].
      destruct (members_before_plain _ _ _ He Hpu) as [Hall Hk].
      cbn [app] in Hp. rewrite <- app_assoc in Hp. cbn [app] in Hp.
      rewrite (navigateObjectKey_upto (with_position s i) _ seg _ seg Hp Hall Hk).
      eapply IH; [|exact Hres|exact Hplain]. reflexivity.
Qed.

(** X12. Extraction reads the document no further than the end of the
    selected value: when the decoder delivers the tokens that lead to the
    value [u] selected in [doc], then the tokens of [u], the single-value
    operations return the Dynamic Value of [u] whatever follows, be it
    nothing, other tokens or text that is not JSON.  (Provisos: the
    numbers of [u] are within the float64 range, and no member name
    compared on the way is wrapped in double quotes.) *)
Theorem extraction_reads_prefix
    (raw : string) (doc u : json) (rest : list Token) (sel : Selector) (a : any) :
  pending (NewDecoder (gobytes.NewReader raw))
    = (path_prefix doc (gostrings.Split sel "."%char) ++ tokens_of u ++ rest)%list ->
  resolve doc (gostrings.Split sel "."%char) = Some u ->
  plain_path doc (gostrings.Split sel "."%char) = true ->
  to_any u = Some a ->
  ExtractValueFromBytes raw sel = (a, None) /\
  ExtractValueFromReader (Some (gobytes.NewReader raw)) sel = (a, None).
Proof.
  intros Hp Hres Hplain Ha.
  assert (Hsel : sel <> EmptyString).
  { intros ->. cbn in Hres. discriminate. }
  assert (Hx : outcome raw sel = (a, None)).
  { unfold outcome, extractSingleValue. rewrite (len_nonzero _ Hsel).
    unfold newExtractState. cbn [segments].
    destruct (navigateSegments_upto _
                (mkState (NewDecoder (gobytes.NewReader raw)) sel
                   (gostrings.Split sel "."%char) [] O raw) O doc u rest Hp Hres Hplain)
      as (s' & -> & Hp').
    rewrite (UnmarshalDecode_value _ _ _ _ Hp' Ha). reflexivity. }
  assert (Hraw : raw <> EmptyString).
  { intros ->. pose proof (outcome_empty_body sel) as Hf. unfold fails in Hf.
    rewrite Hx in Hf. discriminate Hf. }
  assert (Hb : ExtractValueFromBytes raw sel = (a, None)).
  { rewrite (ExtractValueFromBytes_outcome raw sel Hraw), Hx. reflexivity. }
  split; [exact Hb|].
  rewrite (ExtractValueFromReader_outcome raw sel), Hx. reflexivity.
Qed.

Lemma extraction_reads_prefix_witness :
  ExtractValueFromBytes cut_document "a.2.b" = (ABool true, None) /\
  ExtractValueFromReader (Some (gobytes.NewReader cut_document)) "a.2.b"
    = (ABool true, None).
Proof.
  exact (extraction_reads_prefix cut_document
           (JObject [("a"%string,
                      JArray [JNumber "1"; JNumber "2";
                              JObject [("b"%string, JBool true)]])])
           (JBool true) [TString "c"] "a.2.b" (ABool true)
           ltac:(vm_compute; reflexivity) ltac:(vm_compute; reflexivity)
           ltac:(vm_compute; reflexivity) ltac:(vm_compute; reflexivity)).
Defined.

(** X13. For every document tree that is well formed (number literals of
    the JSON grammar, printable strings, member names unique within an
    object) and every selector that resolves in it, extraction from the
    compact JSON text of the tree returns the Dynamic Value of the
    resolved value, through the single-value operation and through the
    batch operation alike.  (Provisos: the numbers of the value are
    within the float64 range, and no member name compared on the way is
    wrapped in double quotes.) *)
Theorem extraction_from_text (doc v : json) (sel : Selector) (a : any) :
  well_formed doc = true ->
  resolve doc (gostrings.Split sel "."%char) = Some v ->
  plain_path doc (gostrings.Split sel "."%char) = true ->
  to_any v = Some a ->
  ExtractValueFromBytes (string_of (render doc)) sel = (a, None) /\
  ExtractValuesFromBytes (string_of (render doc)) [sel] = (<[sel := a]> ∅, [], None).
Proof.
  intros Hwf Hres Hplain Ha.
  pose proof (extractSingleValue_of_text doc v sel a Hwf Hres Hplain Ha) as Hx.
  cbv zeta in Hx. fold (outcome (string_of (render doc)) sel) in Hx.
  assert (Hraw : string_of (render doc) <> EmptyString).
  { intros Hempty. rewrite Hempty in Hx.
    pose proof (outcome_empty_body sel) as Hf. unfold fails in Hf. rewrite Hx in Hf.
    discriminate Hf. }
  split.
  - rewrite (ExtractValueFromBytes_outcome _ sel Hraw), Hx. reflexivity.
  - rewrite (ExtractValuesFromBytes_nonempty _ [sel] Hraw).
    change (gobytes.NewReader (string_of (render doc)))
      with (mkReader (string_of (render doc)) None).
    rewrite ExtractValuesFromReader_accepted by discriminate.
    rewrite filter_absent_fails. cbn [List.filter]. rewrite failures_cons.
    unfold fails, batch_map. cbn [extractEach]. fold (outcome (string_of (render doc)) sel).
    rewrite Hx. reflexivity.
Qed.

Lemma extraction_from_text_witness :
  ExtractValueFromBytes (string_of (render items_value)) "items.2.name"
    = (AString "gamma", None) /\
  ExtractValuesFromBytes (string_of (render items_value)) ["items.2.name"%string]
    = (<["items.2.name"%string := AString "gamma"]> ∅, [], None).
Proof.
  exact (extraction_from_text items_value (JString "gamma") "items.2.name" (AString "gamma")
           ltac:(vm_compute; reflexivity) ltac:(vm_compute; reflexivity)
           ltac:(vm_compute; reflexivity) ltac:(vm_compute; reflexivity)).
Defined.

(** ** The value the key search arrives at *)

Lemma search_member_split (k : string) (ms : list (string * json)) (kv : string * json) :
  search_member k ms = Some kv ->
  (exists after, ms = (members_passed k ms ++ kv :: after)%list) /\
  Forall (fun m => shown_key m <> k) (members_passed k ms) /\
  unquote_key (fst kv) = k.
Proof.
  induction ms as [|m ms IH]; intros Hs; [discriminate|].
  cbn [search_member members_passed] in *.
  destruct (String.eqb_spec (shown_key m) k) as [Hm|Hm].
  - injection Hs as ->. split; [exists ms; reflexivity|]. split; [constructor|exact Hm].
  - destruct (IH Hs) as ([after Hafter] & Hall & Hk).
    split; [exists after; cbn [app]; now rewrite <- Hafter|].
    split; [constructor; assumption|exact Hk].
Qed.



(** A decoder that delivers the whole document delivers the tokens that
    lead to the value arrived at, and the tokens of that value. *)
Lemma tokens_of_reached_prefix (segs : list string) :
  forall v u : json,
    reached v segs = Some u ->
    exists more : list Token,
      tokens_of v = (reached_prefix v segs ++ tokens_of u ++ more)%list.
Proof.
  induction segs as [|seg segs IH]; intros v u Hres.
  - cbn in Hres. injection Hres as <-. exists []. cbn [reached_prefix app].
    now rewrite app_nil_r.
  - cbn [reached reached_prefix] in *.
    destruct (String.eqb seg EmptyString); [discriminate|].
    destruct (strconv.Atoi seg) as [idx|].
    + destruct v as [| | | |elems|]; try discriminate.
      destruct (idx <? 0); [discriminate|].
      destruct (elems !! Z.to_nat idx) as [e|] eqn:He; [|discriminate].
      destruct (IH e u Hres) as [more Hmore].
      exists (more ++ flat_map tokens_of (drop (S (Z.to_nat idx)) elems) ++ [EndArray])%list.
      cbn [tokens_of app].
      rewrite <- (take_drop_middle elems (Z.to_nat idx) e He) at 1.
      rewrite flat_map_app. cbn [flat_map]. rewrite Hmore.
      rewrite <- !app_assoc. reflexivity.
    + destruct v as [| | | | |ms]; try discriminate.
      destruct (search_member seg ms) as [[n e]|] eqn:He; [|discriminate].
      cbn [fst snd] in *.
      destruct (IH e u Hres) as [more Hmore].
      destruct (search_member_split seg ms _ He) as ([after Hafter] & _).
      exists (more ++ flat_map member_tokens after ++ [EndObject])%list.
      cbn [tokens_of app]. fold member_tokens.
      rewrite Hafter at 1. rewrite flat_map_app.
      change (flat_map member_tokens ((n, e) :: after))
        with (TString n :: tokens_of e ++ flat_map member_tokens after)%list.
      rewrite Hmore. rewrite <- !app_assoc. cbn [app]. rewrite <- !app_assoc. reflexivity.
Qed.

(** Where the search stops at the member the segment names, it arrives
    at that member, having passed the members before it. *)
Lemma search_agrees_member (k : string) (ms : list (string * json)) (val : json) :
  lookup_member k ms = Some val -> search_agrees k ms = true ->
  search_member k ms = Some (k, val) /\ members_passed k ms = members_before k ms.
Proof.
  induction ms as [|[n v] ms IH]; intros Hl Hp; [discriminate|].
  cbn [lookup_member search_agrees search_member members_passed members_before fst snd] in *.
  destruct (String.eqb_spec n k) as [->|Hne].
  - rewrite Hp. injection Hl as ->. split; reflexivity.
  - apply andb_true_iff in Hp as [Hn Hp]. apply negb_true_iff in Hn. rewrite Hn.
    destruct (IH Hl Hp) as [-> ->]. split; reflexivity.
Qed.

Lemma search_agrees_reached (segs : list string) :
  forall v u : json,
    resolve v segs = Some u ->
    search_agrees_path v segs = true ->
    reached v segs = Some u /\ reached_prefix v segs = path_prefix v segs.
Proof.
  induction segs as [|seg segs IH]; intros v u Hres Hagree.
  - split; [exact Hres|reflexivity].
  - cbn [resolve search_agrees_path reached reached_prefix path_prefix] in *.
    destruct (String.eqb seg EmptyString); [discriminate|].
    destruct (strconv.Atoi seg) as [idx|].
    + destruct v as [| | | |elems|]; try discriminate.
      destruct (idx <? 0); [discriminate|].
      destruct (elems !! Z.to_nat idx) as [e|]; [|discriminate].
      destruct (IH e u Hres Hagree) as [-> ->]. split; reflexivity.
    + destruct v as [| | | | |ms]; try discriminate.
      apply andb_true_iff in Hagree. destruct Hagree as [Hpu Hagree].
      destruct (lookup_member seg ms) as [e|] eqn:He; [|discriminate].
      destruct (search_agrees_member _ _ _ He Hpu) as [-> ->]. cbn [fst snd].
      destruct (IH e u Hres Hagree) as [-> ->]. split; reflexivity.
Qed.

(** A name that the quote removal changes is what is left of it, in
    double quotes. *)
Lemma unquote_key_changed (n : string) :
  unquote_key n <> n -> n = in_quotes (unquote_key n).
Proof.
  unfold unquote_key. intros H.
  destruct (bytes_of n) as [|a [|b r]] eqn:Hn; try congruence.
  destruct (Ascii.eqb_spec a dquote) as [->|]; [|cbn [andb] in H; congruence].
  destruct (Ascii.eqb_spec (List.last (b :: r) dquote) dquote) as [Hlast|];
    [|cbn [andb] in H; congruence].
  cbn [andb]. rewrite <- (string_of_bytes_of n) at 1. rewrite Hn.
  rewrite (app_removelast_last dquote (l := b :: r)) at 1 by discriminate.
  rewrite Hlast. unfold in_quotes.
  generalize (removelast (b :: r)). intros l. unfold string_of. cbn [string_of_list_ascii].
  f_equal. induction l as [|c l IH]; [reflexivity|].
  cbn [app string_of_list_ascii]. now rewrite IH.
Qed.

(** The search stops at the member the segment names exactly when the
    segment is not itself in double quotes and no member before the one
    it names is named by the segment in double quotes. *)
Lemma search_agrees_spec (k : string) (ms : list (string * json)) (val : json) :
  lookup_member k ms = Some val ->
  search_agrees k ms = true <->
  unquote_key k = k /\
  Forall (fun kv => fst kv <> in_quotes k) (members_before k ms).
Proof.
  induction ms as [|[n v] ms IH]; intros Hl; [discriminate|].
  cbn [lookup_member search_agrees members_before fst snd] in *.
  change (shown_key (n, v)) with (unquote_key n).
  destruct (String.eqb_spec n k) as [->|Hne].
  - rewrite String.eqb_eq. split; [intros H; split; [exact H|constructor]|tauto].
  - rewrite andb_true_iff, negb_true_iff, String.eqb_neq, (IH Hl), Forall_cons. cbn [fst].
    split.
    + intros (Hn & Hk & Hall). split; [exact Hk|]. split; [|exact Hall].
      intros ->. now rewrite unquote_key_in_quotes in Hn.
    + intros (Hk & Hn & Hall). split; [|tauto].
      intros Hshown. apply Hn. rewrite <- Hshown. apply unquote_key_changed.
      rewrite Hshown. congruence.
Qed.

(** No name in double quotes among the members compared: the search
    stops at the member the segment names. *)
Lemma plain_until_agrees (k : string) (ms : list (string * json)) :
  plain_until k ms = true -> search_agrees k ms = true.
Proof.
  induction ms as [|[n v] ms IH]; intros Hp; [reflexivity|].
  cbn [plain_until search_agrees fst] in *.
  apply andb_true_iff in Hp as [Hplain Hp].
  unfold quote_wrapped in Hplain. rewrite negb_involutive in Hplain.
  apply String.eqb_eq in Hplain. unfold shown_key. cbn [fst]. rewrite Hplain.
  destruct (String.eqb n k) eqn:Hn; [reflexivity|].
  cbn [orb negb andb] in *. exact (IH Hp).
Qed.



(** The provisos are needed.  A member named by the segment in double
    quotes before the member the segment names: the search stops there,
    and its value is returned. *)
Example earlier_member_in_quotes :
  resolve (JObject [(in_quotes "x", JNumber "0"); ("x"%string, JNumber "1")])
    (gostrings.Split "x" "."%char) = Some (JNumber "1") /\
  reached (JObject [(in_quotes "x", JNumber "0"); ("x"%string, JNumber "1")])
    (gostrings.Split "x" "."%char) = Some (JNumber "0") /\
  ExtractValueFromBytes (json_text "{'\'x\'':0,'x':1}") "x"
    = (AFloat64 (S754_zero false), None).
Proof. repeat split; vm_compute; reflexivity. Qed.

(** A member name repeated before the selected member: the decoder
    rejects the repetition, and the selector of a later member fails;
    the selector of the repeated name itself is served, the repetition
    not being read. *)
Example repeated_member_name :
  resolve (JObject [("a"%string, JNumber "1"); ("a"%string, JNumber "2");
                    ("b"%string, JNumber "3")])
    (gostrings.Split "b" "."%char) = Some (JNumber "3") /\
  reports (ExtractValueFromBytes (json_text "{'a':1,'a':2,'b':3}") "b")
    ErrJSONTokenReadFailed = true /\
  ExtractValueFromBytes (json_text "{'a':1,'a':2,'b':3}") "a"
    = (AFloat64 (S754_finite false 4503599627370496 (-52)), None).
Proof. repeat split; vm_compute; reflexivity. Qed.

(** ** Selectors and their segments *)

Lemma Split_cons (c : ascii) (r : string) (sep : ascii) :
  gostrings.Split (String c r) sep =
  if Ascii.eqb c sep then EmptyString :: gostrings.Split r sep
  else match gostrings.Split r sep with
       | h :: t => String c h :: t
       | [] => [String c EmptyString]
       end.
Proof. reflexivity. Qed.

Lemma Join_Split (s : string) (sep : ascii) :
  Join (gostrings.Split s sep) (String sep EmptyString) = s.
Proof.
  induction s as [|c r IH]; [reflexivity|].
  rewrite Split_cons. pose proof (Split_nonempty r sep) as Hne.
  destruct (Ascii.eqb_spec c sep) as [->|Hc].
  - destruct (gostrings.Split r sep) as [|h t] eqn:Hs; [contradiction|].
    change (Join (EmptyString :: h :: t) (String sep EmptyString))
      with (String sep (Join (h :: t) (String sep EmptyString))).
    now rewrite IH.
  - destruct (gostrings.Split r sep) as [|h t] eqn:Hs; [contradiction|].
    destruct t as [|h' t'].
    + cbn [Join] in *. now rewrite IH.
    + change (Join (String c h :: h' :: t') (String sep EmptyString))
        with (String c (Join (h :: h' :: t') (String sep EmptyString))).
      now rewrite IH.
Qed.

Lemma Split_free (s : string) (sep : ascii) :
  Forall (fun seg => existsb (Ascii.eqb sep) (bytes_of seg) = false) (gostrings.Split s sep).
Proof.
  induction s as [|c r IH]; [repeat constructor|].
  rewrite Split_cons. pose proof (Split_nonempty r sep) as Hne.
  destruct (Ascii.eqb_spec c sep) as [->|Hc].
  - constructor; [reflexivity|exact IH].
  - destruct (gostrings.Split r sep) as [|h t]; [contradiction|].
    apply Forall_cons in IH as [Hh Ht]. constructor; [|exact Ht].
    cbn [bytes_of list_ascii_of_string existsb]. fold (bytes_of h). rewrite Hh.
    destruct (Ascii.eqb_spec sep c) as [->|_]; [contradiction|reflexivity].
Qed.

Lemma Split_length (s : string) (sep : ascii) :
  length (gostrings.Split s sep) = S (count_byte sep s).
Proof.
  unfold count_byte. induction s as [|c r IH]; [reflexivity|].
  rewrite Split_cons. pose proof (Split_nonempty r sep) as Hne.
  cbn [bytes_of list_ascii_of_string List.filter]. fold (bytes_of r).
  rewrite (Ascii.eqb_sym sep c).
  destruct (Ascii.eqb c sep).
  - cbn [length]. now rewrite IH.
  - destruct (gostrings.Split r sep) as [|h t]; [contradiction|]. exact IH.
Qed.

(** X14. newExtractState splits the selector at its dots: the segments
    joined by dots are the selector again, there is one segment more than
    the selector has dots, and no segment holds a dot, so that a member
    whose name holds a dot is never looked for.  The traversal starts at
    segment 0 with no progress. *)
Theorem newExtractState_segments (d : Decoder) (sel : string) (raw : string) :
  let s := newExtractState d sel raw in
  Join (segments s) "." = sel /\
  Forall (fun seg => gostrings.Contains seg "." = false) (segments s) /\
  length (segments s) = S (count_byte "."%char sel) /\
  selector s = sel /\ pathProgress s = [] /\ position s = O /\ rawBytes s = raw.
Proof.
  cbv zeta. unfold newExtractState. cbn [segments selector pathProgress position rawBytes].
  split; [apply (Join_Split sel "."%char)|]. split; [|split; [apply Split_length|tauto]].
  eapply Forall_impl; [apply (Split_free sel "."%char)|].
  intros seg Hseg. unfold gostrings.Contains.
  change (bytes_of ".") with ["."%char]. rewrite contains_byte. exact Hseg.
Qed.

(** ** The example program *)

(** examples/basic_usage/main.go: the three selectors of the batch call
    resolve, nothing is reported as not found, and the single-value call
    returns the user's name. *)
Example example_basic_usage :
  ExtractValuesFromReader (Some (gobytes.NewReader usage_document))
    ["user.name"; "user.email"; "address.city"]%string
  = (<["address.city"%string := AString "San Francisco"]>
       (<["user.email"%string := AString "john@example.com"]>
          (<["user.name"%string := AString "John Doe"]> ∅)),
     [], None) /\
  ExtractValueFromReader (Some (gobytes.NewReader usage_document)) "user.name"
  = (AString "John Doe", None).
Proof. split; vm_compute; reflexivity. Qed.
